(** * tuf-js: the trusted-metadata client, verified against its specification

    A shallow embedding of the TypeScript sources of the TUF client
    (bounded fetch, signed envelope, threshold verification, update
    workflow and delegation walk) together with the properties the
    specification states about them. *)

From Stdlib Require Import ZArith List Bool Lia String Ascii.
From stdpp Require Import base option list gmap sets strings pretty.

#[local] Set Warnings "-clear-no-such-hyp".

Local Open Scope string_scope.
Local Open Scope list_scope.
Local Open Scope Z_scope.

(** ** JavaScript runtime values shared by all modules *)

(** A [Buffer] is a sequence of bytes. *)
Definition Buffer := list Byte.byte.

(** The error classes that the sources throw or test with [instanceof];
    the payload is the message, with interpolated causes left out. *)
Inductive Error : Type :=
| JsError (msg : string)
| TypeError (msg : string)
| ReferenceError (msg : string)
| ValueError (msg : string)
| RuntimeError (msg : string)
| PersistError (msg : string)
| EqualVersionError
| BadVersionError
| ExpiredMetadataError
| UnsignedMetadataError (msg : string)
| RepositoryError
| LengthOrHashMismatchError
| MalformedMetadataError.

#[global] Instance Error_eq_dec : EqDecision Error.
Proof. solve_decision. Defined.

(** The outcome of an expression that may throw. *)
Inductive Outcome (A : Type) : Type :=
| Ok (a : A)
| Err (e : Error).
Arguments Ok {A} a.
Arguments Err {A} e.

Definition is_Ok {A} (r : Outcome A) : bool :=
  match r with Ok _ => true | Err _ => false end.

(** ** Async functions

    An [async] function runs synchronously up to its first [await]; there
    it hands control back to its caller, and the event loop resumes it
    later in whatever the world has become. A computation is therefore a
    sequence of synchronous segments over the world [W]. *)
Module Async.
Section Defs.
Context {W : Type}.

Inductive Step (A : Type) : Type :=
| Done (w : W) (r : Outcome A)
| Suspended (w : W) (resume : W -> Step A).
Arguments Done {A} w r.
Arguments Suspended {A} w resume.

Definition Async (A : Type) : Type := W -> Step A.

Definition ret {A} (a : A) : Async A := fun w => Done w (Ok a).
Definition throw {A} (e : Error) : Async A := fun w => Done w (Err e).

(** Lift a synchronous statement. *)
Definition sync {A} (f : W -> W * Outcome A) : Async A :=
  fun w => let (w', r) := f w in Done w' r.

Fixpoint bind_step {A B} (s : Step A) (f : A -> Async B) : Step B :=
  match s with
  | Done w (Ok a) => f a w
  | Done w (Err e) => Done w (Err e)
  | Suspended w k => Suspended w (fun w' => bind_step (k w') f)
  end.
Definition bind {A B} (m : Async A) (f : A -> Async B) : Async B :=
  fun w => bind_step (m w) f.

(** [try { m } catch (error) { h error }] *)
Fixpoint catch_step {A} (s : Step A) (h : Error -> Async A) : Step A :=
  match s with
  | Done w (Ok a) => Done w (Ok a)
  | Done w (Err e) => h e w
  | Suspended w k => Suspended w (fun w' => catch_step (k w') h)
  end.
Definition try_catch {A} (m : Async A) (h : Error -> Async A) : Async A :=
  fun w => catch_step (m w) h.

(** The continuation of an [await] never runs in the segment that
    evaluated the awaited promise, not even when that promise is
    already settled: it is resumed in a later tick. *)
Fixpoint settle {A} (s : Step A) : Step A :=
  match s with
  | Done w r => Suspended w (fun w' => Done w' r)
  | Suspended w k => Suspended w (fun w' => settle (k w'))
  end.
Definition await {A} (m : Async A) : Async A := fun w => settle (m w).

(** The world at the end of the first synchronous segment: what a
    caller that does not [await] the call gets to see when the call
    returns its promise. *)
Definition first_segment {A} (s : Step A) : W :=
  match s with Done w _ => w | Suspended w _ => w end.

Definition pending {A} (s : Step A) : bool :=
  match s with Done _ _ => false | Suspended _ _ => true end.

(** Run a task alone to completion (every [await] is eventually
    resumed and nothing else touches the world in between). *)
Fixpoint drive {A} (s : Step A) : W * Outcome A :=
  match s with
  | Done w r => (w, r)
  | Suspended w k => drive (k w)
  end.
Definition run {A} (m : Async A) (w : W) : W * Outcome A := drive (m w).

Lemma drive_bind {A B} (s : Step A) (f : A -> Async B) :
  drive (bind_step s f) =
  match drive s with
  | (w', Ok a) => run (f a) w'
  | (w', Err e) => (w', Err e)
  end.
Proof.
  induction s as [w [a|e]|w k IH]; simpl; auto.
Qed.

Lemma run_bind {A B} (m : Async A) (f : A -> Async B) w :
  run (bind m f) w =
  match run m w with
  | (w', Ok a) => run (f a) w'
  | (w', Err e) => (w', Err e)
  end.
Proof. apply drive_bind. Qed.

Lemma drive_catch {A} (s : Step A) (h : Error -> Async A) :
  drive (catch_step s h) =
  match drive s with
  | (w', Ok a) => (w', Ok a)
  | (w', Err e) => run (h e) w'
  end.
Proof.
  induction s as [w [a|e]|w k IH]; simpl; auto.
Qed.

Lemma run_try_catch {A} (m : Async A) (h : Error -> Async A) w :
  run (try_catch m h) w =
  match run m w with
  | (w', Ok a) => (w', Ok a)
  | (w', Err e) => run (h e) w'
  end.
Proof. apply drive_catch. Qed.

Lemma drive_settle {A} (s : Step A) : drive (settle s) = drive s.
Proof. induction s as [w r|w k IH]; simpl; auto. Qed.

Lemma run_await {A} (m : Async A) w : run (await m) w = run m w.
Proof. apply drive_settle. Qed.

Lemma run_ret {A} (a : A) w : run (ret a) w = (w, Ok a).
Proof. reflexivity. Qed.

Lemma run_throw {A} (e : Error) w : run (throw (A:=A) e) w = (w, Err e).
Proof. reflexivity. Qed.

Lemma run_sync {A} (f : W -> W * Outcome A) w : run (sync f) w = f w.
Proof. unfold run, sync. destruct (f w); reflexivity. Qed.

(** An awaited call always suspends its caller. *)
Lemma settle_pending {A} (s : Step A) : pending (settle s) = true.
Proof. destruct s; reflexivity. Qed.

Lemma first_segment_settle {A} (s : Step A) :
  first_segment (settle s) = first_segment s.
Proof. destruct s; reflexivity. Qed.

Lemma first_segment_bind_pending {A B} (s : Step A) (f : A -> Async B) :
  pending s = true ->
  first_segment (bind_step s f) = first_segment s /\
  pending (bind_step s f) = true.
Proof. destruct s; simpl; [discriminate | auto]. Qed.

Lemma first_segment_catch_pending {A} (s : Step A) h :
  pending s = true ->
  first_segment (catch_step s h) = first_segment s /\
  pending (catch_step s h) = true.
Proof. destruct s; simpl; [discriminate | auto]. Qed.

(** A relation between the world before and after that every run of a
    task stays within. *)
Definition respects {A} (R : W -> W -> Prop) (m : Async A) : Prop :=
  forall w w' r, run m w = (w', r) -> R w w'.

Section Respects.
Variable R : W -> W -> Prop.
Hypothesis R_refl : forall w, R w w.
Hypothesis R_trans : forall w1 w2 w3, R w1 w2 -> R w2 w3 -> R w1 w3.

Lemma respects_ret {A} (a : A) : respects R (ret a).
Proof. intros w w' r [= <- _]. apply R_refl. Qed.

Lemma respects_throw {A} e : respects R (throw (A:=A) e).
Proof. intros w w' r [= <- _]. apply R_refl. Qed.

Lemma respects_sync {A} (f : W -> W * Outcome A) :
  (forall w, R w (f w).1) -> respects R (sync f).
Proof. intros Hf w w' r. rewrite run_sync. intros Heq. specialize (Hf w). by rewrite Heq in Hf. Qed.

Lemma respects_bind {A B} (m : Async A) (f : A -> Async B) :
  respects R m -> (forall a, respects R (f a)) -> respects R (bind m f).
Proof.
  intros Hm Hf w w' r. rewrite run_bind.
  destruct (run m w) as [w1 [a|e]] eqn:Hrun.
  - intros Hk. eapply R_trans; [eapply Hm, Hrun | eapply Hf, Hk].
  - intros [= <- _]. eapply Hm, Hrun.
Qed.

Lemma respects_try_catch {A} (m : Async A) (h : Error -> Async A) :
  respects R m -> (forall e, respects R (h e)) -> respects R (try_catch m h).
Proof.
  intros Hm Hh w w' r. rewrite run_try_catch.
  destruct (run m w) as [w1 [a|e]] eqn:Hrun.
  - intros [= <- _]. eapply Hm, Hrun.
  - intros Hk. eapply R_trans; [eapply Hm, Hrun | eapply Hh, Hk].
Qed.

Lemma respects_await {A} (m : Async A) : respects R m -> respects R (await m).
Proof. intros Hm w w' r. rewrite run_await. apply Hm. Qed.
End Respects.
End Defs.

Arguments Step W A : clear implicits.
Arguments Async W A : clear implicits.
Arguments Done {W A} w r.
Arguments Suspended {W A} w resume.
End Async.
Import Async.

Notation "'let!' x ':=' m 'in' k" := (bind m (fun x => k))
  (at level 10, x name, m at level 100, k at level 200, only parsing).

Ltac run_simpl :=
  repeat first
    [ rewrite run_bind | rewrite run_await | rewrite run_try_catch
    | rewrite run_ret | rewrite run_throw | rewrite run_sync ].

(** ** Bounded fetch ([FetcherInterface], fetcher.ts) *)
Module Fetcher.

(** What async iteration over a [NodeJS.ReadableStream] delivers: the
    chunks in order, then either the end of the stream or an error. *)
Record Stream : Type := {
  chunks : list Buffer;
  failure : option Error;
}.

Definition byteLength (l : list Buffer) : Z :=
  Z.of_nat (length (concat l)).

Section Defs.
Context {W : Type}.
(** [abstract fetch(url)] *)
Variable fetch : string -> Async W Stream.

(** The body of [for await (const chunk of reader)], with the stream
    still to deliver [rest] and the loop variables as arguments. *)
Fixpoint readChunks (rest : list Buffer) (failure : option Error)
    (maxLength numberOfBytesReceived : Z) (chunks : list Buffer)
    : Async W Buffer :=
  match rest with
  | [] =>
      match failure with
      | Some e => await (throw e)
      | None => let! _ := await (ret tt) in ret (concat chunks)
      end
  | chunk :: rest' =>
      let! _ := await (ret tt) in
      let bufferChunk := chunk in
      let numberOfBytesReceived :=
        numberOfBytesReceived + Z.of_nat (length bufferChunk) in
      if numberOfBytesReceived >? maxLength
      then throw (JsError "Max length reached")
      else readChunks rest' failure maxLength numberOfBytesReceived
             (chunks ++ [bufferChunk])
  end.

Definition downloadBytes (url : string) (maxLength : Z) : Async W Buffer :=
  let! reader := await (fetch url) in
  readChunks (chunks reader) (failure reader) maxLength 0 [].

Lemma byteLength_app l1 l2 :
  byteLength (l1 ++ l2) = byteLength l1 + byteLength l2.
Proof.
  unfold byteLength. rewrite concat_app, length_app. lia.
Qed.

Lemma byteLength_cons c l :
  byteLength (c :: l) = Z.of_nat (length c) + byteLength l.
Proof. unfold byteLength. simpl. rewrite length_app. lia. Qed.

Lemma byteLength_nonneg l : 0 <= byteLength l.
Proof. unfold byteLength. lia. Qed.

Lemma readChunks_world rest fl maxLength n acc w :
  (run (readChunks rest fl maxLength n acc) w).1 = w.
Proof.
  revert n acc. induction rest as [|c rest IH]; intros n acc; simpl.
  - destruct fl; by run_simpl.
  - run_simpl. destruct (_ >? _); [by run_simpl | apply IH].
Qed.

(** The loop leaves the world alone, and when it returns it returns
    everything the stream delivered, which then fits the cap. *)
Lemma readChunks_ok rest fl maxLength n acc w w' buf :
  n = byteLength acc -> n <= maxLength ->
  run (readChunks rest fl maxLength n acc) w = (w', Ok buf) ->
  w' = w /\ fl = None /\ buf = concat (acc ++ rest) /\
  byteLength (acc ++ rest) <= maxLength.
Proof.
  revert n acc. induction rest as [|c rest IH]; intros n acc Hn Hle; simpl.
  - destruct fl as [e|]; run_simpl; intros [= <- <-].
    rewrite app_nil_r. subst n. auto.
  - run_simpl. destruct (Z.gtb_spec (n + Z.of_nat (length c)) maxLength) as [Hgt|Hok].
    + run_simpl. discriminate.
    + intros Hrun. apply IH in Hrun; [| subst n; rewrite byteLength_app, byteLength_cons;
        unfold byteLength at 3; simpl; lia | lia].
      rewrite <- app_assoc in Hrun. exact Hrun.
Qed.

(** A stream that ends normally and stays within the cap is returned
    whole. *)
Lemma readChunks_within rest maxLength n acc w :
  n + byteLength rest <= maxLength ->
  run (readChunks rest None maxLength n acc) w = (w, Ok (concat (acc ++ rest))).
Proof.
  revert n acc. induction rest as [|c rest IH]; intros n acc Hle; simpl.
  - run_simpl. by rewrite app_nil_r.
  - run_simpl. rewrite byteLength_cons in Hle. pose proof (byteLength_nonneg rest).
    destruct (Z.gtb_spec (n + Z.of_nat (length c)) maxLength) as [Hgt|Hok]; [lia|].
    rewrite IH by lia. by rewrite <- app_assoc.
Qed.

(** As soon as the bytes received so far exceed the cap the loop
    throws, whatever the stream would have delivered afterwards. *)
Lemma readChunks_exceeds pre post fl maxLength n acc w :
  n <= maxLength ->
  n + byteLength pre > maxLength ->
  run (readChunks (pre ++ post) fl maxLength n acc) w =
    (w, Err (JsError "Max length reached")).
Proof.
  revert n acc. induction pre as [|c pre IH]; intros n acc Hle Hgt.
  - unfold byteLength in Hgt. simpl in Hgt. lia.
  - rewrite byteLength_cons in Hgt. simpl. run_simpl.
    destruct (Z.gtb_spec (n + Z.of_nat (length c)) maxLength) as [Hgt'|Hok].
    + by run_simpl.
    + apply IH; lia.
Qed.

Lemma run_downloadBytes url maxLength w :
  run (downloadBytes url maxLength) w =
  match run (fetch url) w with
  | (w1, Ok reader) =>
      run (readChunks (chunks reader) (failure reader) maxLength 0 []) w1
  | (w1, Err e) => (w1, Err e)
  end.
Proof. unfold downloadBytes. by run_simpl. Qed.

(** C5. [downloadBytes(url, maxLength)] never returns more than
    [maxLength] bytes (a byte cap is not negative): whenever it returns
    a buffer, the buffer is the whole body and is at most [maxLength]
    long; a body of exactly [maxLength] bytes is returned; and once the
    chunks received so far add up to more than [maxLength] the call
    throws instead of returning. *)
Theorem downloadBytes_bounded url maxLength w :
  0 <= maxLength ->
  (forall w' buf,
      run (downloadBytes url maxLength) w = (w', Ok buf) ->
      Z.of_nat (length buf) <= maxLength) /\
  (forall w1 reader,
      run (fetch url) w = (w1, Ok reader) ->
      failure reader = None ->
      byteLength (chunks reader) = maxLength ->
      run (downloadBytes url maxLength) w =
        (w1, Ok (concat (chunks reader)))) /\
  (forall w1 reader pre post,
      run (fetch url) w = (w1, Ok reader) ->
      chunks reader = pre ++ post ->
      byteLength pre > maxLength ->
      run (downloadBytes url maxLength) w =
        (w1, Err (JsError "Max length reached"))).
Proof.
  intros Hmax. rewrite run_downloadBytes. repeat split.
  - intros w' buf. destruct (run (fetch url) w) as [w1 [reader|e]]; [|discriminate].
    intros Hrun. apply readChunks_ok in Hrun; [| reflexivity | exact Hmax].
    destruct Hrun as (_ & _ & -> & Hle). exact Hle.
  - intros w1 reader -> Hfl Hlen. rewrite Hfl.
    rewrite readChunks_within by lia. reflexivity.
  - intros w1 reader pre post -> -> Hgt.
    apply readChunks_exceeds; lia.
Qed.

(** The loop in closed form: the cap is checked chunk by chunk, before
    the end or the failure of the stream is seen. *)
Lemma readChunks_result rest fl maxLength n acc w :
  n <= maxLength ->
  run (readChunks rest fl maxLength n acc) w =
    (w, if n + byteLength rest >? maxLength
        then Err (JsError "Max length reached")
        else match fl with
             | Some e => Err e
             | None => Ok (concat (acc ++ rest))
             end).
Proof.
  revert n acc. induction rest as [|c rest IH]; intros n acc Hle.
  - change (byteLength []) with 0. rewrite Z.add_0_r.
    destruct (Z.gtb_spec n maxLength) as [Hgt|_]; [lia|]. simpl.
    destruct fl; run_simpl; rewrite ?app_nil_r; reflexivity.
  - simpl. run_simpl. rewrite byteLength_cons.
    pose proof (byteLength_nonneg rest).
    destruct (Z.gtb_spec (n + Z.of_nat (length c)) maxLength) as [Hgt|Hok].
    + run_simpl.
      by destruct (Z.gtb_spec (n + (Z.of_nat (length c) + byteLength rest)) maxLength);
        [|lia].
    + rewrite IH by lia. rewrite <- app_assoc, Z.add_assoc. reflexivity.
Qed.

(** X15. For a cap that is not negative, [downloadBytes] makes the one
    call of [fetch] and answers by the whole body: a failure of [fetch]
    is passed on; a body longer than [maxLength] gives the length error,
    even when the stream would have failed later; a shorter body whose
    stream fails gives that failure, and no partial data; otherwise the
    chunks are returned, concatenated in order. *)
Theorem downloadBytes_result url maxLength w :
  0 <= maxLength ->
  run (downloadBytes url maxLength) w =
  match run (fetch url) w with
  | (w1, Ok reader) =>
      (w1, if byteLength (chunks reader) >? maxLength
           then Err (JsError "Max length reached")
           else match failure reader with
                | Some e => Err e
                | None => Ok (concat (chunks reader))
                end)
  | (w1, Err e) => (w1, Err e)
  end.
Proof.
  intros Hmax. rewrite run_downloadBytes.
  destruct (run (fetch url) w) as [w1 [reader|e]]; [|done].
  by rewrite readChunks_result.
Qed.
End Defs.

Lemma downloadBytes_result_witness :
  0 <= 2 /\
  run (downloadBytes
         (fun _ : string =>
            ret {| chunks := [[Byte.x01; Byte.x02]; [Byte.x03]];
                   failure := Some (JsError "reset") |})
         "https://repo/file" 2) tt
  = (tt, Err (JsError "Max length reached")).
Proof.
  split; [lia|].
  exact (eq_trans
           (downloadBytes_result
              (fun _ : string =>
                 ret {| chunks := [[Byte.x01; Byte.x02]; [Byte.x03]];
                        failure := Some (JsError "reset") |})
              "https://repo/file" 2 tt ltac:(lia))
           eq_refl).
Defined.
End Fetcher.

(** ** JavaScript strings and [Number(str)] *)
Module JSString.

(** A JavaScript string is a sequence of UTF-16 code units. *)
Definition ustring := list N.

Definition u (s : string) : ustring :=
  map N_of_ascii (list_ascii_of_string s).

(** [str.split(sep)] for a separator of one code unit. *)
Fixpoint split (sep : N) (s : ustring) : list ustring :=
  match s with
  | [] => [[]]
  | c :: s' =>
      if N.eqb c sep then [] :: split sep s'
      else match split sep s' with
           | x :: xs => (c :: x) :: xs
           | [] => [[c]]
           end
  end.

(** [arr.join(sep)] *)
Fixpoint join (sep : N) (l : list ustring) : ustring :=
  match l with
  | [] => []
  | [x] => x
  | x :: xs => x ++ sep :: join sep xs
  end.

(** StrWhiteSpaceChar of ECMA-262: WhiteSpace and LineTerminator. *)
Definition isStrWhiteSpaceChar (c : N) : bool :=
  existsb (N.eqb c)
    [9; 10; 11; 12; 13; 32; 160; 5760; 8232; 8233; 8239; 8287; 12288; 65279]%N
  || (N.leb 8192 c && N.leb c 8202).

Definition isDigitIn (lo hi : N) (c : N) : bool := N.leb lo c && N.leb c hi.
Definition isDecimalDigit : N -> bool := isDigitIn 48 57.
Definition isHexDigit (c : N) : bool :=
  isDecimalDigit c || isDigitIn 65 70 c || isDigitIn 97 102 c.
Definition isOctalDigit : N -> bool := isDigitIn 48 55.
Definition isBinaryDigit : N -> bool := isDigitIn 48 49.

Fixpoint dropWhile {A} (p : A -> bool) (l : list A) : list A :=
  match l with
  | x :: l' => if p x then dropWhile p l' else l
  | [] => []
  end.

Fixpoint takeWhile {A} (p : A -> bool) (l : list A) : list A :=
  match l with
  | x :: l' => if p x then x :: takeWhile p l' else []
  | [] => []
  end.

Definition trim (s : ustring) : ustring :=
  rev (dropWhile isStrWhiteSpaceChar (rev (dropWhile isStrWhiteSpaceChar s))).

Definition nonEmptyAll (p : N -> bool) (s : ustring) : bool :=
  match s with [] => false | _ => forallb p s end.

(** NonDecimalIntegerLiteral: [0x], [0o], [0b] and at least one digit. *)
Definition isNonDecimalIntegerLiteral (s : ustring) : bool :=
  match s with
  | 48 :: c :: ds =>
      if N.eqb c 120 || N.eqb c 88 then nonEmptyAll isHexDigit ds
      else if N.eqb c 111 || N.eqb c 79 then nonEmptyAll isOctalDigit ds
      else if N.eqb c 98 || N.eqb c 66 then nonEmptyAll isBinaryDigit ds
      else false
  | _ => false
  end%N.

(** ExponentPart, or nothing. *)
Definition isExponentPartOpt (s : ustring) : bool :=
  match s with
  | [] => true
  | c :: r =>
      (N.eqb c 101 || N.eqb c 69) &&
      match r with
      | d :: r' =>
          if N.eqb d 43 || N.eqb d 45 then nonEmptyAll isDecimalDigit r'
          else nonEmptyAll isDecimalDigit r
      | [] => false
      end
  end%N.

Definition isStrUnsignedDecimalLiteral (s : ustring) : bool :=
  if decide (s = u "Infinity") then true
  else
    let intPart := takeWhile isDecimalDigit s in
    let r1 := dropWhile isDecimalDigit s in
    match r1 with
    | 46 :: r2 =>
        let frac := takeWhile isDecimalDigit r2 in
        let r3 := dropWhile isDecimalDigit r2 in
        negb (bool_decide (intPart = []) && bool_decide (frac = []))
        && isExponentPartOpt r3
    | _ => negb (bool_decide (intPart = [])) && isExponentPartOpt r1
    end%N.

Definition isStrDecimalLiteral (s : ustring) : bool :=
  match s with
  | c :: r =>
      if N.eqb c 43 || N.eqb c 45 then isStrUnsignedDecimalLiteral r
      else isStrUnsignedDecimalLiteral s
  | [] => false
  end%N.

(** [!isNaN(Number(str))]: the string, trimmed, is empty (it converts to
    0) or a StrNumericLiteral. *)
Definition isNumeric (str : ustring) : bool :=
  let t := trim str in
  bool_decide (t = []) || isNonDecimalIntegerLiteral t || isStrDecimalLiteral t.

Example isNumeric_20 : isNumeric (u "20") = true.
Proof. reflexivity. Qed.
Example isNumeric_empty : isNumeric (u "") = true.
Proof. reflexivity. Qed.
Example isNumeric_hex : isNumeric (u " 0x1F ") = true.
Proof. reflexivity. Qed.
Example isNumeric_exp : isNumeric (u "-2e+3") = true.
Proof. reflexivity. Qed.
Example isNumeric_1a : isNumeric (u "1a") = false.
Proof. reflexivity. Qed.
Example isNumeric_sign_hex : isNumeric (u "-0x10") = false.
Proof. reflexivity. Qed.
Example isNumeric_1e : isNumeric (u "1e") = false.
Proof. reflexivity. Qed.
Example split_example :
  split 46 (u "1.20.30") = [u "1"; u "20"; u "30"].
Proof. reflexivity. Qed.
Example split_trailing : split 46 (u "1.") = [u "1"; u ""].
Proof. reflexivity. Qed.
Example split_empty : split 46 (u "") = [u ""].
Proof. reflexivity. Qed.

(** [split] and [join] are inverse to each other on the components
    [split] produces, which are free of the separator. *)
Lemma split_nonempty sep s : split sep s <> [].
Proof.
  destruct s as [|c s]; simpl; [discriminate|].
  destruct (N.eqb c sep); [discriminate|].
  destruct (split sep s); discriminate.
Qed.

Lemma join_split sep s : join sep (split sep s) = s.
Proof.
  induction s as [|c s IH]; simpl; [reflexivity|].
  pose proof (split_nonempty sep s) as Hne.
  destruct (N.eqb_spec c sep) as [->|Hc].
  - simpl. destruct (split sep s) as [|x xs]; [done|]. simpl in *. by rewrite IH.
  - destruct (split sep s) as [|x xs]; [done|].
    destruct xs as [|y ys]; simpl in *; by rewrite <- IH.
Qed.

Lemma split_no_sep sep s : Forall (fun c => sep ∉ c) (split sep s).
Proof.
  induction s as [|c s IH]; simpl.
  - constructor; [apply not_elem_of_nil | constructor].
  - destruct (N.eqb_spec c sep) as [->|Hc].
    + constructor; [apply not_elem_of_nil | exact IH].
    + destruct (split sep s) as [|x xs].
      * constructor; [|constructor]. intros Hin. apply list_elem_of_singleton in Hin. congruence.
      * inversion IH as [|? ? Hx Hxs]; subst. constructor; [|exact Hxs].
        intros Hin. apply elem_of_cons in Hin as [Heq|Hin]; [congruence | by apply Hx].
Qed.

End JSString.
Import JSString.

(** ** The signed envelope's common fields ([Signed], base.ts) *)
Module Base.

#[local] Set Warnings "-register-all".
Inductive JSONValue : Type :=
| JNull
| JBool (b : bool)
| JNumber (n : Z)
| JString (s : ustring)
| JArray (items : list JSONValue)
| JObject (fields : list (string * JSONValue)).

#[local] Set Warnings "register-all".

Abbreviation JSONObject := (gmap string JSONValue).

Definition SPECIFICATION_VERSION : list ustring := [u "1"; u "20"; u "30"].

(** [SignedOptions]: every field is optional. *)
Record SignedOptions : Type := mkSignedOptions {
  o_version : option Z;
  o_specVersion : option ustring;
  o_expires : option ustring;
  o_unrecognizedFields : option JSONObject;
}.

Record Signed : Type := mkSigned {
  specVersion : ustring;
  expires : ustring;
  version : Z;
  unrecognizedFields : JSONObject;
}.

(** [x || d] on an optional string: [undefined] and [''] are falsy. *)
Definition orString (x : option ustring) (d : ustring) : ustring :=
  match x with
  | Some (c :: s) => c :: s
  | Some [] | None => d
  end.

(** [x || d] on an optional number: [undefined] and [0] are falsy. *)
Definition orNumber (x : option Z) (d : Z) : Z :=
  match x with
  | Some 0 | None => d
  | Some n => n
  end.

(** The constructor of [Signed]; [now] is what [new Date().toISOString()]
    evaluates to at construction time. *)
Definition Signed_new (now : ustring) (options : SignedOptions) : Outcome Signed :=
  let specVersion := orString (o_specVersion options) (join 46 SPECIFICATION_VERSION) in
  let specList := split 46 specVersion in
  if negb (Nat.eqb (length specList) 2 || Nat.eqb (length specList) 3)
     || negb (forallb (fun item => isNumeric item) specList)
  then Err (ValueError "Failed to parse specVersion")
  else
    (* major version must match *)
    if negb (bool_decide (head specList = head SPECIFICATION_VERSION))
    then Err (ValueError "Unsupported specVersion")
    else
      Ok {| specVersion := specVersion;
            expires := orString (o_expires options) now;
            version := orNumber (o_version options) 1;
            unrecognizedFields := default ∅ (o_unrecognizedFields options) |}.

(** [isExpired(referenceTime?)]; [parseDate] is [new Date(str).getTime()],
    with [None] for an invalid date, and [clock] is the current time. *)
Definition isExpired (parseDate : ustring -> option Z) (clock : Z)
    (this : Signed) (referenceTime : option Z) : bool :=
  let referenceTime := default clock referenceTime in
  match parseDate (expires this) with
  | Some t => t <=? referenceTime
  | None => false
  end.


(** What the specification asks of a [spec_version]: two or three
    dot-separated components, all numeric, the first one ["1"]. *)
Definition specVersion_ok (s : ustring) : Prop :=
  let comps := split 46 s in
  (length comps = 2%nat \/ length comps = 3%nat) /\
  Forall (fun c => isNumeric c = true) comps /\
  head comps = Some (u "1").

(** A construction time for concrete runs. *)
Definition epoch : ustring := u "1970-01-01T00:00:00.000Z".

Lemma forallb_Forall {A} (f : A -> bool) (l : list A) :
  forallb f l = true <-> Forall (fun x => f x = true) l.
Proof.
  induction l as [|x l IH]; simpl.
  - split; [constructor | reflexivity].
  - rewrite andb_true_iff, IH. split.
    + intros [? ?]. by constructor.
    + by inversion 1.
Qed.

Lemma Signed_new_nonempty now v s e uf :
  s <> [] ->
  (specVersion_ok s ->
     Signed_new now (mkSignedOptions v (Some s) e uf) =
       Ok (mkSigned s (orString e now) (orNumber v 1) (default ∅ uf))) /\
  (~ specVersion_ok s ->
     exists msg, Signed_new now (mkSignedOptions v (Some s) e uf) = Err (ValueError msg)).
Proof.
  intros Hs. unfold Signed_new, specVersion_ok. simpl o_specVersion.
  assert (orString (Some s) (join 46 SPECIFICATION_VERSION) = s) as ->
    by (destruct s; [done | reflexivity]).
  simpl o_expires. simpl o_version. simpl o_unrecognizedFields.
  destruct (negb _ || negb _) eqn:E1.
  - split; [intros (Hlen & Hall & Hhd); exfalso | eauto].
    apply orb_true_iff in E1 as [E|E]; apply negb_true_iff in E.
    + apply orb_false_iff in E as [E2 E3].
      apply Nat.eqb_neq in E2, E3. lia.
    + apply forallb_Forall in Hall. exact (eq_true_false_abs _ Hall E).
  - apply orb_false_iff in E1 as [E E']. apply negb_false_iff in E, E'.
    apply orb_true_iff in E. rewrite !Nat.eqb_eq in E.
    apply forallb_Forall in E'.
    case_bool_decide as Hhd; simpl.
    + split; [reflexivity | intros Hno; exfalso; apply Hno; auto].
    + split; [intros (_ & _ & Hhd'); contradiction | eauto].
Qed.

(** The empty string is falsy, so it reads as a missing [specVersion]. *)
Lemma Signed_new_empty now v e uf :
  Signed_new now (mkSignedOptions v (Some []) e uf) =
    Ok (mkSigned (u "1.20.30") (orString e now) (orNumber v 1) (default ∅ uf)).
Proof. reflexivity. Qed.

(** C8, as the code has it. A non-empty [spec_version] is accepted when
    splitting it on ['.'] gives two or three components, all numeric, the
    first one ["1"], and is refused with a [ValueError] otherwise; the
    empty string is taken for a missing field and replaced by the default
    ["1.20.30"], which is accepted. *)
Theorem specVersion_check now v s e uf :
  s <> [] ->
  (specVersion_ok s ->
     Signed_new now (mkSignedOptions v (Some s) e uf) =
       Ok (mkSigned s (orString e now) (orNumber v 1) (default ∅ uf))) /\
  (~ specVersion_ok s ->
     exists msg, Signed_new now (mkSignedOptions v (Some s) e uf) = Err (ValueError msg)) /\
  Signed_new now (mkSignedOptions v (Some []) e uf) =
    Ok (mkSigned (u "1.20.30") (orString e now) (orNumber v 1) (default ∅ uf)).
Proof.
  intros Hs. destruct (Signed_new_nonempty now v s e uf Hs) as [Hok Herr].
  split_and!; auto.
Qed.

Lemma specVersion_check_witness :
  Signed_new epoch (mkSignedOptions None (Some (u "1.0")) None None) =
    Ok (mkSigned (u "1.0") epoch 1 ∅).
Proof.
  refine (proj1 (specVersion_check epoch None (u "1.0") None None _) _).
  - discriminate.
  - repeat split; [left; reflexivity | repeat constructor].
Defined.

(** The claim as stated fails at the empty string: it does not split
    into two or three components, yet construction succeeds. *)
Lemma specVersion_empty_counterexample :
  ~ specVersion_ok (u "") /\
  is_Ok (Signed_new epoch (mkSignedOptions None (Some (u "")) None None)) = true.
Proof.
  split; [|reflexivity].
  intros ([H|H] & _); vm_compute in H; discriminate.
Qed.


(** X17. An object constructed without [expires] is expired from the
    moment it exists, at any reference time from the construction time
    on: its expiry date is the construction time, and the comparison
    includes equality. *)
Lemma isExpired_default parseDate clock t now sv v uf this ref :
  parseDate now = Some t ->
  Signed_new now (mkSignedOptions v sv None uf) = Ok this ->
  t <= default clock ref ->
  isExpired parseDate clock this ref = true.
Proof.
  intros Hp Hnew Hle. unfold Signed_new in Hnew. simpl in Hnew.
  destruct (negb _ || negb _); [discriminate|].
  destruct (negb _); [discriminate|].
  injection Hnew as <-. unfold isExpired. simpl.
  rewrite Hp. by apply Z.leb_le.
Qed.


(** X16. Every object the constructor of [Signed] returns carries a spec
    version that passes the check, whether it was given or defaulted,
    and a version other than 0; its expiry date is not empty (the
    construction time is not), and a non-empty spec version that was
    given is kept as it is. *)
Theorem Signed_new_invariant now options this :
  Signed_new now options = Ok this ->
  specVersion_ok (specVersion this) /\
  version this <> 0 /\
  (now <> [] -> expires this <> []) /\
  (forall s, o_specVersion options = Some s -> s <> [] -> specVersion this = s).
Proof.
  unfold Signed_new.
  set (sv := orString (o_specVersion options) (join 46 SPECIFICATION_VERSION)).
  destruct (negb _ || negb _) eqn:E1; [discriminate|].
  case_bool_decide as Hhd; simpl; [|discriminate].
  intros [= <-]. simpl.
  apply orb_false_iff in E1 as [E E']. apply negb_false_iff in E, E'.
  apply orb_true_iff in E. rewrite !Nat.eqb_eq in E.
  apply forallb_Forall in E'.
  split_and!.
  - by split_and!.
  - by destruct (o_version options) as [[]|].
  - intros Hnow. by destruct (o_expires options) as [[]|].
  - intros s Hs Hne. subst sv. rewrite Hs. by destruct s.
Qed.

Lemma Signed_new_invariant_witness :
  specVersion_ok (u "1.20.30") /\ (1 : Z) <> 0.
Proof.
  destruct (Signed_new_invariant epoch (mkSignedOptions (Some 0) None None None)
              (mkSigned (u "1.20.30") epoch 1 ∅) eq_refl) as (Hok & Hv & _).
  exact (conj Hok Hv).
Defined.

Lemma isExpired_default_witness :
  isExpired (fun _ => Some 0) 5 (mkSigned (u "1.20.30") epoch 1 ∅) None = true.
Proof.
  apply (isExpired_default (fun _ => Some 0) 5 0 epoch None None None
           (mkSigned (u "1.20.30") epoch 1 ∅) None);
    [reflexivity | reflexivity | simpl; lia].
Defined.
End Base.

(** ** Keys, roles and the signed envelope ([Metadata], [Key], [Role],
    [Root]) *)
Module Models.
Import Base.

Inductive MetadataKind : Type := KRoot | KTimestamp | KSnapshot | KTargets.

#[global] Instance MetadataKind_eq_dec : EqDecision MetadataKind.
Proof. solve_decision. Defined.

Definition kindName (k : MetadataKind) : string :=
  match k with
  | KRoot => "root"
  | KTimestamp => "timestamp"
  | KSnapshot => "snapshot"
  | KTargets => "targets"
  end.

Record Signature : Type := mkSignature {
  sig_keyID : string;
  sig : string;
}.

Record Key : Type := mkKey {
  keyID : string;
  keyType : string;
  scheme : string;
  keyVal : gmap string string;
}.

Record Role : Type := mkRole {
  keyIDs : list string;
  threshold : Z;
}.

(** [new Set(array).size !== array.length] *)
Definition hasDuplicates (array : list string) : bool :=
  negb (Nat.eqb (size (list_to_set array : gset string)) (length array)).

(** The constructor of [Role]. *)
Definition Role_new (keyIDs : list string) (threshold : Z) : Outcome Role :=
  if hasDuplicates keyIDs then Err (JsError "None unqiue keyids")
  else if threshold <? 1 then Err (JsError "Threshold should be at least 1")
  else Ok (mkRole keyIDs threshold).

Record Root : Type := mkRoot {
  root_signed : Signed;
  keys : gmap string Key;
  roles : gmap string Role;
  consistentSnapshot : bool;
}.

(** The signed part of a document; [type] is the class's [type] field. *)
Inductive MetadataType : Type :=
| RootMd (root : Root)
| TimestampMd (s : Signed)
| SnapshotMd (s : Signed)
| TargetsMd (s : Signed).

Definition type (signed : MetadataType) : MetadataKind :=
  match signed with
  | RootMd _ => KRoot
  | TimestampMd _ => KTimestamp
  | SnapshotMd _ => KSnapshot
  | TargetsMd _ => KTargets
  end.

Record Metadata : Type := mkMetadata {
  signed : MetadataType;
  signatures : gmap string Signature;
  md_unrecognizedFields : JSONObject;
}.

(** *** [Metadata.fromJSON] *)

(** One entry of the wire document's [signatures] array. *)
Record WireSignature : Type := mkWireSignature {
  keyid : string;
  w_sig : string;
}.

(** The wire document, destructured as [{ signed, signatures, ...rest }]. *)
Record WireMetadata : Type := mkWireMetadata {
  w_signed : JSONObject;
  w_signatures : list WireSignature;
  w_rest : JSONObject;
}.

(** [signatures.forEach((sig) => { sigs[sig.keyid] = {...} })] *)
Definition collectSignatures (signatures : list WireSignature)
    : gmap string Signature :=
  fold_left
    (fun sigs s => <[keyid s := mkSignature (keyid s) (w_sig s)]> sigs)
    signatures ∅.

(** [type !== signed._type] *)
Definition typeDiffers (type : MetadataKind) (signed : JSONObject) : bool :=
  match signed !! "_type" with
  | Some (JString s) => negb (bool_decide (s = u (kindName type)))
  | _ => true
  end.

Section FromJSON.
(** [Root.fromJSON], [Timestamp.fromJSON], [Snapshot.fromJSON] and
    [Targets.fromJSON], selected by the [switch]. *)
Variable signedFromJSON : MetadataKind -> JSONObject -> Outcome MetadataType.

Definition fromJSON (type : MetadataKind) (data : WireMetadata)
    : Outcome Metadata :=
  if typeDiffers type (w_signed data)
  then Err (JsError "Expected a different type")
  else
    match signedFromJSON type (w_signed data) with
    | Err e => Err e
    | Ok signedObj =>
        (* Collect unique signatures *)
        let sigs := collectSignatures (w_signatures data) in
        Ok (mkMetadata signedObj sigs (w_rest data))
    end.
End FromJSON.

(** The entry of the array that a keyid ends up with: the last one. *)
Definition lastSignature (k : string) (signatures : list WireSignature)
    : option Signature :=
  (fun s => mkSignature (keyid s) (w_sig s))
    <$> last (filter (fun s => keyid s = k) signatures).

(** [Key.fromJSON] and the key map that [Root.fromJSON] builds from the
    entries of the wire object. *)
Record KeyData : Type := mkKeyData {
  keytype : string;
  kd_scheme : string;
  keyval : gmap string string;
}.

Definition Key_fromJSON (keyID : string) (keyData : KeyData) : Key :=
  mkKey keyID (keytype keyData) (kd_scheme keyData) (keyval keyData).

Definition Root_keyMap (entries : list (string * KeyData)) : gmap string Key :=
  fold_left
    (fun keyMap e => <[e.1 := Key_fromJSON e.1 e.2]> keyMap) entries ∅.

(** *** A two-key root, for concrete runs *)
Module Demo.
(** A verifier that accepts a signature equal to the public key. *)
Definition signer (keyType : string) (signedData : MetadataType)
    (signature publicKey : string) : Outcome bool :=
  Ok (bool_decide (signature = publicKey)).

Definition key (name : string) : KeyData :=
  mkKeyData "ed25519" "ed25519" {[ "public" := name ]}.

Definition header : Signed := mkSigned (u "1.0") Base.epoch 1 ∅.

Definition root (keyEntries : list (string * KeyData)) (role : Role) : Root :=
  mkRoot header (Root_keyMap keyEntries) {[ "timestamp" := role ]} false.

Definition rootMetadata keyEntries role : Metadata :=
  mkMetadata (RootMd (root keyEntries role)) ∅ ∅.

(** A timestamp document signed by the keys named in [signers]. *)
Definition timestamp (signers : list string) : Metadata :=
  mkMetadata (TimestampMd header)
    (collectSignatures (map (fun k => mkWireSignature k k) signers)) ∅.
End Demo.

(** *** Signature verification *)

Section Verify.
(** [signer.verifySignature(keyType, signedData, signature, publicKey)],
    the external primitive, applied to what [signed.toJSON()] encodes;
    it answers [true] or [false], or throws. *)
Variable signer_verifySignature :
  string -> MetadataType -> string -> string -> Outcome bool.

(** [Key.verifySignature] as models.ts has it, next to
    [verifyDelegate]. *)
Definition verifySignature (this : Key) (metadata : Metadata) : Outcome unit :=
  match sig <$> signatures metadata !! keyID this with
  | None | Some "" => Err (JsError "No signature for key found in metadata")
  | Some signature =>
      match keyVal this !! "public" with
      | None | Some "" => Err (JsError "No spublic key found")
      | Some publicKey =>
          match signer_verifySignature (keyType this) (signed metadata)
                  signature publicKey with
          | Ok true => Ok tt
          | Ok false | Err _ => Err (JsError "Failed to verify signature")
          end
      end
  end.

(** [Key.verifySignature] as key.ts has it. *)
Definition Key_verifySignature (this : Key) (metadata : Metadata)
    : Outcome unit :=
  match signatures metadata !! keyID this with
  | None => Err (UnsignedMetadataError "No signature for key found in metadata")
  | Some signature =>
      match keyVal this !! "public" with
      | None | Some "" => Err (UnsignedMetadataError "No public key found")
      | Some publicKey =>
          match signer_verifySignature (keyType this) (signed metadata)
                  (sig signature) publicKey with
          | Ok true => Ok tt
          | Ok false | Err _ =>
              Err (UnsignedMetadataError "Failed to verify signature")
          end
      end
  end.

(** The body of [role.keyIDs.forEach], over the keyids still to do. *)
Fixpoint forEachKeyID (keys : gmap string Key) (delegatedRole : string)
    (delegatedMetadata : Metadata) (keyIDs : list string)
    (signingKeys : gset string) : Outcome (gset string) :=
  match keyIDs with
  | [] => Ok signingKeys
  | keyID :: rest =>
      match keys !! keyID with
      | None => Err (JsError ("No key found for " +:+ keyID))
      | Some key =>
          match verifySignature key delegatedMetadata with
          | Ok _ =>
              forEachKeyID keys delegatedRole delegatedMetadata rest
                ({[Models.keyID key]} ∪ signingKeys)
          | Err _ =>
              Err (JsError ("Key " +:+ Models.keyID key
                            +:+ " failed to verify " +:+ delegatedRole))
          end
      end
  end.

Definition verifyDelegate (this : Metadata) (delegatedRole : string)
    (delegatedMetadata : Metadata) : Outcome unit :=
  let role :=
    match signed this with
    | RootMd root => roles root !! delegatedRole
    | _ => None
    end in
  let keys :=
    match signed this with
    | RootMd root => Some (Models.keys root)
    | _ => None
    end in
  match role with
  | None => Err (JsError ("No delegation fround for " +:+ delegatedRole))
  | Some role =>
      match keys with
      | None => Err (JsError "No keys found")
      | Some keys =>
          match forEachKeyID keys delegatedRole delegatedMetadata
                  (keyIDs role) ∅ with
          | Err e => Err e
          | Ok signingKeys =>
              if Z.of_nat (size signingKeys) <? threshold role
              then Err (JsError (delegatedRole +:+ " was signed by too few keys"))
              else Ok tt
          end
      end
  end.

(** A keyid of the role contributes when the key map has a key for it
    and that key's signature over the document verifies. *)
Definition contributes (keys : gmap string Key) (md : Metadata)
    (k : string) : bool :=
  match keys !! k with
  | Some key => is_Ok (verifySignature key md)
  | None => false
  end.

(** The distinct contributing keyids of a role. *)
Definition contributing (keys : gmap string Key) (md : Metadata)
    (role : Role) : gset string :=
  list_to_set (filter (fun k => contributes keys md k = true) (keyIDs role)).

(** Every key sits in the map under its own keyid, as [Root.fromJSON]
    builds the map. *)
Definition keys_wf (keys : gmap string Key) : Prop :=
  forall k key, keys !! k = Some key -> keyID key = k.

Lemma forEachKeyID_Ok keys r md l acc res :
  forEachKeyID keys r md l acc = Ok res ->
  Forall (fun k => contributes keys md k = true) l /\
  res = list_to_set (omap (fun k => keyID <$> keys !! k) l) ∪ acc.
Proof.
  revert acc. induction l as [|k l IH]; intros acc; simpl.
  - intros [= <-]. split; [constructor | set_solver].
  - destruct (keys !! k) as [key|] eqn:Hk; [|discriminate].
    destruct (verifySignature key md) as [[]|e] eqn:Hv; [|discriminate].
    intros Hres. apply IH in Hres as [Hall ->]. split.
    + constructor; [|exact Hall]. unfold contributes. by rewrite Hk, Hv.
    + simpl. set_solver.
Qed.

Lemma forEachKeyID_all keys r md l acc :
  Forall (fun k => contributes keys md k = true) l ->
  forEachKeyID keys r md l acc =
    Ok (list_to_set (omap (fun k => keyID <$> keys !! k) l) ∪ acc).
Proof.
  revert acc. induction l as [|k l IH]; intros acc Hall; simpl.
  - f_equal. set_solver.
  - inversion Hall as [|? ? Hk Hl]; subst. unfold contributes in Hk.
    destruct (keys !! k) as [key|] eqn:Hkey; [|discriminate].
    destruct (verifySignature key md) as [[]|e]; [|discriminate].
    rewrite IH by exact Hl. f_equal. simpl. set_solver.
Qed.

Lemma forEachKeyID_missing keys r md l acc k :
  k ∈ l -> keys !! k = None -> is_Ok (forEachKeyID keys r md l acc) = false.
Proof.
  intros Hin Hk. destruct (forEachKeyID keys r md l acc) as [res|e] eqn:Hres;
    [|reflexivity].
  apply forEachKeyID_Ok in Hres as [Hall _].
  rewrite Forall_forall in Hall. specialize (Hall k Hin).
  unfold contributes in Hall. by rewrite Hk in Hall.
Qed.

(** The set the loop builds is no larger than the set of distinct
    keyids it went through. *)
Lemma size_signingKeys_le (keys : gmap string Key) (l : list string) :
  (size (list_to_set (omap (fun k => keyID <$> keys !! k) l) : gset string)
   <= size (list_to_set l : gset string))%nat.
Proof.
  induction l as [|k l IH]; [done|]. csimpl.
  assert (Hsub : forall x (X : gset string),
             (size ({[x]} ∪ X) <= S (size X))%nat).
  { intros x X. rewrite size_union_alt, size_singleton.
    assert (size (X ∖ {[x]}) <= size X)%nat by (apply subseteq_size; set_solver).
    lia. }
  destruct (keys !! k) as [key|] eqn:Hk; csimpl.
  2:{ etrans; [exact IH|]. apply subseteq_size. set_solver. }
  destruct (decide (k ∈ l)) as [Hin|Hnin].
  - assert (Heq : ({[k]} ∪ list_to_set l : gset string) = list_to_set l)
      by set_solver.
    rewrite Heq.
    assert (Hin' : keyID key ∈
              (list_to_set (omap (fun k => keyID <$> keys !! k) l) : gset string)).
    { apply elem_of_list_to_set, list_elem_of_omap. exists k.
      split; [exact Hin | by rewrite Hk]. }
    assert (Heq' : ({[keyID key]} ∪
              (list_to_set (omap (fun k => keyID <$> keys !! k) l)) : gset string)
              = list_to_set (omap (fun k => keyID <$> keys !! k) l))
      by set_solver.
    rewrite Heq'. exact IH.
  - rewrite (size_union {[k]}) by set_solver.
    rewrite size_singleton. etrans; [apply Hsub|]. lia.
Qed.

Lemma signingKeys_wf (keys : gmap string Key) (l : list string) :
  keys_wf keys ->
  Forall (fun k => is_Some (keys !! k)) l ->
  (list_to_set (omap (fun k => keyID <$> keys !! k) l) : gset string)
  = list_to_set l.
Proof.
  intros Hwf. induction 1 as [|k l [key Hk] Hl IH]; [done|].
  csimpl. rewrite Hk. csimpl. rewrite IH. by rewrite (Hwf _ _ Hk).
Qed.

Lemma contributing_all keys md role :
  Forall (fun k => contributes keys md k = true) (keyIDs role) ->
  contributing keys md role = list_to_set (keyIDs role).
Proof.
  intros Hall. unfold contributing. f_equal.
  induction Hall as [|k l Hk Hl IH]; [done|].
  rewrite filter_cons. destruct (decide _); [by rewrite IH | done].
Qed.

(** X20. The two versions of [Key.verifySignature] accept the same
    documents, but for a signature entry whose [sig] is the empty string,
    which key.ts hands to the verifier and models.ts refuses. *)
Lemma Key_verifySignature_agrees this metadata :
  (forall s, signatures metadata !! keyID this = Some s -> sig s <> "") ->
  is_Ok (Key_verifySignature this metadata) = is_Ok (verifySignature this metadata).
Proof.
  intros Hsig. unfold Key_verifySignature, verifySignature.
  destruct (signatures metadata !! keyID this) as [s|] eqn:Hs; simpl; [|done].
  specialize (Hsig s eq_refl).
  destruct (sig s) as [|c rest] eqn:Hc; [done|].
  destruct (keyVal this !! "public") as [[|c' pk]|]; try done.
  by destruct (signer_verifySignature _ _ _ _) as [[]|].
Qed.

Lemma verifyDelegate_root this delegatedRole md root role :
  signed this = RootMd root ->
  roles root !! delegatedRole = Some role ->
  verifyDelegate this delegatedRole md =
  match forEachKeyID (keys root) delegatedRole md (keyIDs role) ∅ with
  | Err e => Err e
  | Ok signingKeys =>
      if Z.of_nat (size signingKeys) <? threshold role
      then Err (JsError (delegatedRole +:+ " was signed by too few keys"))
      else Ok tt
  end.
Proof. intros Hroot Hrole. unfold verifyDelegate. by rewrite Hroot, Hrole. Qed.

(** Only a Root delegates here: any other delegator is refused. *)
Lemma verifyDelegate_not_root this delegatedRole md :
  type (signed this) <> KRoot ->
  is_Ok (verifyDelegate this delegatedRole md) = false.
Proof. unfold verifyDelegate. by destruct (signed this). Qed.

(** For a Root delegator and a role it declares: acceptance implies
    that at least [threshold] distinct keyids of the role contribute; a
    keyid of the role that has no key in the key map makes verification
    fail, however many others contribute; and when every keyid of the
    role contributes, the document is accepted exactly when the number of
    distinct contributing keyids reaches the threshold. *)
Lemma verifyDelegate_threshold this delegatedRole md root role :
  signed this = RootMd root ->
  roles root !! delegatedRole = Some role ->
  (verifyDelegate this delegatedRole md = Ok tt ->
     threshold role <= Z.of_nat (size (contributing (keys root) md role))) /\
  (forall k, k ∈ keyIDs role -> keys root !! k = None ->
     is_Ok (verifyDelegate this delegatedRole md) = false) /\
  (keys_wf (keys root) ->
   Forall (fun k => contributes (keys root) md k = true) (keyIDs role) ->
   (verifyDelegate this delegatedRole md = Ok tt <->
    threshold role <= Z.of_nat (size (contributing (keys root) md role)))).
Proof.
  intros Hroot Hrole. rewrite (verifyDelegate_root _ _ _ _ _ Hroot Hrole).
  split_and!.
  - destruct (forEachKeyID _ _ _ _ _) as [res|e] eqn:Hres; [|discriminate].
    apply forEachKeyID_Ok in Hres as [Hall ->].
    destruct (Z.ltb_spec (Z.of_nat (size (list_to_set
                (omap (fun k => keyID <$> keys root !! k) (keyIDs role)) ∪ ∅
                : gset string))) (threshold role)) as [Hlt|Hge]; [discriminate|].
    intros _. rewrite contributing_all by exact Hall.
    rewrite (right_id_L ∅ (∪)) in Hge.
    pose proof (size_signingKeys_le (keys root) (keyIDs role)). lia.
  - intros k Hin Hk.
    pose proof (forEachKeyID_missing (keys root) delegatedRole md
                  (keyIDs role) ∅ k Hin Hk) as Hm.
    destruct (forEachKeyID _ _ _ _ _); [discriminate | reflexivity].
  - intros Hwf Hall. rewrite contributing_all by exact Hall.
    rewrite forEachKeyID_all by exact Hall.
    rewrite (right_id_L ∅ (∪)).
    rewrite signingKeys_wf; [| exact Hwf |].
    2:{ eapply Forall_impl; [exact Hall|]. intros k Hk. unfold contributes in Hk.
        destruct (keys root !! k); [eauto | discriminate]. }
    destruct (Z.ltb_spec (Z.of_nat (size (list_to_set (keyIDs role) : gset string)))
                (threshold role)) as [Hlt|Hge].
    + split; [discriminate | lia].
    + split; [intros _; exact Hge | reflexivity].
Qed.

(** One declared keyid whose key does not verify the document stops the
    loop, whatever the others do. *)
Lemma forEachKeyID_failing keys r md l acc k key :
  k ∈ l -> keys !! k = Some key ->
  is_Ok (verifySignature key md) = false ->
  is_Ok (forEachKeyID keys r md l acc) = false.
Proof.
  intros Hin Hk Hv.
  destruct (forEachKeyID keys r md l acc) as [res|e] eqn:Hres; [|done].
  apply forEachKeyID_Ok in Hres as [Hall _].
  rewrite Forall_forall in Hall. specialize (Hall k Hin).
  unfold contributes in Hall. rewrite Hk in Hall. congruence.
Qed.

(** X19. As the code has it, a Root delegator accepts a document for a
    role it declares exactly when every declared keyid has a key whose
    signature verifies, and the distinct declared keyids reach the
    threshold: one declared key that is missing, did not sign or signed
    wrongly makes verification fail, however many others signed. *)
Theorem verifyDelegate_accepts_iff this delegatedRole md root role :
  signed this = RootMd root ->
  roles root !! delegatedRole = Some role ->
  keys_wf (keys root) ->
  verifyDelegate this delegatedRole md = Ok tt <->
  Forall (fun k => contributes (keys root) md k = true) (keyIDs role) /\
  threshold role <= Z.of_nat (size (list_to_set (keyIDs role) : gset string)).
Proof.
  intros Hroot Hrole Hwf.
  rewrite (verifyDelegate_root _ _ _ _ _ Hroot Hrole).
  assert (Hsome : Forall (fun k => contributes (keys root) md k = true) (keyIDs role) ->
            Forall (fun k => is_Some (keys root !! k)) (keyIDs role)).
  { intros Hall. eapply Forall_impl; [exact Hall|]. intros k. unfold contributes.
    destruct (keys root !! k); [by eexists | discriminate]. }
  split.
  - destruct (forEachKeyID (keys root) delegatedRole md (keyIDs role) ∅)
      as [signingKeys|e] eqn:Hres; [|discriminate].
    apply forEachKeyID_Ok in Hres as [Hall ->].
    match goal with |- context [?a <? ?b] =>
      destruct (Z.ltb_spec a b) as [Hlt|Hge]; [discriminate|] end.
    intros _. split; [exact Hall|].
    rewrite (right_id_L ∅ (∪)) in Hge.
    by rewrite signingKeys_wf in Hge by auto.
  - intros [Hall Hthr].
    rewrite (forEachKeyID_all _ _ _ _ _ Hall), (right_id_L ∅ (∪)).
    rewrite signingKeys_wf by auto.
    match goal with |- context [?a <? ?b] =>
      by destruct (Z.ltb_spec a b); [lia|] end.
Qed.
End Verify.

(** A role that its constructor accepts has pairwise distinct keyids and
    a threshold of at least 1. *)
Lemma size_list_to_set_NoDup (l : list string) :
  size (list_to_set l : gset string) = length l -> NoDup l.
Proof.
  induction l as [|x l IH]; [constructor|]. simpl. intros Hsize.
  assert (Hle : (size (list_to_set l : gset string) <= length l)%nat).
  { clear. induction l as [|y l IH]; [done|]. simpl.
    rewrite size_union_alt, size_singleton.
    assert (size ((list_to_set l : gset string) ∖ {[y]}) <= size (list_to_set l : gset string))%nat
      by (apply subseteq_size; set_solver).
    lia. }
  destruct (decide (x ∈ l)) as [Hin|Hnin].
  - assert (Heq : ({[x]} ∪ list_to_set l : gset string) = list_to_set l) by set_solver.
    rewrite Heq in Hsize. lia.
  - rewrite size_union, size_singleton in Hsize by set_solver.
    constructor; [done|]. apply IH. lia.
Qed.

Lemma Role_new_Ok keyIDs threshold role :
  Role_new keyIDs threshold = Ok role ->
  role = mkRole keyIDs threshold /\ NoDup keyIDs /\ 1 <= threshold.
Proof.
  unfold Role_new, hasDuplicates.
  destruct (Nat.eqb_spec (size (list_to_set keyIDs : gset string)) (length keyIDs))
    as [Hsize|]; [|discriminate]. simpl.
  destruct (Z.ltb_spec threshold 1); [discriminate|].
  intros [= <-]. split_and!; [done | by apply size_list_to_set_NoDup | done].
Qed.

Lemma Root_keyMap_wf entries : keys_wf (Root_keyMap entries).
Proof.
  unfold Root_keyMap.
  assert (forall acc, keys_wf acc ->
            keys_wf (fold_left
              (fun keyMap e => <[e.1 := Key_fromJSON e.1 e.2]> keyMap) entries acc))
    as Hgen.
  { induction entries as [|[k d] l IH]; intros acc Hacc; simpl; [exact Hacc|].
    apply IH. intros k' key. rewrite lookup_insert.
    case_decide as Hk; [intros [= <-]; by subst | apply Hacc]. }
  apply Hgen. intros k key. by rewrite lookup_empty.
Qed.

(** *** A declared key that did not sign *)

(** A Root with the keys [k1] and [k2], and a role for both with a
    threshold of 1. *)
Definition twoKeys : list (string * KeyData) :=
  [("k1", Demo.key "k1"); ("k2", Demo.key "k2")].

Definition oneOfTwo : Role := mkRole ["k1"; "k2"] 1.

(** A Timestamp whose envelope holds the signature of [k1] only, and one
    that holds a wrong signature for [k2] besides. *)
Definition signedByK1 : Metadata := Demo.timestamp ["k1"].

Definition forgedK2 : Metadata :=
  mkMetadata (TimestampMd Demo.header)
    (collectSignatures
       [mkWireSignature "k1" "k1"; mkWireSignature "k2" "forged"]) ∅.

(** C1. As the code has it, a declared key whose signature is missing
    from the envelope, or fails to verify, is fatal: for every Root,
    every role it declares and every document, one keyid of the role
    whose key does not verify the document makes [verifyDelegate] throw,
    whatever the other keys contribute. So with both keys in the key
    map and a threshold of 1, a Timestamp signed by [k1] alone is
    refused, and so is one with a wrong signature for [k2], although in
    both the one distinct keyid whose signature verifies reaches the
    threshold; signed by both keys it is accepted. *)
Theorem verifyDelegate_failed_key_is_fatal :
  (forall signer this delegatedRole md root role k key,
     signed this = RootMd root ->
     roles root !! delegatedRole = Some role ->
     k ∈ keyIDs role ->
     keys root !! k = Some key ->
     is_Ok (verifySignature signer key md) = false ->
     is_Ok (verifyDelegate signer this delegatedRole md) = false) /\
  is_Some (Root_keyMap twoKeys !! "k1") /\
  is_Some (Root_keyMap twoKeys !! "k2") /\
  (contributes Demo.signer (Root_keyMap twoKeys) signedByK1 "k1" = true /\
   signatures signedByK1 !! "k2" = None /\
   threshold oneOfTwo <=
     Z.of_nat (size (contributing Demo.signer (Root_keyMap twoKeys)
                       signedByK1 oneOfTwo)) /\
   is_Ok (verifyDelegate Demo.signer (Demo.rootMetadata twoKeys oneOfTwo)
            "timestamp" signedByK1) = false) /\
  (contributes Demo.signer (Root_keyMap twoKeys) forgedK2 "k1" = true /\
   signatures forgedK2 !! "k2" = Some (mkSignature "k2" "forged") /\
   threshold oneOfTwo <=
     Z.of_nat (size (contributing Demo.signer (Root_keyMap twoKeys)
                       forgedK2 oneOfTwo)) /\
   is_Ok (verifyDelegate Demo.signer (Demo.rootMetadata twoKeys oneOfTwo)
            "timestamp" forgedK2) = false) /\
  verifyDelegate Demo.signer (Demo.rootMetadata twoKeys oneOfTwo)
    "timestamp" (Demo.timestamp ["k1"; "k2"]) = Ok tt.
Proof.
  split.
  { intros signer this delegatedRole md root role k key Hroot Hrole Hin Hk Hv.
    rewrite (verifyDelegate_root signer _ _ _ _ _ Hroot Hrole).
    pose proof (forEachKeyID_failing signer (keys root) delegatedRole md
                  (keyIDs role) ∅ k key Hin Hk Hv) as Hloop.
    by destruct (forEachKeyID signer (keys root) delegatedRole md (keyIDs role) ∅). }
  split_and!; try (by eexists); try reflexivity; vm_compute; discriminate.
Qed.

(** A keyid of the role that has no key in the key map stops the loop
    too, by the guard at the head of the loop body. *)
Example verifyDelegate_missing_key :
  verifyDelegate Demo.signer
    (Demo.rootMetadata [("k1", Demo.key "k1")] oneOfTwo)
    "timestamp" signedByK1
    = Err (JsError "No key found for k2").
Proof. reflexivity. Qed.

(** *** The signatures of a parsed document *)

Lemma collectSignatures_lookup_acc signatures (acc : gmap string Signature) k :
  fold_left
    (fun sigs s => <[keyid s := mkSignature (keyid s) (w_sig s)]> sigs)
    signatures acc !! k =
  match lastSignature k signatures with
  | Some s => Some s
  | None => acc !! k
  end.
Proof.
  revert acc. induction signatures as [|s l IH]; intros acc; simpl.
  - reflexivity.
  - rewrite IH. unfold lastSignature. rewrite filter_cons.
    destruct (decide (keyid s = k)) as [Heq|Hne].
    + destruct (filter (fun s0 => keyid s0 = k) l) as [|y ys] eqn:Hf; simpl.
      * subst k. by rewrite lookup_insert_eq.
      * change (last (s :: y :: ys)) with (last (y :: ys)).
        destruct (last (y :: ys)) eqn:Hl; simpl; [reflexivity|].
        apply last_None in Hl. discriminate.
    + destruct (last _); simpl; [reflexivity|].
      by rewrite lookup_insert_ne.
Qed.

Lemma collectSignatures_lookup signatures k :
  collectSignatures signatures !! k = lastSignature k signatures.
Proof.
  unfold collectSignatures. rewrite collectSignatures_lookup_acc.
  destruct (lastSignature k signatures); [reflexivity | apply lookup_empty].
Qed.

(** C10. Whenever [Metadata.fromJSON] returns (which it does exactly
    when the [_type] matches and the signed part parses), the [signatures]
    of the result hold, for every keyid, the last entry of the wire array
    with that keyid and nothing else, and no keyid occurs twice among
    them. *)
Theorem fromJSON_unique_signatures signedFromJSON type data :
  match fromJSON signedFromJSON type data with
  | Ok md =>
      (forall k, signatures md !! k = lastSignature k (w_signatures data)) /\
      (forall k s, signatures md !! k = Some s -> sig_keyID s = k) /\
      NoDup (map_to_list (signatures md)).*1
  | Err _ =>
      typeDiffers type (w_signed data) = true \/
      is_Ok (signedFromJSON type (w_signed data)) = false
  end.
Proof.
  unfold fromJSON. destruct (typeDiffers type (w_signed data)); [by left|].
  destruct (signedFromJSON type (w_signed data)) as [signedObj|e]; [|by right].
  simpl. split_and!.
  - apply collectSignatures_lookup.
  - intros k s. rewrite collectSignatures_lookup. unfold lastSignature.
    destruct (last _) as [ws|] eqn:Hl; simpl; [|discriminate].
    intros [= <-]. simpl.
    apply last_Some_elem_of in Hl.
    by apply list_elem_of_filter in Hl as [? _].
  - apply NoDup_fst_map_to_list.
Qed.

Example fromJSON_duplicate_keyid :
  collectSignatures
    [mkWireSignature "k1" "aa"; mkWireSignature "k2" "bb";
     mkWireSignature "k1" "cc"] !! "k1"
  = Some (mkSignature "k1" "cc").
Proof. by rewrite collectSignatures_lookup. Qed.


Lemma hasDuplicates_NoDup (array : list string) :
  hasDuplicates array = false <-> NoDup array.
Proof.
  unfold hasDuplicates. rewrite negb_false_iff, Nat.eqb_eq. split.
  - apply size_list_to_set_NoDup.
  - intros Hnd. by apply size_list_to_set.
Qed.

(** X18. The constructor of [Role] returns exactly when the keyids are
    pairwise distinct and the threshold is at least 1, and then the role
    holds them unchanged; otherwise it throws. *)
Theorem Role_new_accepts keyIDs threshold :
  (forall role,
     Role_new keyIDs threshold = Ok role <->
     role = mkRole keyIDs threshold /\ NoDup keyIDs /\ 1 <= threshold) /\
  (~ (NoDup keyIDs /\ 1 <= threshold) ->
   exists msg, Role_new keyIDs threshold = Err (JsError msg)).
Proof.
  unfold Role_new.
  destruct (hasDuplicates keyIDs) eqn:Hdup.
  - assert (Hnd : ~ NoDup keyIDs).
    { intros Hnd%hasDuplicates_NoDup. congruence. }
    split; [|eauto]. intros role. split; [discriminate | tauto].
  - apply hasDuplicates_NoDup in Hdup.
    destruct (Z.ltb_spec threshold 1) as [Hlt|Hge].
    + split; [|eauto]. intros role. split; [discriminate | lia].
    + split.
      * intros role. split; [by intros [= <-] | by intros [-> _]].
      * tauto.
Qed.

Lemma verifyDelegate_accepts_iff_witness :
  Forall (fun k => contributes Demo.signer
                     (Root_keyMap [("k1", Demo.key "k1"); ("k2", Demo.key "k2")])
                     (Demo.timestamp ["k1"; "k2"]) k = true) ["k1"; "k2"] /\
  2 <= Z.of_nat (size (list_to_set ["k1"; "k2"] : gset string)).
Proof.
  apply (proj1 (verifyDelegate_accepts_iff Demo.signer
                  (Demo.rootMetadata [("k1", Demo.key "k1"); ("k2", Demo.key "k2")]
                     (mkRole ["k1"; "k2"] 2))
                  "timestamp" (Demo.timestamp ["k1"; "k2"])
                  (Demo.root [("k1", Demo.key "k1"); ("k2", Demo.key "k2")]
                     (mkRole ["k1"; "k2"] 2))
                  (mkRole ["k1"; "k2"] 2)
                  eq_refl eq_refl (Root_keyMap_wf _))).
  reflexivity.
Defined.

Lemma Key_verifySignature_agrees_witness :
  is_Ok (Key_verifySignature Demo.signer (Key_fromJSON "k1" (Demo.key "k1"))
           (Demo.timestamp ["k1"])) =
  is_Ok (verifySignature Demo.signer (Key_fromJSON "k1" (Demo.key "k1"))
           (Demo.timestamp ["k1"])).
Proof.
  apply Key_verifySignature_agrees.
  intros s Hs. vm_compute in Hs. injection Hs as <-. discriminate.
Defined.

(** A signature entry whose [sig] is empty tells the two versions
    apart. *)
Example Key_verifySignature_empty_sig :
  let md := mkMetadata (TimestampMd Demo.header)
              {[ "k1" := mkSignature "k1" "" ]} ∅ in
  let accept := fun (_ : string) (_ : MetadataType) (_ _ : string) =>
                  Ok true : Outcome bool in
  Key_verifySignature accept (Key_fromJSON "k1" (Demo.key "k1")) md = Ok tt /\
  is_Ok (verifySignature accept (Key_fromJSON "k1" (Demo.key "k1")) md) = false.
Proof. by vm_compute. Qed.
End Models.

(** ** Keys on the wire ([Key.fromJSON] and [Key.toJSON], key.ts) *)
Module KeyJSON.
Import Base.

Section KeyJSON.
(** [isStringRecord(value)] of utils/guard, applied to a property that
    may be missing. *)
Variable isStringRecord : option JSONValue -> bool.

(** A [Key] as [fromJSON] builds it; [keyVal] is the value that passed
    the guard. An object is taken as the map from its property names to
    their values, so property order is not told apart, and a property
    whose value is [undefined] counts as missing. *)
Record Key : Type := mkKey {
  keyID : string;
  keyType : ustring;
  scheme : ustring;
  keyVal : option JSONValue;
  unrecognizedFields : JSONObject;
}.

(** One property of an object literal, with a value that may be
    [undefined]. *)
Definition property (name : string) (value : option JSONValue)
    (object : JSONObject) : JSONObject :=
  match value with
  | Some v => <[name := v]> object
  | None => delete name object
  end.

(** The properties of the spread object come last and win. *)
Definition toJSON (this : Key) : JSONObject :=
  unrecognizedFields this ∪
  property "keyval" (keyVal this)
    (<["scheme" := JString (scheme this)]>
       (<["keytype" := JString (keyType this)]> ∅)).

Definition fromJSON (keyID : string) (data : JSONObject) : Outcome Key :=
  let keytype := data !! "keytype" in
  let scheme := data !! "scheme" in
  let keyval := data !! "keyval" in
  let rest := delete "keyval" (delete "scheme" (delete "keytype" data)) in
  match keytype with
  | Some (JString keytype) =>
      match scheme with
      | Some (JString scheme) =>
          if negb (isStringRecord keyval)
          then Err (TypeError "keyval must be a string record")
          else Ok (mkKey keyID keytype scheme keyval rest)
      | _ => Err (TypeError "scheme must be a string")
      end
  | _ => Err (TypeError "keytype must be a string")
  end.

Lemma lookup_toJSON this i :
  toJSON this !! i =
  match unrecognizedFields this !! i with
  | Some v => Some v
  | None =>
      if decide (i = "keyval") then keyVal this
      else if decide (i = "scheme") then Some (JString (scheme this))
      else if decide (i = "keytype") then Some (JString (keyType this))
      else None
  end.
Proof.
  unfold toJSON. rewrite lookup_union.
  destruct (unrecognizedFields this !! i) as [v|] eqn:Hu.
  { apply union_Some_l. }
  rewrite (left_id_L None (∪)).
  unfold property. destruct (decide (i = "keyval")) as [->|Hkv].
  { destruct (keyVal this); [by rewrite lookup_insert_eq | by rewrite lookup_delete_eq]. }
  assert (Hrest : forall m : JSONObject,
            property "keyval" (keyVal this) m !! i = m !! i).
  { intros m. unfold property.
    destruct (keyVal this); [by rewrite lookup_insert_ne | by rewrite lookup_delete_ne]. }
  fold (property "keyval" (keyVal this)
          (<["scheme" := JString (scheme this)]>
             (<["keytype" := JString (keyType this)]> ∅))).
  rewrite Hrest.
  destruct (decide (i = "scheme")) as [->|Hs]; [by rewrite lookup_insert_eq|].
  rewrite lookup_insert_ne by done.
  destruct (decide (i = "keytype")) as [->|Ht]; [by rewrite lookup_insert_eq|].
  by rewrite lookup_insert_ne.
Qed.

Lemma lookup_rest (data : JSONObject) i :
  delete "keyval" (delete "scheme" (delete "keytype" data)) !! i =
  if decide (i = "keyval") then None
  else if decide (i = "scheme") then None
  else if decide (i = "keytype") then None
  else data !! i.
Proof.
  destruct (decide (i = "keyval")) as [->|?]; [by rewrite lookup_delete_eq|].
  rewrite lookup_delete_ne by done.
  destruct (decide (i = "scheme")) as [->|?]; [by rewrite lookup_delete_eq|].
  rewrite lookup_delete_ne by done.
  destruct (decide (i = "keytype")) as [->|?]; [by rewrite lookup_delete_eq|].
  by rewrite lookup_delete_ne.
Qed.

(** X21. [Key.toJSON] undoes [Key.fromJSON]: a wire object that
    [fromJSON] accepts is the object that [toJSON] gives back for the
    key, which carries the keyid it was built for. And [fromJSON]
    undoes [toJSON] for a key whose value passes the guard and whose
    unrecognized fields hold none of [keytype], [scheme] and
    [keyval]. *)
Theorem Key_JSON_roundtrip :
  (forall keyID data key,
     fromJSON keyID data = Ok key ->
     toJSON key = data /\ KeyJSON.keyID key = keyID) /\
  (forall key,
     isStringRecord (keyVal key) = true ->
     unrecognizedFields key !! "keytype" = None ->
     unrecognizedFields key !! "scheme" = None ->
     unrecognizedFields key !! "keyval" = None ->
     fromJSON (KeyJSON.keyID key) (toJSON key) = Ok key).
Proof.
  split.
  - intros id data key. unfold fromJSON.
    destruct (data !! "keytype") as [[| | |kt| |]|] eqn:Hkt; try discriminate.
    destruct (data !! "scheme") as [[| | |sc| |]|] eqn:Hsc; try discriminate.
    destruct (isStringRecord (data !! "keyval")); [|discriminate].
    simpl. intros [= <-]. split; [|done].
    apply map_eq. intros i. rewrite lookup_toJSON. simpl.
    rewrite lookup_rest.
    destruct (decide (i = "keyval")) as [->|?]; [done|].
    destruct (decide (i = "scheme")) as [->|?]; [done|].
    destruct (decide (i = "keytype")) as [->|?]; [done|].
    by destruct (data !! i).
  - intros [id kt sc kv uf]. simpl. intros Hguard Hkt Hsc Hkv.
    unfold fromJSON. rewrite !lookup_toJSON. simpl.
    rewrite Hkt, Hsc, Hkv. simpl. rewrite Hguard. simpl.
    do 2 f_equal. apply map_eq. intros i.
    rewrite lookup_rest, lookup_toJSON. simpl.
    destruct (decide (i = "keyval")) as [->|?]; [done|].
    destruct (decide (i = "scheme")) as [->|?]; [done|].
    destruct (decide (i = "keytype")) as [->|?]; [done|].
    by destruct (uf !! i).
Qed.
End KeyJSON.

(** An unrecognized field named like a common one replaces it in
    [toJSON], and the result need not parse. *)
Example toJSON_shadowed :
  fromJSON (fun _ => true) "k"
    (toJSON (mkKey "k" (u "ed25519") (u "ed25519") None
               {[ "scheme" := JNumber 1 ]}))
  = Err (TypeError "scheme must be a string").
Proof. reflexivity. Qed.
End KeyJSON.

(** ** The update workflow and the delegation walk ([Updater]) *)
Module Updater.
Import Fetcher.

(** *** What the updater sees of the metadata it trusts *)

(** [MetaFile]: the descriptor of a metadata file in Timestamp and
    Snapshot. *)
Record MetaFile : Type := mkMetaFile {
  mf_version : Z;
  mf_length : option Z;
}.

Record TargetFile : Type := mkTargetFile {
  tf_path : string;
  tf_length : Z;
  tf_hashes : list (string * string);
}.

(** The signed part of a Targets document, as the walk reads it. *)
Record Targets (Delegations : Type) : Type := mkTargets {
  targets : option (gmap string TargetFile);
  delegations : option Delegations;
}.
Arguments mkTargets {Delegations} targets delegations.
Arguments targets {Delegations} t.
Arguments delegations {Delegations} t.

(** The interface of [TrustedMetadataStore] (store.ts) and of
    [Delegations.rolesForTarget] that the updater calls. An update that
    throws leaves the store as it was. *)
Class TrustedMetadataStore (Store Delegations : Type) : Type := {
  (* root.signed.version *)
  root_version : Store -> Z;
  (* root.signed.consistentSnapshot *)
  root_consistentSnapshot : Store -> bool;
  (* timestamp?.signed.snapshotMeta *)
  timestamp_snapshotMeta : Store -> option MetaFile;
  (* snapshot?.signed.meta *)
  snapshot_meta : Store -> option (gmap string MetaFile);
  (* getRole(role)?.signed; trustedSet.targets is getRole('targets') *)
  getRole : Store -> string -> option (Targets Delegations);
  updateRoot : Store -> Buffer -> Outcome Store;
  updateTimestamp : Store -> Buffer -> Outcome Store;
  updateSnapshot : Store -> Buffer -> bool -> Outcome Store;
  updateDelegatedTargets : Store -> Buffer -> string -> string -> Outcome Store;
  (* the matching child roles, in declared order, each with its
     terminating flag *)
  rolesForTarget : Delegations -> string -> list (string * bool);
}.

Record Config : Type := mkConfig {
  maxRootRotations : Z;
  maxDelegations : Z;
  rootMaxLength : Z;
  timestampMaxLength : Z;
  snapshotMaxLength : Z;
  targetsMaxLength : Z;
  prefixTargetsWithHash : bool;
}.

(** [interface Delegation] *)
Record Delegation : Type := mkDelegation {
  roleName : string;
  parentRoleName : string;
}.

#[global] Instance Delegation_eq_dec : EqDecision Delegation.
Proof. solve_decision. Defined.

(** What the updater does to the outside, and (marked ghost) which
    delegations the walk loads and which roles it inspects. *)
Inductive Event : Type :=
| EvFetch (url : string)
| EvCommit (role : string)
| EvPersist (metaDataName : string)
| EvLoadTargets (d : Delegation)   (* ghost *)
| EvInspect (role : string).       (* ghost *)

(** [path.join(a, b)], without the normalisation of dots and slashes. *)
Definition path_join (a b : string) : string := a +:+ "/" +:+ b.

(** [array.pop()]: the last element and the rest. *)
Fixpoint array_pop {A} (l : list A) : option (list A * A) :=
  match l with
  | [] => None
  | [x] => Some ([], x)
  | x :: l' =>
      match array_pop l' with
      | Some (r, y) => Some (x :: r, y)
      | None => None
      end
  end.

Section Updater.
Context {Store Delegations : Type} `{!TrustedMetadataStore Store Delegations}.

(** The updater object and the directory it owns; newest event first. *)
Record World : Type := mkWorld {
  trustedSet : Store;
  dir : gmap string Buffer;
  log : list Event;
}.

Variable config : Config.
Variable metadataBaseUrl : string.
(** The mirror: what a request for a URL delivers. *)
Variable remote : string -> Outcome Stream.
(** [Buffer.from(bytesData.toString('utf8'))], what [writeFileSync]
    stores for a buffer. *)
Variable utf8 : Buffer -> Buffer.

Abbreviation Task := (Async World).

Definition emit (e : Event) (w : World) : World :=
  mkWorld (trustedSet w) (dir w) (e :: log w).

Definition get_trustedSet : Task Store :=
  sync (fun w => (w, Ok (trustedSet w))).

(** One method of the store, called on [this.trustedSet]. *)
Definition trustedSet_update (role : string)
    (update : Store -> Outcome Store) : Task unit :=
  sync (fun w =>
    match update (trustedSet w) with
    | Ok st => (mkWorld st (dir w) (EvCommit role :: log w), Ok tt)
    | Err e => (w, Err e)
    end).

(** [this.fetcher.fetch(url)] *)
Definition fetch (url : string) : Task Stream :=
  sync (fun w => (emit (EvFetch url) w, remote url)).

(** [loadLocalMetadata(fileName)]: the file [fileName.json] of the
    metadata directory. *)
Definition loadLocalMetadata (fileName : string) : Task Buffer :=
  sync (fun w =>
    match dir w !! fileName with
    | Some data => (w, Ok data)
    | None => (w, Err (JsError "ENOENT"))
    end).

(** [persistMetadata(metaDataName, bytesData)]. Its callers do not
    await it and its body has no [await]: the write happens during the
    call. The write is taken to succeed: the [PersistError] of a failed
    one would reject a promise that no caller awaits, and leave the file
    as it was. *)
Definition persistMetadata (metaDataName : string) (bytesData : Buffer)
    : Task unit :=
  sync (fun w =>
    (mkWorld (trustedSet w) (<[metaDataName := utf8 bytesData]> (dir w))
             (EvPersist metaDataName :: log w), Ok tt)).

(** [x || d] on an optional number: [undefined] and [0] are falsy. *)
Definition orNumber (x : option Z) (d : Z) : Z :=
  match x with
  | Some 0 | None => d
  | Some n => n
  end.

(** [version ? `${version}.${name}.json` : `${name}.json`] *)
Definition versionedName (version : option Z) (name : string) : string :=
  match version with
  | Some 0 | None => name +:+ ".json"
  | Some v => pretty v +:+ "." +:+ name +:+ ".json"
  end.

(** The [for] loop of [loadRoot], with [n] the number of values of
    [version] left up to [upperBound]. *)
Fixpoint loadRoot_for (n : nat) (version upperBound : Z) : Task unit :=
  match n with
  | O => ret tt
  | S n' =>
      if version <=? upperBound then
        let url := path_join metadataBaseUrl (pretty version +:+ ".root.json") in
        let! again :=
          try_catch
            (let! bytesData :=
               await (downloadBytes fetch url (rootMaxLength config)) in
             let! _ := trustedSet_update "root" (fun st => updateRoot st bytesData) in
             let! _ := persistMetadata "root" bytesData in
             ret true)
            (fun error => ret false (* break *)) in
        if again then loadRoot_for n' (version + 1) upperBound else ret tt
      else ret tt
  end.

Definition loadRoot : Task unit :=
  let! st := get_trustedSet in
  let rootVersion := root_version st in
  let lowerBound := rootVersion + 1 in
  let upperBound := lowerBound + maxRootRotations config in
  loadRoot_for (Z.to_nat (upperBound - lowerBound + 1)) lowerBound upperBound.

(** The first [try] block of [loadTimestamp]. *)
Definition loadTimestamp_local : Task unit :=
  try_catch
    (let! data := loadLocalMetadata "timestamp" in
     trustedSet_update "timestamp" (fun st => updateTimestamp st data))
    (fun error => ret tt (* continue *)).

Definition loadTimestamp : Task unit :=
  (* Load local and remote timestamp metadata *)
  let! _ := loadTimestamp_local in
  let url := path_join metadataBaseUrl "timestamp.json" in
  let! bytesData :=
    await (downloadBytes fetch url (timestampMaxLength config)) in
  let! returned :=
    try_catch
      (let! _ := trustedSet_update "timestamp"
                   (fun st => updateTimestamp st bytesData) in
       ret false)
      (fun error =>
         match error with
         | EqualVersionError => ret true (* return *)
         | _ => throw error
         end) in
  if returned then ret tt
  else persistMetadata "timestamp" bytesData.

Definition loadSnapshot : Task unit :=
  try_catch
    (let! data := loadLocalMetadata "snapshot" in
     trustedSet_update "snapshot" (fun st => updateSnapshot st data true))
    (fun error =>
       let! st := get_trustedSet in
       match timestamp_snapshotMeta st with
       | None => throw (ReferenceError "No timestamp metadata")
       | Some snapshotMeta =>
           let maxLength :=
             orNumber (mf_length snapshotMeta) (snapshotMaxLength config) in
           let version :=
             if root_consistentSnapshot st
             then Some (mf_version snapshotMeta) else None in
           let url := path_join metadataBaseUrl (versionedName version "snapshot") in
           try_catch
             (let! bytesData := await (downloadBytes fetch url maxLength) in
              let! _ := trustedSet_update "snapshot"
                          (fun st => updateSnapshot st bytesData false) in
              persistMetadata "snapshot" bytesData)
             (fun error =>
                throw (RuntimeError "Unable to load snapshot metadata"))
       end).

(** The [catch] block of [loadTargets]: update from remote. *)
Definition loadTargets_remote (role parentRole : string) : Task unit :=
  let! st := get_trustedSet in
  match snapshot_meta st with
  | None => throw (ReferenceError "No snapshot metadata")
  | Some meta =>
      match meta !! (role +:+ ".json") with
      | None => throw (TypeError "metaInfo is undefined")
      | Some metaInfo =>
          let maxLength :=
            orNumber (mf_length metaInfo) (targetsMaxLength config) in
          let version :=
            if root_consistentSnapshot st
            then Some (mf_version metaInfo) else None in
          let url :=
            path_join metadataBaseUrl (versionedName version role) in
          try_catch
            (let! bytesData :=
               await (downloadBytes fetch url maxLength) in
             let! _ := trustedSet_update role
                         (fun st => updateDelegatedTargets st bytesData
                                      role parentRole) in
             persistMetadata role bytesData)
            (fun error => throw (RuntimeError "Unable to load targets"))
      end
  end.

(** The body of [loadTargets]. *)
Definition loadTargets_body (role parentRole : string)
    : Task (option (Targets Delegations)) :=
  let! st := get_trustedSet in
  match getRole st role with
  | Some md => ret (Some md)
  | None =>
      let! _ :=
        try_catch
          (let! buffer := loadLocalMetadata role in
           trustedSet_update role
             (fun st => updateDelegatedTargets st buffer role parentRole))
          (fun error =>
             (* Local 'role' does not exist or is invalid: update from remote *)
             loadTargets_remote role parentRole) in
      let! st := get_trustedSet in
      ret (getRole st role)
  end.

(** [loadTargets(role, parentRole)], with the call noted in the log. *)
Definition loadTargets (role parentRole : string)
    : Task (option (Targets Delegations)) :=
  let! _ := sync (fun w =>
              (emit (EvLoadTargets (mkDelegation role parentRole)) w, Ok tt)) in
  loadTargets_body role parentRole.

Definition refresh : Task unit :=
  let! _ := await loadRoot in
  let! _ := await loadTimestamp in
  let! _ := await loadSnapshot in
  let! _ := await (loadTargets "targets" "root") in
  ret tt.

(** The [for ... of rolesForTarget] loop: the children to visit and
    whether a terminating role emptied [delegationsToVisit]. *)
Fixpoint childRoles (roleName : string) (rolesForTarget : list (string * bool))
    : list Delegation * bool :=
  match rolesForTarget with
  | [] => ([], false)
  | (childName, terminating) :: rest =>
      if terminating then ([mkDelegation childName roleName], true)
      else
        let (children, emptied) := childRoles roleName rest in
        (mkDelegation childName roleName :: children, emptied)
  end.

(** [delegationsToVisit] after a role with delegations was inspected. *)
Definition pushChildren (delegationsToVisit : list Delegation)
    (roleName : string) (rolesForTarget : list (string * bool))
    : list Delegation :=
  let (childRolesToVisit, emptied) := childRoles roleName rolesForTarget in
  (if emptied then [] else delegationsToVisit) ++ rev childRolesToVisit.

(** How one iteration of the [while] loop ends: with a [return], or
    with the loop variables of the next iteration. *)
Inductive Iteration : Type :=
| Return (target : option TargetFile)
| Continue (visitedRoleNames : gset string)
           (delegationsToVisit : list Delegation).

(** The condition and the body of the [while] loop of
    [preorderDepthFirstWalk]; leaving the loop returns [undefined]. *)
Definition walk_body (targetPath : string)
    (visitedRoleNames : gset string) (delegationsToVisit : list Delegation)
    : Task Iteration :=
  if (Z.of_nat (size visitedRoleNames) <=? maxDelegations config)
     && (0 <? Z.of_nat (length delegationsToVisit))
  then
    match array_pop delegationsToVisit with
    | None => ret (Return None)
    | Some (delegationsToVisit, d) =>
        (* Skip any visited current role to prevent cycles. *)
        if decide (roleName d ∈ visitedRoleNames)
        then ret (Continue visitedRoleNames delegationsToVisit)
        else
          let! md := await (loadTargets (roleName d) (parentRoleName d)) in
          match md with
          | None => ret (Continue visitedRoleNames delegationsToVisit)
          | Some targets_ =>
              let! _ := sync (fun w => (emit (EvInspect (roleName d)) w, Ok tt)) in
              match targets targets_ ≫= (fun m => m !! targetPath) with
              | Some target => ret (Return (Some target))
              | None =>
                  (* After preorder check, add current role to set of
                     visited roles. *)
                  let visitedRoleNames := {[roleName d]} ∪ visitedRoleNames in
                  match delegations targets_ with
                  | Some dels =>
                      ret (Continue visitedRoleNames
                             (pushChildren delegationsToVisit (roleName d)
                                (rolesForTarget dels targetPath)))
                  | None => ret (Continue visitedRoleNames delegationsToVisit)
                  end
              end
          end
    end
  else ret (Return None).

(** The [while] loop; the answer is [None] when [fuel] iterations did
    not finish it. *)
Fixpoint walk (fuel : nat) (targetPath : string)
    (visitedRoleNames : gset string) (delegationsToVisit : list Delegation)
    : Task (option (option TargetFile)) :=
  match fuel with
  | O => ret None
  | S fuel' =>
      let! it := walk_body targetPath visitedRoleNames delegationsToVisit in
      match it with
      | Return target => ret (Some target)
      | Continue visitedRoleNames delegationsToVisit =>
          walk fuel' targetPath visitedRoleNames delegationsToVisit
      end
  end.

Definition preorderDepthFirstWalk (fuel : nat) (targetPath : string)
    : Task (option (option TargetFile)) :=
  walk fuel targetPath ∅ [mkDelegation "targets" "root"].

(** [getTargetInfo(targetPath)]. The call [this.refresh()] is not
    awaited: it runs up to its first suspension and leaves a task
    behind, and the walk starts in the world of that moment. The result
    is that task, if any, and the walk. *)
Definition getTargetInfo (fuel : nat) (targetPath : string) (w : World)
    : option (Step World unit) * Step World (option (option TargetFile)) :=
  match getRole (trustedSet w) "targets" with
  | None =>
      let background := refresh w in
      (Some background,
       preorderDepthFirstWalk fuel targetPath (first_segment background))
  | Some _ => (None, preorderDepthFirstWalk fuel targetPath w)
  end.

(** *** The vocabulary of the properties *)

(** Relations between the world before and after. *)
Definition same_dir (w w' : World) : Prop := dir w' = dir w.
Definition same_trustedSet (w w' : World) : Prop := trustedSet w' = trustedSet w.

(** The delegations a stretch of the log saw loaded, and the roles it
    saw inspected. *)
Definition consulted (ev : list Event) : list Delegation :=
  omap (fun e => match e with EvLoadTargets d => Some d | _ => None end) ev.
Definition inspected (ev : list Event) : list string :=
  omap (fun e => match e with EvInspect r => Some r | _ => None end) ev.

Definition is_io (e : Event) : Prop :=
  match e with
  | EvLoadTargets _ | EvInspect _ => False
  | _ => True
  end.

(** The log grew by input and output only. *)
Definition io_only (w w' : World) : Prop :=
  exists ev, log w' = ev ++ log w /\ Forall is_io ev.

(** The URLs a stretch of the log saw requested, and the roles it saw
    committed. *)
Definition fetched (ev : list Event) : list string :=
  omap (fun e => match e with EvFetch url => Some url | _ => None end) ev.
Definition committed (ev : list Event) : list string :=
  omap (fun e => match e with EvCommit role => Some role | _ => None end) ev.

(** The ways an iteration can go, with the world it leaves and its
    outcome. *)
Inductive BodyCase (targetPath : string) (v : gset string)
    (s : list Delegation) (w : World) : World -> Outcome Iteration -> Prop :=
| BC_exit :
    ~ (Z.of_nat (size v) <= maxDelegations config) \/ s = [] ->
    BodyCase targetPath v s w w (Ok (Return None))
| BC_skip rest d :
    Z.of_nat (size v) <= maxDelegations config ->
    s = rest ++ [d] -> roleName d ∈ v ->
    BodyCase targetPath v s w w (Ok (Continue v rest))
| BC_fail rest d w' e :
    Z.of_nat (size v) <= maxDelegations config ->
    s = rest ++ [d] -> roleName d ∉ v ->
    run (loadTargets (roleName d) (parentRoleName d)) w = (w', Err e) ->
    BodyCase targetPath v s w w' (Err e)
| BC_undefined rest d w' :
    Z.of_nat (size v) <= maxDelegations config ->
    s = rest ++ [d] -> roleName d ∉ v ->
    run (loadTargets (roleName d) (parentRoleName d)) w = (w', Ok None) ->
    BodyCase targetPath v s w w' (Ok (Continue v rest))
| BC_found rest d w1 tg target :
    Z.of_nat (size v) <= maxDelegations config ->
    s = rest ++ [d] -> roleName d ∉ v ->
    run (loadTargets (roleName d) (parentRoleName d)) w = (w1, Ok (Some tg)) ->
    targets tg ≫= (fun m => m !! targetPath) = Some target ->
    BodyCase targetPath v s w (emit (EvInspect (roleName d)) w1)
      (Ok (Return (Some target)))
| BC_visit rest d w1 tg :
    Z.of_nat (size v) <= maxDelegations config ->
    s = rest ++ [d] -> roleName d ∉ v ->
    run (loadTargets (roleName d) (parentRoleName d)) w = (w1, Ok (Some tg)) ->
    targets tg ≫= (fun m => m !! targetPath) = None ->
    BodyCase targetPath v s w (emit (EvInspect (roleName d)) w1)
      (Ok (Continue ({[roleName d]} ∪ v)
             match delegations tg with
             | Some dels =>
                 pushChildren rest (roleName d) (rolesForTarget dels targetPath)
             | None => rest
             end)).

(** How many more roles the loop condition lets the walk mark. *)
Definition budget (v : gset string) : nat :=
  Z.to_nat (maxDelegations config + 1 - Z.of_nat (size v)).

(** What the log of a walk from the loop variables [v] and [s] says. *)
Definition WalkLog (v : gset string) (s : list Delegation)
    (ev : list Event) : Prop :=
  (length (inspected ev) <= budget v)%nat /\
  NoDup (inspected ev) /\
  (forall x, x ∈ inspected ev -> x ∉ v) /\
  (forall d, d ∈ consulted ev -> d ∈ s \/ parentRoleName d ∉ v).

(** The invariant of the loop variables: but for the first iteration,
    every pending delegation comes from a role already marked. *)
Definition Inv (v : gset string) (s : list Delegation) : Prop :=
  (v = ∅ /\ s = [mkDelegation "targets" "root"]) \/
  Forall (fun e => parentRoleName e ∈ v) s.

(** A Targets role that was committed can be read back from the store. *)
Definition commits_role : Prop :=
  forall st bytes role parentRole st',
    updateDelegatedTargets st bytes role parentRole = Ok st' ->
    is_Some (getRole st' role).

(** *** What the steps leave alone *)

Lemma same_dir_refl w : same_dir w w.
Proof. reflexivity. Qed.
Lemma same_dir_trans w1 w2 w3 : same_dir w1 w2 -> same_dir w2 w3 -> same_dir w1 w3.
Proof. unfold same_dir. congruence. Qed.
Lemma same_trustedSet_refl w : same_trustedSet w w.
Proof. reflexivity. Qed.
Lemma same_trustedSet_trans w1 w2 w3 :
  same_trustedSet w1 w2 -> same_trustedSet w2 w3 -> same_trustedSet w1 w3.
Proof. unfold same_trustedSet. congruence. Qed.

Lemma respects_downloadBytes R url maxLength :
  (forall w, R w w) -> (forall w1 w2 w3, R w1 w2 -> R w2 w3 -> R w1 w3) ->
  (forall w, R w (emit (EvFetch url) w)) ->
  respects R (downloadBytes fetch url maxLength).
Proof.
  intros Hrefl Htrans Hemit. unfold downloadBytes.
  apply respects_bind; [exact Htrans | |].
  - apply respects_await, respects_sync. intros w. apply Hemit.
  - intros reader w w' r Hrun.
    pose proof (readChunks_world (chunks reader) (failure reader) maxLength 0 [] w) as Hw.
    rewrite Hrun in Hw. simpl in Hw. subst w'. apply Hrefl.
Qed.

Lemma downloadBytes_same_dir url maxLength :
  respects same_dir (downloadBytes fetch url maxLength).
Proof.
  apply respects_downloadBytes;
    [apply same_dir_refl | apply same_dir_trans | reflexivity].
Qed.

Lemma downloadBytes_same_trustedSet url maxLength :
  respects same_trustedSet (downloadBytes fetch url maxLength).
Proof.
  apply respects_downloadBytes;
    [apply same_trustedSet_refl | apply same_trustedSet_trans | reflexivity].
Qed.

Lemma trustedSet_update_same_dir role update :
  respects same_dir (trustedSet_update role update).
Proof.
  apply respects_sync. intros w. unfold same_dir.
  by destruct (update (trustedSet w)).
Qed.

Lemma loadTimestamp_local_same_dir : respects same_dir loadTimestamp_local.
Proof.
  apply respects_try_catch; [apply same_dir_trans | |].
  - apply respects_bind; [apply same_dir_trans | |].
    + apply respects_sync. intros w. by destruct (dir w !! "timestamp").
    + intros data. apply trustedSet_update_same_dir.
  - intros e. apply respects_ret, same_dir_refl.
Qed.

Lemma loadTimestamp_local_ok w : (run loadTimestamp_local w).2 = Ok tt.
Proof.
  unfold loadTimestamp_local. rewrite run_try_catch.
  destruct (run _ w) as [w1 [[]|e]]; reflexivity.
Qed.

(** The counter [n] never ends the loop of [loadRoot]: the comparison
    with [upperBound] does. *)
Lemma loadRoot_for_fuel n : forall version upperBound w,
  upperBound - version + 1 <= Z.of_nat n ->
  run (loadRoot_for (S n) version upperBound) w =
  run (loadRoot_for n version upperBound) w.
Proof.
  induction n as [|n IH]; intros version upperBound w Hn.
  - simpl. destruct (Z.leb_spec version upperBound); [lia | reflexivity].
  - change (loadRoot_for (S (S n)) version upperBound)
      with (if version <=? upperBound then
              let! again :=
                try_catch
                  (let! bytesData :=
                     await (downloadBytes fetch
                              (path_join metadataBaseUrl (pretty version +:+ ".root.json"))
                              (rootMaxLength config)) in
                   let! _ := trustedSet_update "root" (fun st => updateRoot st bytesData) in
                   let! _ := persistMetadata "root" bytesData in
                   ret true)
                  (fun error => ret false) in
              if again then loadRoot_for (S n) (version + 1) upperBound else ret tt
            else ret tt).
    simpl. destruct (version <=? upperBound); [|reflexivity].
    rewrite !run_bind. destruct (run (try_catch _ _) w) as [w1 [[]|e]]; try reflexivity.
    apply IH. lia.
Qed.

(** The loop of [loadRoot] swallows every error. *)
Lemma loadRoot_for_ok n version upperBound w :
  (run (loadRoot_for n version upperBound) w).2 = Ok tt.
Proof.
  revert version w. induction n as [|n IH]; intros version w; simpl; [reflexivity|].
  destruct (version <=? upperBound); [|reflexivity].
  rewrite run_bind, run_try_catch.
  destruct (run _ w) as [w1 [b|e]].
  - destruct b; [apply IH | reflexivity].
  - reflexivity.
Qed.

Lemma loadRoot_ok w : (run loadRoot w).2 = Ok tt.
Proof. unfold loadRoot. rewrite run_bind. unfold get_trustedSet. rewrite run_sync. apply loadRoot_for_ok. Qed.

Lemma run_refresh w :
  run refresh w =
  match run loadTimestamp (run loadRoot w).1 with
  | (wt, Ok _) =>
      run (let! _ := await loadSnapshot in
           let! _ := await (loadTargets "targets" "root") in
           ret tt) wt
  | (wt, Err e) => (wt, Err e)
  end.
Proof.
  unfold refresh. rewrite run_bind, run_await.
  pose proof (loadRoot_ok w) as Hok.
  destruct (run loadRoot w) as [wr r]. simpl in Hok. subst r. simpl.
  by rewrite run_bind, run_await.
Qed.

(** C7. In [refresh], with [wr] the world after [loadRoot], [w1] the
    world after the local attempt and [bytesData] what the download of
    [timestamp.json] returns, leaving the world [w2]: if
    [updateTimestamp] throws [EqualVersionError], [loadTimestamp]
    returns normally, the metadata directory and the trusted set are
    those of before the remote update, and [refresh] goes on with the
    snapshot; any other error of [updateTimestamp] is the outcome of
    [loadTimestamp] and of [refresh]. *)
Theorem loadTimestamp_EqualVersion w wr w1 w2 bytesData :
  (run loadRoot w).1 = wr ->
  (run loadTimestamp_local wr).1 = w1 ->
  run (downloadBytes fetch (path_join metadataBaseUrl "timestamp.json")
         (timestampMaxLength config)) w1 = (w2, Ok bytesData) ->
  (updateTimestamp (trustedSet w2) bytesData = Err EqualVersionError ->
     run loadTimestamp wr = (w2, Ok tt) /\
     dir w2 = dir wr /\ trustedSet w2 = trustedSet w1 /\
     run refresh w =
       run (let! _ := await loadSnapshot in
            let! _ := await (loadTargets "targets" "root") in
            ret tt) w2) /\
  (forall e, e <> EqualVersionError ->
     updateTimestamp (trustedSet w2) bytesData = Err e ->
     run loadTimestamp wr = (w2, Err e) /\ run refresh w = (w2, Err e)).
Proof.
  intros Hroot Hlocal Hdl.
  assert (Hl : run loadTimestamp_local wr = (w1, Ok tt)).
  { pose proof (loadTimestamp_local_ok wr). destruct (run loadTimestamp_local wr).
    simpl in *. congruence. }
  assert (Hts : forall e, updateTimestamp (trustedSet w2) bytesData = Err e ->
            run loadTimestamp wr =
              (w2, if bool_decide (e = EqualVersionError) then Ok tt else Err e)).
  { intros e He. unfold loadTimestamp.
    rewrite run_bind, Hl, run_bind, run_await, Hdl.
    rewrite run_bind, run_try_catch, run_bind.
    unfold trustedSet_update at 1. rewrite run_sync, He.
    destruct e; reflexivity. }
  split.
  - intros He. specialize (Hts _ He). simpl in Hts. split_and!.
    + exact Hts.
    + transitivity (dir w1).
      * eapply downloadBytes_same_dir, Hdl.
      * eapply loadTimestamp_local_same_dir, Hl.
    + eapply downloadBytes_same_trustedSet, Hdl.
    + rewrite run_refresh, Hroot, Hts. reflexivity.
  - intros e Hne He. specialize (Hts _ He).
    rewrite bool_decide_eq_false_2 in Hts by exact Hne. split; [exact Hts|].
    rewrite run_refresh, Hroot, Hts. reflexivity.
Qed.
(** *** The log of a walk *)

Lemma io_only_refl w : io_only w w.
Proof. exists []. by split. Qed.

Lemma io_only_trans w1 w2 w3 : io_only w1 w2 -> io_only w2 w3 -> io_only w1 w3.
Proof.
  intros (ev1 & H1 & F1) (ev2 & H2 & F2). exists (ev2 ++ ev1).
  rewrite H2, H1, app_assoc. split; [done | by apply Forall_app].
Qed.

Lemma io_only_emit e w : is_io e -> io_only w (emit e w).
Proof. intros He. exists [e]. split; [done | by constructor]. Qed.

Lemma consulted_io ev : Forall is_io ev -> consulted ev = [] /\ inspected ev = [].
Proof.
  induction 1 as [|e ev He _ [IH1 IH2]]; [done|].
  unfold consulted, inspected in *. csimpl. rewrite IH1, IH2.
  by destruct e.
Qed.

Lemma consulted_app ev1 ev2 : consulted (ev1 ++ ev2) = consulted ev1 ++ consulted ev2.
Proof. apply omap_app. Qed.
Lemma inspected_app ev1 ev2 : inspected (ev1 ++ ev2) = inspected ev1 ++ inspected ev2.
Proof. apply omap_app. Qed.

Local Ltac io_step :=
  first
    [ apply respects_downloadBytes;
        [ apply io_only_refl | apply io_only_trans
        | intros; by apply io_only_emit ]
    | apply (respects_ret io_only io_only_refl)
    | apply (respects_throw io_only io_only_refl)
    | apply respects_await
    | apply (respects_bind io_only io_only_trans)
    | apply (respects_try_catch io_only io_only_trans)
    | apply respects_sync; intros w; simpl;
        repeat case_match; simpl;
        first [ apply io_only_refl | by apply io_only_emit ]
    | match goal with
      | |- respects _ (match ?x with _ => _ end) => destruct x
      | |- forall _, _ => intro
      end ].

Lemma trustedSet_update_io role update :
  respects io_only (trustedSet_update role update).
Proof.
  apply respects_sync. intros w.
  destruct (update (trustedSet w)); simpl; [|apply io_only_refl].
  exists [EvCommit role]. split; [done | by constructor].
Qed.

Lemma persistMetadata_io name bytes :
  respects io_only (persistMetadata name bytes).
Proof.
  apply respects_sync. intros w. simpl.
  exists [EvPersist name]. split; [done | by constructor].
Qed.

Lemma loadTargets_body_io role parentRole :
  respects io_only (loadTargets_body role parentRole).
Proof.
  unfold loadTargets_body, loadTargets_remote, get_trustedSet, loadLocalMetadata.
  repeat first [ apply trustedSet_update_io | apply persistMetadata_io | io_step ].
Qed.

Lemma loadTargets_log role parentRole w w' r :
  run (loadTargets role parentRole) w = (w', r) ->
  exists ev, log w' = ev ++ EvLoadTargets (mkDelegation role parentRole) :: log w /\
             Forall is_io ev.
Proof.
  unfold loadTargets. rewrite run_bind, run_sync. intros Hrun.
  apply loadTargets_body_io in Hrun as (ev & Hlog & Hio). eauto.
Qed.
(** *** One iteration of the walk *)

Lemma array_pop_app {A} (rest : list A) x : array_pop (rest ++ [x]) = Some (rest, x).
Proof.
  induction rest as [|y rest IH]; [reflexivity|].
  simpl. rewrite IH. by destruct rest.
Qed.

Lemma array_pop_Some {A} (l rest : list A) x :
  array_pop l = Some (rest, x) -> l = rest ++ [x].
Proof.
  revert rest. induction l as [|y l IH]; intros rest; [discriminate|].
  simpl. destruct l as [|z l].
  - by intros [= <- <-].
  - destruct (array_pop (z :: l)) as [[r y']|]; [|discriminate].
    intros [= <- <-]. simpl. f_equal. by apply IH.
Qed.

Lemma array_pop_None {A} (l : list A) : array_pop l = None -> l = [].
Proof.
  destruct l as [|x l] using rev_ind; [done|]. by rewrite array_pop_app.
Qed.

Lemma walk_body_cases targetPath v s w :
  BodyCase targetPath v s w
    (run (walk_body targetPath v s) w).1 (run (walk_body targetPath v s) w).2.
Proof.
  unfold walk_body.
  destruct (Z.leb_spec (Z.of_nat (size v)) (maxDelegations config)) as [Hle|Hgt];
    simpl; [|apply BC_exit; left; lia].
  destruct (Z.ltb_spec 0 (Z.of_nat (length s))) as [Hlen|Hlen];
    [|apply BC_exit; right; destruct s; simpl in *; [done | lia]].
  destruct (array_pop s) as [[rest d]|] eqn:Hpop.
  2:{ apply BC_exit. right. by apply array_pop_None. }
  apply array_pop_Some in Hpop.
  destruct (decide (roleName d ∈ v)) as [Hin|Hnin].
  { by eapply BC_skip. }
  rewrite run_bind, run_await.
  destruct (run (loadTargets (roleName d) (parentRoleName d)) w)
    as [w1 [[tg|]|e]] eqn:Hload; simpl.
  - rewrite run_bind, run_sync.
    destruct (targets tg ≫= (fun m => m !! targetPath)) as [target|] eqn:Hlook.
    + by eapply BC_found.
    + assert (Heq : forall (x : option Delegations),
                run match x with
                    | Some dels =>
                        ret (Continue ({[roleName d]} ∪ v)
                               (pushChildren rest (roleName d)
                                  (rolesForTarget dels targetPath)))
                    | None => ret (Continue ({[roleName d]} ∪ v) rest)
                    end (emit (EvInspect (roleName d)) w1)
                = (emit (EvInspect (roleName d)) w1,
                   Ok (Continue ({[roleName d]} ∪ v)
                         match x with
                         | Some dels =>
                             pushChildren rest (roleName d)
                               (rolesForTarget dels targetPath)
                         | None => rest
                         end))) by (by intros []).
      rewrite Heq. simpl. by eapply BC_visit.
  - by eapply BC_undefined.
  - by eapply BC_fail.
Qed.

Lemma run_walk_S fuel targetPath v s w :
  run (walk (S fuel) targetPath v s) w =
  match run (walk_body targetPath v s) w with
  | (w1, Ok (Return target)) => (w1, Ok (Some target))
  | (w1, Ok (Continue v' s')) => run (walk fuel targetPath v' s') w1
  | (w1, Err e) => (w1, Err e)
  end.
Proof.
  simpl. rewrite run_bind.
  destruct (run (walk_body targetPath v s) w) as [w1 [[t|v' s']|e]]; reflexivity.
Qed.

(** *** The children pushed for a role *)

Lemma childRoles_elem role roles d :
  d ∈ (childRoles role roles).1 ->
  parentRoleName d = role /\ exists t, (roleName d, t) ∈ roles.
Proof.
  induction roles as [|[c t] roles IH]; simpl; [by intros ?%elem_of_nil|].
  destruct t.
  - intros ->%list_elem_of_singleton. split; [done|]. exists true. left.
  - destruct (childRoles role roles) as [cs b]. simpl in *.
    intros [->|Hin]%elem_of_cons.
    + split; [done|]. exists false. left.
    + destruct (IH Hin) as [Hp [t Ht]]. split; [done|]. exists t. by right.
Qed.

Lemma pushChildren_elem rest role roles d :
  d ∈ pushChildren rest role roles -> d ∈ rest \/ parentRoleName d = role.
Proof.
  unfold pushChildren.
  destruct (childRoles role roles) as [cs b] eqn:Hc.
  intros [Hin|Hin]%elem_of_app.
  - left. destruct b; [by apply elem_of_nil in Hin | done].
  - right. apply list_elem_of_In, in_rev, list_elem_of_In in Hin.
    eapply childRoles_elem. by rewrite Hc.
Qed.

(** Up to the first terminating role the children are taken, and that
    role empties the stack. *)
Lemma childRoles_terminating role pre c post :
  Forall (fun r => r.2 = false) pre ->
  childRoles role (pre ++ (c, true) :: post) =
    (map (fun r => mkDelegation r.1 role) (pre ++ [(c, true)]), true).
Proof.
  induction 1 as [|[c' t] pre Ht _ IH]; [reflexivity|].
  simpl in *. subst t. by rewrite IH.
Qed.

Lemma childRoles_no_terminating role roles :
  Forall (fun r => r.2 = false) roles ->
  childRoles role roles = (map (fun r => mkDelegation r.1 role) roles, false).
Proof.
  induction 1 as [|[c' t] pre Ht _ IH]; [reflexivity|].
  simpl in *. subst t. by rewrite IH.
Qed.

(** Without a terminating role all matching children go on top of what
    was pending, the first declared on top. *)
Lemma pushChildren_no_terminating rest role roles :
  Forall (fun r => r.2 = false) roles ->
  pushChildren rest role roles =
    rest ++ rev (map (fun r => mkDelegation r.1 role) roles).
Proof. intros Hall. unfold pushChildren. by rewrite childRoles_no_terminating. Qed.
(** *** The whole walk *)

Lemma budget_pos v : Z.of_nat (size v) <= maxDelegations config -> (1 <= budget v)%nat.
Proof. unfold budget. lia. Qed.

Lemma budget_visit v role :
  Z.of_nat (size v) <= maxDelegations config -> role ∉ v ->
  S (budget ({[role]} ∪ v)) = budget v.
Proof.
  intros Hle Hnin. unfold budget.
  rewrite size_union by set_solver. rewrite size_singleton. lia.
Qed.

Lemma load_events ev0 d :
  Forall is_io ev0 ->
  inspected (ev0 ++ [EvLoadTargets d]) = [] /\
  consulted (ev0 ++ [EvLoadTargets d]) = [d].
Proof.
  intros [Hc Hi]%consulted_io.
  by rewrite inspected_app, consulted_app, Hc, Hi.
Qed.

Lemma loadTargets_events d w w' r :
  run (loadTargets (roleName d) (parentRoleName d)) w = (w', r) ->
  exists ev, log w' = ev ++ log w /\ inspected ev = [] /\ consulted ev = [d].
Proof.
  intros (ev0 & Hlog & Hio)%loadTargets_log.
  exists (ev0 ++ [EvLoadTargets d]). rewrite <- app_assoc. simpl.
  split; [by destruct d | by apply load_events].
Qed.

Lemma walk_log fuel targetPath : forall v s w w' r,
  run (walk fuel targetPath v s) w = (w', r) ->
  exists ev, log w' = ev ++ log w /\ WalkLog v s ev.
Proof.
  induction fuel as [|fuel IH]; intros v s w w' r Hrun.
  { injection Hrun as <- <-. exists []. repeat split; simpl;
      [lia | constructor | by intros ? ?%elem_of_nil | by intros ? ?%elem_of_nil]. }
  rewrite run_walk_S in Hrun.
  pose proof (walk_body_cases targetPath v s w) as Hc.
  destruct (run (walk_body targetPath v s) w) as [w1 r1]. simpl in Hc.
  inversion Hc as [Hex|rest d Hle Hs Hin|rest d w2 e Hle Hs Hnin Hload
                  |rest d w2 Hle Hs Hnin Hload
                  |rest d w2 tg t Hle Hs Hnin Hload Hlook
                  |rest d w2 tg Hle Hs Hnin Hload Hlook]; subst.
  - injection Hrun as <- <-. exists []. repeat split; simpl;
      [lia | constructor | by intros ? ?%elem_of_nil | by intros ? ?%elem_of_nil].
  - apply IH in Hrun as (ev & Hlog & Hb & Hnd & Hv & Hcons).
    exists ev. split; [done|]. repeat split; auto.
    intros d' Hd'. destruct (Hcons d' Hd') as [?|?]; [left | by right].
    apply elem_of_app. by left.
  - injection Hrun as <- <-.
    apply loadTargets_events in Hload as (ev & Hlog & Hi & Hco).
    exists ev. split; [done|]. unfold WalkLog. rewrite Hi, Hco.
    repeat split; simpl; [lia | constructor | by intros ? ?%elem_of_nil |].
    intros d' ->%list_elem_of_singleton. left. apply elem_of_app. right. left.
  - apply loadTargets_events in Hload as (ev0 & Hlog0 & Hi0 & Hco0).
    apply IH in Hrun as (ev & Hlog & Hb & Hnd & Hv & Hcons).
    exists (ev ++ ev0). rewrite Hlog, Hlog0, app_assoc. split; [done|].
    unfold WalkLog. rewrite inspected_app, consulted_app, Hi0, Hco0, app_nil_r.
    repeat split; auto.
    intros d' [Hd'|Hd']%elem_of_app.
    + destruct (Hcons d' Hd') as [?|?]; [left | by right].
      apply elem_of_app. by left.
    + apply list_elem_of_singleton in Hd' as ->.
      left. apply elem_of_app. right. left.
  - injection Hrun as <- <-.
    apply loadTargets_events in Hload as (ev0 & Hlog0 & Hi0 & Hco0).
    exists (EvInspect (roleName d) :: ev0). simpl. rewrite Hlog0.
    split; [done|].
    unfold WalkLog, inspected, consulted. csimpl.
    fold (inspected ev0). fold (consulted ev0). rewrite Hi0, Hco0.
    pose proof (budget_pos v Hle).
    repeat split; simpl; [lia | apply NoDup_singleton | |].
    + by intros x ->%list_elem_of_singleton.
    + intros d' ->%list_elem_of_singleton. left. apply elem_of_app. right. left.
  - apply loadTargets_events in Hload as (ev0 & Hlog0 & Hi0 & Hco0).
    apply IH in Hrun as (ev & Hlog & Hb & Hnd & Hv & Hcons).
    exists (ev ++ EvInspect (roleName d) :: ev0).
    rewrite Hlog. simpl. rewrite Hlog0, <- app_assoc. split; [done|].
    unfold WalkLog. rewrite inspected_app, consulted_app.
    unfold inspected at 2 4 6. unfold consulted at 2. csimpl.
    fold (inspected ev0). fold (consulted ev0). rewrite Hi0, Hco0.
    pose proof (budget_visit v (roleName d) Hle Hnin).
    repeat split.
    + rewrite length_app. simpl. lia.
    + apply NoDup_app. repeat split; [done | | apply NoDup_singleton].
      intros x Hx ->%list_elem_of_singleton. apply (Hv _ Hx). set_solver.
    + intros x [Hx|Hx]%elem_of_app;
        [| by apply list_elem_of_singleton in Hx as ->].
      specialize (Hv _ Hx). set_solver.
    + intros d' [Hd'|Hd']%elem_of_app.
      2:{ apply list_elem_of_singleton in Hd' as ->.
          left. apply elem_of_app. right. left. }
      destruct (Hcons d' Hd') as [Hin|Hp]; [|right; set_solver].
      assert (d' ∈ rest \/ parentRoleName d' = roleName d) as [?|Heq].
      { destruct (delegations tg); [by eapply pushChildren_elem | by left]. }
      * left. apply elem_of_app. by left.
      * right. by rewrite Heq.
Qed.

(** Enough fuel always exists: the walk ends, by a [return], by leaving
    the loop or by an error of [loadTargets]. *)
Lemma walk_terminates targetPath : forall b n v s w,
  budget v = b -> length s = n ->
  exists fuel w' r,
    r <> Ok None /\
    forall fuel', (fuel <= fuel')%nat ->
      run (walk fuel' targetPath v s) w = (w', r).
Proof.
  induction b as [b IHb] using lt_wf_ind.
  induction n as [n IHn] using lt_wf_ind.
  intros v s w Hb Hn.
  pose proof (walk_body_cases targetPath v s w) as Hc.
  destruct (run (walk_body targetPath v s) w) as [w1 r1] eqn:Hbody. simpl in Hc.
  assert (Hnow : forall r0, r0 <> Ok None ->
            (forall fuel, run (walk (S fuel) targetPath v s) w = (w1, r0)) ->
            exists fuel w' r, r <> Ok None /\
              forall fuel', (fuel <= fuel')%nat ->
                run (walk fuel' targetPath v s) w = (w', r)).
  { intros r0 Hr0 Hrun. exists 1%nat, w1, r0. split; [done|].
    intros [|fuel'] Hf; [lia | apply Hrun]. }
  assert (Hlater : forall v' s' fuel w' r,
            r1 = Ok (Continue v' s') -> r <> Ok None ->
            (forall fuel', (fuel <= fuel')%nat ->
               run (walk fuel' targetPath v' s') w1 = (w', r)) ->
            exists fuel w' r, r <> Ok None /\
              forall fuel', (fuel <= fuel')%nat ->
                run (walk fuel' targetPath v s) w = (w', r)).
  { intros v' s' fuel w' r -> Hr Hrun. exists (S fuel), w', r. split; [done|].
    intros [|fuel'] Hf; [lia|]. rewrite run_walk_S, Hbody. apply Hrun. lia. }
  inversion Hc as [Hex|rest d Hle Hs Hin|rest d w2 e Hle Hs Hnin Hload
                  |rest d w2 Hle Hs Hnin Hload
                  |rest d w2 tg t Hle Hs Hnin Hload Hlook
                  |rest d w2 tg Hle Hs Hnin Hload Hlook]; subst.
  - apply (Hnow (Ok (Some None))); [done|].
    intros fuel. by rewrite run_walk_S, Hbody.
  - destruct (IHn (length rest) ltac:(rewrite length_app; simpl; lia)
                v rest w1 eq_refl eq_refl) as (fuel & w' & r & Hr & Hrun).
    by eapply Hlater.
  - apply (Hnow (Err e)); [done|].
    intros fuel. by rewrite run_walk_S, Hbody.
  - destruct (IHn (length rest) ltac:(rewrite length_app; simpl; lia)
                v rest w1 eq_refl eq_refl) as (fuel & w' & r & Hr & Hrun).
    by eapply Hlater.
  - apply (Hnow (Ok (Some (Some t)))); [done|].
    intros fuel. by rewrite run_walk_S, Hbody.
  - pose proof (budget_visit v (roleName d) Hle Hnin) as Hbud.
    set (s' := match delegations tg with
               | Some dels =>
                   pushChildren rest (roleName d) (rolesForTarget dels targetPath)
               | None => rest
               end) in *.
    destruct (IHb (budget ({[roleName d]} ∪ v)) ltac:(lia) (length s')
                ({[roleName d]} ∪ v) s' (emit (EvInspect (roleName d)) w2)
                eq_refl eq_refl)
      as (fuel & w' & r & Hr & Hrun).
    by eapply Hlater.
Qed.

(** When a committed Targets role can be read back from the store,
    [loadTargets] never resolves to [undefined]. *)
Lemma loadTargets_remote_commits role parentRole w w' :
  commits_role ->
  run (loadTargets_remote role parentRole) w = (w', Ok tt) ->
  is_Some (getRole (trustedSet w') role).
Proof.
  intros Hlaw. unfold loadTargets_remote. rewrite run_bind.
  unfold get_trustedSet at 1. rewrite run_sync.
  destruct (snapshot_meta (trustedSet w)) as [meta|]; [|discriminate].
  destruct (meta !! (role +:+ ".json")) as [metaInfo|]; [|discriminate].
  rewrite run_try_catch, run_bind, run_await.
  match goal with |- context [run (downloadBytes fetch ?url ?len) w] =>
    pose proof (downloadBytes_same_trustedSet url len w) as Hst;
    destruct (run (downloadBytes fetch url len) w) as [w1 [bytesData|e]] end;
    [|discriminate].
  specialize (Hst _ _ eq_refl). unfold same_trustedSet in Hst.
  rewrite run_bind. unfold trustedSet_update at 1. rewrite run_sync.
  destruct (updateDelegatedTargets (trustedSet w1) bytesData role parentRole)
    as [st|e] eqn:Hu; [|discriminate].
  unfold persistMetadata. rewrite run_sync. intros [= <-]. simpl.
  by eapply Hlaw.
Qed.

Lemma loadTargets_defined role parentRole w w' :
  commits_role ->
  run (loadTargets role parentRole) w <> (w', Ok None).
Proof.
  intros Hlaw. unfold loadTargets. rewrite run_bind, run_sync.
  unfold loadTargets_body. rewrite run_bind.
  unfold get_trustedSet at 1. rewrite run_sync. simpl.
  destruct (getRole (trustedSet w) role) as [md|]; [discriminate|].
  rewrite run_bind, run_try_catch, run_bind.
  unfold loadLocalMetadata at 1. rewrite run_sync. simpl.
  assert (Hafter : forall w2 : World,
            is_Some (getRole (trustedSet w2) role) ->
            run (let! st := get_trustedSet in ret (getRole st role)) w2
            <> (w', Ok None)).
  { intros w2 [md Hmd]. rewrite run_bind. unfold get_trustedSet. rewrite run_sync.
    rewrite run_ret, Hmd. discriminate. }
  assert (Hremote : forall w2 : World,
            match run (loadTargets_remote role parentRole) w2 with
            | (w3, Ok _) => run (let! st := get_trustedSet in ret (getRole st role)) w3
            | (w3, Err e) => (w3, Err e)
            end <> (w', Ok None)).
  { intros w2. destruct (run (loadTargets_remote role parentRole) w2)
      as [w3 [[]|e]] eqn:Hr; [|discriminate].
    apply Hafter. by eapply loadTargets_remote_commits. }
  destruct (dir w !! role) as [buffer|]; [|apply Hremote].
  unfold trustedSet_update at 1. rewrite run_sync. simpl.
  destruct (updateDelegatedTargets (trustedSet w) buffer role parentRole)
    as [st|e] eqn:Hu; [|apply Hremote].
  apply Hafter. simpl. by eapply Hlaw.
Qed.

(** Under the same condition the delegations the walk loads are bounded
    like the roles it inspects, and are for pairwise distinct roles. *)
Lemma walk_loads fuel targetPath : forall v s w w' r,
  commits_role ->
  run (walk fuel targetPath v s) w = (w', r) ->
  exists ev, log w' = ev ++ log w /\
    (length (consulted ev) <= budget v)%nat /\
    NoDup (roleName <$> consulted ev) /\
    (forall d, d ∈ consulted ev -> roleName d ∉ v).
Proof.
  induction fuel as [|fuel IH]; intros v s w w' r Hlaw Hrun.
  { injection Hrun as <- <-. exists []. repeat split; simpl;
      [lia | constructor | by intros ? ?%elem_of_nil]. }
  rewrite run_walk_S in Hrun.
  pose proof (walk_body_cases targetPath v s w) as Hc.
  destruct (run (walk_body targetPath v s) w) as [w1 r1]. simpl in Hc.
  assert (Hone : forall d w0 r0,
            Z.of_nat (size v) <= maxDelegations config -> roleName d ∉ v ->
            run (loadTargets (roleName d) (parentRoleName d)) w = (w0, r0) ->
            forall e, exists ev, log (emit e w0) = ev ++ log w /\
              consulted ev = consulted [e] ++ [d]).
  { intros d w0 r0 Hle Hnin (ev0 & Hlog0 & _ & Hco0)%loadTargets_events e.
    exists (e :: ev0). split; [simpl; by rewrite Hlog0|].
    rewrite <- Hco0. exact (consulted_app [e] ev0). }
  inversion Hc as [Hex|rest d Hle Hs Hin|rest d w2 e Hle Hs Hnin Hload
                  |rest d w2 Hle Hs Hnin Hload
                  |rest d w2 tg t Hle Hs Hnin Hload Hlook
                  |rest d w2 tg Hle Hs Hnin Hload Hlook]; subst.
  - injection Hrun as <- <-. exists []. repeat split; simpl;
      [lia | constructor | by intros ? ?%elem_of_nil].
  - by apply IH in Hrun.
  - injection Hrun as <- <-.
    apply loadTargets_events in Hload as (ev & Hlog & _ & Hco).
    exists ev. rewrite Hco. pose proof (budget_pos v Hle).
    repeat split; simpl; [done | lia | apply NoDup_singleton |].
    by intros d' ->%list_elem_of_singleton.
  - by apply loadTargets_defined in Hload.
  - injection Hrun as <- <-.
    destruct (Hone _ _ _ Hle Hnin Hload (EvInspect (roleName d)))
      as (ev & Hlog & Hco).
    exists ev. rewrite Hco. pose proof (budget_pos v Hle).
    repeat split; simpl; [done | lia | apply NoDup_singleton |].
    by intros d' ->%list_elem_of_singleton.
  - destruct (Hone _ _ _ Hle Hnin Hload (EvInspect (roleName d)))
      as (ev0 & Hlog0 & Hco0).
    apply IH in Hrun as (ev & Hlog & Hb & Hnd & Hv); [|done].
    exists (ev ++ ev0). rewrite Hlog, Hlog0, app_assoc. split; [done|].
    rewrite consulted_app, Hco0. simpl.
    pose proof (budget_visit v (roleName d) Hle Hnin).
    repeat split.
    + rewrite length_app. simpl. lia.
    + rewrite fmap_app. apply NoDup_app. repeat split;
        [done | | apply NoDup_singleton].
      intros x (d' & -> & Hd')%list_elem_of_fmap Hx.
      apply list_elem_of_singleton in Hx. apply (Hv _ Hd'). set_solver.
    + intros d' [Hd'|Hd']%elem_of_app.
      * specialize (Hv _ Hd'). set_solver.
      * by apply list_elem_of_singleton in Hd' as ->.
Qed.

(** With nothing left to visit the loop is left at once. *)
Lemma walk_empty_stack fuel targetPath v w :
  run (walk (S fuel) targetPath v []) w = (w, Ok (Some None)).
Proof.
  rewrite run_walk_S. unfold walk_body. simpl length.
  by rewrite andb_false_r.
Qed.

Lemma log_unique (w w' : World) ev ev' :
  log w' = ev ++ log w -> log w' = ev' ++ log w -> ev = ev'.
Proof. intros H1 H2. apply (app_inv_tail (log w)). congruence. Qed.

(** The first role inspected, if any, is the top-level [targets]. *)
Lemma walk_first fuel targetPath w w' r ev :
  run (preorderDepthFirstWalk fuel targetPath) w = (w', r) ->
  log w' = ev ++ log w ->
  inspected ev = [] \/ exists delegated, inspected ev = delegated ++ ["targets"].
Proof.
  unfold preorderDepthFirstWalk. intros Hrun Hlog.
  destruct fuel as [|fuel].
  { injection Hrun as <- <-. left.
    by rewrite (log_unique _ _ _ [] Hlog eq_refl). }
  rewrite run_walk_S in Hrun.
  pose proof (walk_body_cases targetPath ∅ [mkDelegation "targets" "root"] w) as Hc.
  destruct (run (walk_body targetPath ∅ [mkDelegation "targets" "root"]) w)
    as [w1 r1]. simpl in Hc.
  assert (Hinit : forall rest d, [mkDelegation "targets" "root"] = rest ++ [d] ->
            rest = [] /\ d = mkDelegation "targets" "root").
  { intros rest d Heq. destruct rest as [|x rest]; simpl in Heq.
    - by injection Heq as <-.
    - injection Heq as _ Heq. by destruct rest. }
  inversion Hc as [Hex|rest d Hle Hs Hin|rest d w2 e Hle Hs Hnin Hload
                  |rest d w2 Hle Hs Hnin Hload
                  |rest d w2 tg t Hle Hs Hnin Hload Hlook
                  |rest d w2 tg Hle Hs Hnin Hload Hlook]; subst;
    try (destruct (Hinit _ _ Hs) as [-> ->]).
  - injection Hrun as <- <-. left.
    by rewrite (log_unique _ _ _ [] Hlog eq_refl).
  - set_solver.
  - injection Hrun as <- <-.
    apply loadTargets_events in Hload as (ev0 & Hlog0 & Hi0 & _).
    left. by rewrite (log_unique _ _ _ _ Hlog Hlog0).
  - apply loadTargets_events in Hload as (ev0 & Hlog0 & Hi0 & _).
    left. destruct fuel as [|fuel];
      [|rewrite walk_empty_stack in Hrun];
      injection Hrun as <- <-; by rewrite (log_unique _ _ _ _ Hlog Hlog0).
  - injection Hrun as <- <-.
    apply loadTargets_events in Hload as (ev0 & Hlog0 & Hi0 & _).
    assert (Hlog1 : log (emit (EvInspect "targets") w2)
                    = (EvInspect "targets" :: ev0) ++ log w)
      by (simpl; by rewrite Hlog0).
    rewrite (log_unique _ _ _ _ Hlog Hlog1).
    right. exists []. unfold inspected. csimpl. fold (inspected ev0). by rewrite Hi0.
  - apply loadTargets_events in Hload as (ev0 & Hlog0 & Hi0 & _).
    apply walk_log in Hrun as (ev1 & Hlog1 & _).
    assert (Hlog2 : log w' = (ev1 ++ EvInspect "targets" :: ev0) ++ log w)
      by (rewrite Hlog1; simpl; by rewrite Hlog0, <- app_assoc).
    rewrite (log_unique _ _ _ _ Hlog Hlog2).
    right. exists (inspected ev1). rewrite inspected_app. f_equal.
    unfold inspected. csimpl. fold (inspected ev0). by rewrite Hi0.
Qed.

(** C3, as the code has it. For every trusted set and every target
    path the walk comes to an end, with a result that any larger
    amount of fuel reproduces. The roles it inspected are pairwise
    distinct and at most [maxDelegations + 1] (none when
    [maxDelegations] is negative): the top-level [targets] first, and
    then at most [maxDelegations] delegated roles. The same bound holds
    of the roles it loaded, whenever a committed role can be read back
    from the store. *)
Theorem walk_terminates_bounded targetPath w :
  exists fuel w' r ev,
    (forall fuel', (fuel <= fuel')%nat ->
       run (preorderDepthFirstWalk fuel' targetPath) w = (w', r)) /\
    r <> Ok None /\
    log w' = ev ++ log w /\
    Z.of_nat (length (inspected ev)) <= Z.max 0 (maxDelegations config + 1) /\
    NoDup (inspected ev) /\
    (inspected ev = [] \/
     exists delegated, inspected ev = delegated ++ ["targets"] /\
       Z.of_nat (length delegated) <= maxDelegations config) /\
    (commits_role ->
     Z.of_nat (length (consulted ev)) <= Z.max 0 (maxDelegations config + 1) /\
     NoDup (roleName <$> consulted ev)).
Proof.
  destruct (walk_terminates targetPath _ _ ∅ [mkDelegation "targets" "root"] w
              eq_refl eq_refl) as (fuel & w' & r & Hr & Hrun).
  pose proof (Hrun fuel (Nat.le_refl _)) as Hfuel.
  destruct (walk_log _ _ _ _ _ _ _ Hfuel) as (ev & Hlog & Hb & Hnd & _ & _).
  exists fuel, w', r, ev.
  assert (Hbud : budget ∅ = Z.to_nat (maxDelegations config + 1))
    by (unfold budget; rewrite size_empty; f_equal; lia).
  split_and!; try done.
  - lia.
  - destruct (walk_first _ _ _ _ _ _ Hfuel Hlog) as [Hnone|[delegated Hd]];
      [by left|].
    right. exists delegated. split; [done|].
    rewrite Hd, length_app in Hb. simpl in Hb. lia.
  - intros Hlaw.
    destruct (walk_loads _ _ _ _ _ _ _ Hlaw Hfuel) as (ev' & Hlog' & Hb' & Hnd' & _).
    assert (ev' = ev) as -> by (apply (app_inv_tail (log w)); congruence).
    split; [lia | done].
Qed.
(** *** Terminating delegations *)

Lemma Inv_initial : Inv ∅ [mkDelegation "targets" "root"].
Proof. by left. Qed.

Lemma Inv_rest v rest d :
  Inv v (rest ++ [d]) -> Forall (fun e => parentRoleName e ∈ v) rest.
Proof.
  intros [[_ Hs]|Hall].
  - destruct rest as [|x [|y rest]]; [constructor | discriminate..].
  - by apply Forall_app in Hall as [? _].
Qed.

Lemma walk_body_Inv targetPath v s w w' v' s' :
  Inv v s ->
  run (walk_body targetPath v s) w = (w', Ok (Continue v' s')) ->
  Inv v' s'.
Proof.
  intros Hinv Hrun.
  pose proof (walk_body_cases targetPath v s w) as Hc. rewrite Hrun in Hc.
  simpl in Hc.
  inversion Hc as [|rest d Hle Hs Hin|
                  |rest d w2 Hle Hs Hnin Hload
                  |
                  |rest d w2 tg Hle Hs Hnin Hload Hlook]; subst;
    apply Inv_rest in Hinv; right; try done.
  assert (Hsub : Forall (fun e => parentRoleName e ∈ {[roleName d]} ∪ v) rest).
  { eapply Forall_impl; [exact Hinv|]. set_solver. }
  destruct (delegations tg) as [dels|]; [|done].
  apply Forall_forall. intros e [He|He]%pushChildren_elem.
  - rewrite Forall_forall in Hsub. by apply Hsub.
  - rewrite He. set_solver.
Qed.

(** C4, as the code has it. A delegation is the pair of a role and the
    parent that delegated to it. In an iteration that inspects a role
    whose matching children include a terminating one, the stack of the
    next iteration holds the delegations of this role to its matching
    children up to and including the first terminating one (the next pop
    follows the declared order) and nothing of what was pending; and
    whatever the rest of the walk loads, it is none of the delegations
    that were pending, and of the delegations of this role only those
    pushed, so not the delegation of this role to a later sibling of the
    terminating one. Nothing is said of a role of the same name
    delegated by another parent. *)
Theorem terminating_role_short_circuit
    targetPath v s rest d w w1 tg dels pre c post :
  Inv v s ->
  s = rest ++ [d] ->
  Z.of_nat (size v) <= maxDelegations config ->
  roleName d ∉ v ->
  run (loadTargets (roleName d) (parentRoleName d)) w = (w1, Ok (Some tg)) ->
  targets tg ≫= (fun m => m !! targetPath) = None ->
  delegations tg = Some dels ->
  rolesForTarget dels targetPath = pre ++ (c, true) :: post ->
  Forall (fun r => r.2 = false) pre ->
  let v' := {[roleName d]} ∪ v in
  let s' := rev (map (fun r => mkDelegation r.1 (roleName d)) (pre ++ [(c, true)])) in
  let w' := emit (EvInspect (roleName d)) w1 in
  run (walk_body targetPath v s) w = (w', Ok (Continue v' s')) /\
  forall fuel w2 r ev,
    run (walk fuel targetPath v' s') w' = (w2, r) ->
    log w2 = ev ++ log w' ->
    forall d', d' ∈ consulted ev ->
      (d' ∉ rest) /\ (parentRoleName d' = roleName d -> d' ∈ s').
Proof.
  intros Hinv Hs Hle Hnin Hload Hlook Hdel Hroles Hpre v' s' w'. split.
  - unfold walk_body.
    destruct (Z.leb_spec (Z.of_nat (size v)) (maxDelegations config)); [|lia].
    subst s. rewrite length_app. simpl length.
    destruct (Z.ltb_spec 0 (Z.of_nat (length rest + 1))); [|lia].
    simpl andb. cbv iota. rewrite array_pop_app.
    destruct (decide (roleName d ∈ v)); [done|].
    rewrite run_bind, run_await, Hload, run_bind, run_sync, Hlook, Hdel.
    unfold pushChildren. rewrite Hroles, childRoles_terminating by done.
    reflexivity.
  - intros fuel w2 r ev Hrun Hlog d' Hd'.
    apply walk_log in Hrun as (ev' & Hlog' & _ & _ & _ & Hcons).
    assert (ev' = ev) as -> by (apply (app_inv_tail (log w')); congruence).
    specialize (Hcons d' Hd').
    assert (Hs' : forall e, e ∈ s' -> parentRoleName e = roleName d).
    { intros e He. unfold s' in He.
      apply list_elem_of_In, in_rev, list_elem_of_In in He.
      apply list_elem_of_fmap in He as (x & -> & _). reflexivity. }
    subst s. apply Inv_rest in Hinv. rewrite Forall_forall in Hinv. split.
    + intros Hin. specialize (Hinv _ Hin).
      destruct Hcons as [He|Hp].
      * apply Hs' in He. congruence.
      * apply Hp. unfold v'. set_solver.
    + intros Hp. destruct Hcons as [He|Hn]; [done|].
      exfalso. apply Hn. rewrite Hp. unfold v'. set_solver.
Qed.
(** *** The rotation loop *)

Lemma run_downloadBytes_world url maxLength w :
  (run (downloadBytes fetch url maxLength) w).1 = emit (EvFetch url) w.
Proof.
  rewrite run_downloadBytes. unfold fetch at 1. rewrite run_sync.
  destruct (remote url) as [reader|e]; [|reflexivity].
  apply readChunks_world.
Qed.

(** Each iteration requests one Root version and commits at most one:
    [n] iterations request at most [n]. *)
Lemma loadRoot_for_log n version upperBound w :
  exists ev,
    log (run (loadRoot_for n version upperBound) w).1 = ev ++ log w /\
    (length (fetched ev) <= n)%nat /\ (length (committed ev) <= n)%nat.
Proof.
  revert version w. induction n as [|n IH]; intros version w; simpl.
  { exists []. simpl. repeat split; lia. }
  destruct (version <=? upperBound); [|exists []; simpl; repeat split; lia].
  rewrite run_bind, run_try_catch, run_bind, run_await.
  pose proof (run_downloadBytes_world
                (path_join metadataBaseUrl (pretty version +:+ ".root.json"))
                (rootMaxLength config) w) as Hw.
  destruct (run (downloadBytes _ _ _) w) as [w1 [bytesData|e]];
    simpl in Hw; subst w1.
  2:{ rewrite run_ret. simpl. eexists [_]. simpl. repeat split; simpl; lia. }
  rewrite run_bind. unfold trustedSet_update at 1. rewrite run_sync. simpl.
  destruct (updateRoot (trustedSet w) bytesData) as [st|e].
  2:{ rewrite run_ret. simpl. eexists [_]. simpl. repeat split; simpl; lia. }
  rewrite run_bind. unfold persistMetadata at 1. rewrite run_sync, run_ret.
  match goal with |- context [run (loadRoot_for n ?ver upperBound) ?w0] =>
    destruct (IH ver w0) as (ev & Hlog & Hf & Hc) end.
  simpl in Hlog.
  eexists (ev ++ [_; _; _]). split; [rewrite <- app_assoc; exact Hlog|].
  unfold fetched, committed in *. rewrite !omap_app, !length_app. simpl. lia.
Qed.

(** [loadRoot] requests at most [maxRootRotations + 1] Root versions. *)
Lemma loadRoot_log w :
  exists ev,
    log (run loadRoot w).1 = ev ++ log w /\
    Z.of_nat (length (fetched ev)) <= Z.max 0 (maxRootRotations config + 1) /\
    Z.of_nat (length (committed ev)) <= Z.max 0 (maxRootRotations config + 1).
Proof.
  unfold loadRoot. rewrite run_bind. unfold get_trustedSet. rewrite run_sync.
  match goal with |- context [run (loadRoot_for ?n ?ver ?ub) w] =>
    destruct (loadRoot_for_log n ver ub w) as (ev & Hlog & Hf & Hc) end.
  exists ev. split; [exact Hlog|]. lia.
Qed.

(** *** [refresh] called without [await] *)

Lemma loadRoot_for_first_segment n version upperBound w :
  same_trustedSet w (first_segment (loadRoot_for n version upperBound w)) /\
  same_dir w (first_segment (loadRoot_for n version upperBound w)).
Proof.
  destruct n as [|n]; simpl; [by split|].
  destruct (version <=? upperBound); by split.
Qed.

(** When the call [refresh()] returns its promise, the refresh is
    pending and nothing has been committed or written. *)
Lemma refresh_first_segment w :
  pending (refresh w) = true /\
  trustedSet (first_segment (refresh w)) = trustedSet w /\
  dir (first_segment (refresh w)) = dir w.
Proof.
  set (k := fun _ : unit =>
              let! _ := await loadTimestamp in
              let! _ := await loadSnapshot in
              let! _ := await (loadTargets "targets" "root") in
              ret tt).
  assert (Heq : refresh w = bind_step (settle (loadRoot w)) k) by reflexivity.
  rewrite Heq.
  destruct (first_segment_bind_pending (settle (loadRoot w)) k
              (settle_pending _)) as [-> ->].
  rewrite first_segment_settle. split; [done|].
  unfold loadRoot, bind, get_trustedSet, sync. simpl.
  apply loadRoot_for_first_segment.
Qed.

(** So the walk of [getTargetInfo] starts on the trusted set and the
    directory of before the refresh. *)
Lemma getTargetInfo_not_awaited fuel targetPath w :
  getRole (trustedSet w) "targets" = None ->
  exists background w1,
    getTargetInfo fuel targetPath w =
      (Some background, preorderDepthFirstWalk fuel targetPath w1) /\
    pending background = true /\
    trustedSet w1 = trustedSet w /\ dir w1 = dir w.
Proof.
  intros Hno. unfold getTargetInfo. rewrite Hno.
  exists (refresh w), (first_segment (refresh w)).
  split; [reflexivity | apply refresh_first_segment].
Qed.

(** *** What the loaders request, commit and write *)

(** The files a stretch of the log saw written. *)
Definition persisted (ev : list Event) : list string :=
  omap (fun e => match e with EvPersist name => Some name | _ => None end) ev.

(** A stretch of the log (newest first) in which every write comes right
    after a commit of the same role. *)
Inductive paired : list Event -> Prop :=
| paired_nil : paired []
| paired_other e ev :
    (forall name, e <> EvPersist name) -> paired ev -> paired (e :: ev)
| paired_persist name ev :
    paired ev -> paired (EvPersist name :: EvCommit name :: ev).

(** From [w] to [w'] the log grew by [ev], every write followed a commit,
    the directory changed at written names only, and the trusted set
    changed only if something was committed. *)
Definition Writes (w w' : World) (ev : list Event) : Prop :=
  log w' = ev ++ log w /\ paired ev /\
  (forall k, k ∉ persisted ev -> dir w' !! k = dir w !! k) /\
  (committed ev = [] -> trustedSet w' = trustedSet w).

(** The URL of a Root version. *)
Definition rootUrl (version : Z) : string :=
  path_join metadataBaseUrl (pretty version +:+ ".root.json").

Lemma fetched_app ev1 ev2 : fetched (ev1 ++ ev2) = fetched ev1 ++ fetched ev2.
Proof. apply omap_app. Qed.
Lemma committed_app ev1 ev2 : committed (ev1 ++ ev2) = committed ev1 ++ committed ev2.
Proof. apply omap_app. Qed.
Lemma persisted_app ev1 ev2 : persisted (ev1 ++ ev2) = persisted ev1 ++ persisted ev2.
Proof. apply omap_app. Qed.

Lemma paired_app ev2 ev1 : paired ev2 -> paired ev1 -> paired (ev2 ++ ev1).
Proof.
  induction 1 as [|e ev He _ IH|name ev _ IH]; intros H1; simpl.
  - exact H1.
  - apply paired_other; auto.
  - apply paired_persist; auto.
Qed.

Lemma Writes_refl w : Writes w w [].
Proof. split_and!; [done | constructor | done | done]. Qed.

Lemma Writes_trans w1 w2 w3 ev1 ev2 :
  Writes w1 w2 ev1 -> Writes w2 w3 ev2 -> Writes w1 w3 (ev2 ++ ev1).
Proof.
  intros (L1 & P1 & D1 & T1) (L2 & P2 & D2 & T2). split_and!.
  - by rewrite L2, L1, app_assoc.
  - by apply paired_app.
  - intros k Hk. rewrite persisted_app in Hk.
    rewrite D2, D1; [done | |]; intros ?; apply Hk, elem_of_app; auto.
  - rewrite committed_app. intros [E2 E1]%app_eq_nil.
    by rewrite T2, T1.
Qed.

Lemma Writes_emit e w :
  (forall name, e <> EvPersist name) -> (forall role, e <> EvCommit role) ->
  Writes w (emit e w) [e].
Proof.
  intros Hp Hc. split_and!; [done | | done |].
  - apply paired_other; [exact Hp | constructor].
  - done.
Qed.

Lemma Writes_commit role st w :
  Writes w (mkWorld st (dir w) (EvCommit role :: log w)) [EvCommit role].
Proof.
  split_and!; [done | | done | discriminate].
  apply paired_other; [discriminate | constructor].
Qed.

Lemma Writes_commit_persist role st bytes w :
  Writes w (mkWorld st (<[role := bytes]> (dir w))
              (EvPersist role :: EvCommit role :: log w))
    [EvPersist role; EvCommit role].
Proof.
  split_and!; [done | | | discriminate].
  - apply paired_persist. constructor.
  - intros k Hk. simpl. apply lookup_insert_ne. intros ->. apply Hk.
    unfold persisted. csimpl. left.
Qed.

(** A download is one request; what it returns fits the cap. *)
Lemma downloadBytes_run url maxLength w :
  exists r, run (downloadBytes fetch url maxLength) w = (emit (EvFetch url) w, r) /\
    (forall bytes, r = Ok bytes -> 0 <= maxLength ->
       Z.of_nat (length bytes) <= maxLength).
Proof.
  pose proof (run_downloadBytes_world url maxLength w) as Hw.
  destruct (run (downloadBytes fetch url maxLength) w) as [w1 r] eqn:Hrun.
  simpl in Hw. subst w1. exists r. split; [done|].
  intros bytes -> Hmax. rewrite run_downloadBytes in Hrun.
  destruct (run (fetch url) w) as [w1 [reader|e]]; [|discriminate].
  apply readChunks_ok in Hrun; [|reflexivity | exact Hmax].
  by destruct Hrun as (_ & _ & -> & Hle).
Qed.

(** One pass of a download followed by an update and a write, as the
    loaders have it inside a [try] block. *)
Definition fetchCommitPersist (role url : string) (maxLength : Z)
    (update : Store -> Buffer -> Outcome Store) : Task unit :=
  let! bytesData := await (downloadBytes fetch url maxLength) in
  let! _ := trustedSet_update role (fun st => update st bytesData) in
  persistMetadata role bytesData.

Lemma fetchCommitPersist_run role url maxLength update w :
  (exists e, run (fetchCommitPersist role url maxLength update) w =
               (emit (EvFetch url) w, Err e)) \/
  (exists bytesData st,
     update (trustedSet w) bytesData = Ok st /\
     (0 <= maxLength -> Z.of_nat (length bytesData) <= maxLength) /\
     run (fetchCommitPersist role url maxLength update) w =
       (mkWorld st (<[role := utf8 bytesData]> (dir w))
          (EvPersist role :: EvCommit role :: EvFetch url :: log w), Ok tt)).
Proof.
  unfold fetchCommitPersist. rewrite run_bind, run_await.
  destruct (downloadBytes_run url maxLength w) as (r & -> & Hlen).
  destruct r as [bytesData|e]; [|left; eauto].
  rewrite run_bind. unfold trustedSet_update, persistMetadata.
  rewrite !run_sync. cbn [emit trustedSet dir log].
  destruct (update (trustedSet w) bytesData) as [st|e] eqn:Hup; [|left; eauto].
  right. exists bytesData, st. split_and!; [done | auto | done].
Qed.

(** The loop of [loadRoot]: [k] requests for consecutive versions, the
    first [c] of them committed and written, [c] being [k] or [k - 1]. *)
Lemma loadRoot_for_sequence n : forall version upperBound w,
  exists (k c : nat) ev,
    Writes w (run (loadRoot_for n version upperBound) w).1 ev /\
    fetched ev = rev (rootUrl <$> seqZ version (Z.of_nat k)) /\
    committed ev = replicate c "root" /\
    persisted ev = replicate c "root" /\
    (c = k \/ S c = k) /\
    (k <= n)%nat /\ Z.of_nat k <= Z.max 0 (upperBound - version + 1) /\
    (c = k -> k = n \/ Z.of_nat k = Z.max 0 (upperBound - version + 1)).
Proof.
  induction n as [|n IH]; intros version upperBound w; simpl.
  { exists O, O, []. split_and!; first [apply Writes_refl | done | lia | auto]. }
  destruct (Z.leb_spec version upperBound) as [Hle|Hgt].
  2:{ exists O, O, [].
      split_and!; first [apply Writes_refl | done | lia | auto | right; lia]. }
  rewrite run_bind, run_try_catch.
  change (let! bytesData := await (downloadBytes fetch
                                     (path_join metadataBaseUrl (pretty version +:+ ".root.json"))
                                     (rootMaxLength config)) in
          let! _ := trustedSet_update "root" (fun st => updateRoot st bytesData) in
          let! _ := persistMetadata "root" bytesData in
          ret true)
    with (let! bytesData := await (downloadBytes fetch (rootUrl version)
                                     (rootMaxLength config)) in
          let! _ := trustedSet_update "root" (fun st => updateRoot st bytesData) in
          let! _ := persistMetadata "root" bytesData in
          ret true).
  rewrite run_bind, run_await.
  destruct (downloadBytes_run (rootUrl version) (rootMaxLength config) w)
    as (r & -> & _).
  assert (Hstop : exists (k c : nat) ev,
            Writes w (emit (EvFetch (rootUrl version)) w) ev /\
            fetched ev = rev (rootUrl <$> seqZ version (Z.of_nat k)) /\
            committed ev = replicate c "root" /\
            persisted ev = replicate c "root" /\
            (c = k \/ S c = k) /\
            (k <= S n)%nat /\ Z.of_nat k <= Z.max 0 (upperBound - version + 1) /\
            (c = k -> k = S n \/ Z.of_nat k = Z.max 0 (upperBound - version + 1))).
  { exists 1%nat, O, [EvFetch (rootUrl version)].
    split_and!; first [by apply Writes_emit | done | lia | auto]. }
  destruct r as [bytesData|e]; [|rewrite run_ret; exact Hstop].
  rewrite run_bind. unfold trustedSet_update at 1. rewrite run_sync. simpl.
  destruct (updateRoot (trustedSet w) bytesData) as [st|e];
    [|rewrite run_ret; exact Hstop].
  clear Hstop.
  rewrite run_bind. unfold persistMetadata at 1. rewrite run_sync, run_ret.
  match goal with |- context [run (loadRoot_for n ?ver upperBound) ?w0] =>
    destruct (IH ver upperBound w0)
      as (k & c & ev & HW & Hf & Hc & Hp & Hck & Hkn & Hku & Hend);
    set (w3 := w0) in * end.
  exists (S k), (S c), (ev ++ [EvPersist "root"; EvCommit "root"; EvFetch (rootUrl version)]).
  split_and!.
  - eapply Writes_trans; [|exact HW].
    apply (Writes_trans w (emit (EvFetch (rootUrl version)) w) w3
             [EvFetch (rootUrl version)] [EvPersist "root"; EvCommit "root"]).
    + by apply Writes_emit.
    + apply (Writes_commit_persist "root" st (utf8 bytesData)
               (emit (EvFetch (rootUrl version)) w)).
  - rewrite fetched_app, Hf. rewrite Nat2Z.inj_succ, (seqZ_cons version) by lia.
    rewrite Z.pred_succ. csimpl. reflexivity.
  - rewrite committed_app, Hc. by rewrite replicate_S_end.
  - rewrite persisted_app, Hp. by rewrite replicate_S_end.
  - lia.
  - lia.
  - lia.
  - intros Heq. destruct Hend as [->|Hend]; [lia | left; done | right; lia].
Qed.

Lemma loadRoot_for_Ok n version upperBound w :
  run (loadRoot_for n version upperBound) w =
    ((run (loadRoot_for n version upperBound) w).1, Ok tt).
Proof.
  pose proof (loadRoot_for_ok n version upperBound w) as Hok.
  destruct (run (loadRoot_for n version upperBound) w) as [w' r].
  simpl in *. by subst r.
Qed.

Lemma Writes_fetch url w : Writes w (emit (EvFetch url) w) [EvFetch url].
Proof. by apply Writes_emit. Qed.

Lemma Writes_fetch_commit_persist role url st bytes w :
  Writes w (mkWorld st (<[role := bytes]> (dir w))
              (EvPersist role :: EvCommit role :: EvFetch url :: log w))
    [EvPersist role; EvCommit role; EvFetch url].
Proof.
  apply (Writes_trans w (emit (EvFetch url) w) _ [EvFetch url]
           [EvPersist role; EvCommit role]).
  - apply Writes_fetch.
  - apply (Writes_commit_persist role st bytes (emit (EvFetch url) w)).
Qed.

(** The local attempt of [loadTimestamp] either changes nothing or
    commits the file of the directory. *)
Lemma loadTimestamp_local_run w :
  run loadTimestamp_local w = (w, Ok tt) \/
  exists data st,
    dir w !! "timestamp" = Some data /\
    updateTimestamp (trustedSet w) data = Ok st /\
    run loadTimestamp_local w =
      (mkWorld st (dir w) (EvCommit "timestamp" :: log w), Ok tt).
Proof.
  unfold loadTimestamp_local, loadLocalMetadata, trustedSet_update.
  rewrite run_try_catch, run_bind, !run_sync.
  destruct (dir w !! "timestamp") as [data|] eqn:Hd; [|left; by rewrite run_ret].
  rewrite run_sync.
  destruct (updateTimestamp (trustedSet w) data) as [st|e] eqn:Hup.
  - right. by exists data, st.
  - left. by rewrite run_ret.
Qed.

(** The remote part of [loadTimestamp], from the world [w1] the local
    attempt left. *)
Lemma loadTimestamp_run w :
  let w1 := (run loadTimestamp_local w).1 in
  let url := path_join metadataBaseUrl "timestamp.json" in
  (exists e, run loadTimestamp w = (emit (EvFetch url) w1, Err e)) \/
  (exists bytesData,
     updateTimestamp (trustedSet w1) bytesData = Err EqualVersionError /\
     run loadTimestamp w = (emit (EvFetch url) w1, Ok tt)) \/
  (exists bytesData st,
     updateTimestamp (trustedSet w1) bytesData = Ok st /\
     (0 <= timestampMaxLength config ->
      Z.of_nat (length bytesData) <= timestampMaxLength config) /\
     run loadTimestamp w =
       (mkWorld st (<["timestamp" := utf8 bytesData]> (dir w1))
          (EvPersist "timestamp" :: EvCommit "timestamp" :: EvFetch url :: log w1),
        Ok tt)).
Proof.
  intros w1 url. unfold loadTimestamp. rewrite run_bind.
  pose proof (loadTimestamp_local_ok w) as Hok.
  destruct (run loadTimestamp_local w) as [w1' r] eqn:Hl.
  simpl in Hok. subst r. subst w1. cbn [fst].
  rewrite run_bind, run_await.
  destruct (downloadBytes_run url (timestampMaxLength config) w1') as (r & Hdl & Hlen).
  fold url. rewrite Hdl.
  destruct r as [bytesData|e]; [|left; eauto].
  rewrite run_bind, run_try_catch, run_bind.
  unfold trustedSet_update, persistMetadata. rewrite !run_sync.
  cbn [emit trustedSet dir log].
  destruct (updateTimestamp (trustedSet w1') bytesData) as [st|e] eqn:Hup.
  - right; right. exists bytesData, st. rewrite run_ret, run_sync. auto.
  - destruct (decide (e = EqualVersionError)) as [->|Hne].
    + right; left. exists bytesData. by rewrite run_ret, run_ret.
    + left. exists e. destruct e; try (by rewrite run_throw, run_throw); done.
Qed.

(** How [loadSnapshot] can go. *)
Lemma loadSnapshot_run w :
  (exists data st,
     dir w !! "snapshot" = Some data /\
     updateSnapshot (trustedSet w) data true = Ok st /\
     run loadSnapshot w =
       (mkWorld st (dir w) (EvCommit "snapshot" :: log w), Ok tt)) \/
  (timestamp_snapshotMeta (trustedSet w) = None /\
   run loadSnapshot w = (w, Err (ReferenceError "No timestamp metadata"))) \/
  (exists snapshotMeta,
     timestamp_snapshotMeta (trustedSet w) = Some snapshotMeta /\
     let maxLength :=
       orNumber (mf_length snapshotMeta) (snapshotMaxLength config) in
     let url :=
       path_join metadataBaseUrl
         (versionedName
            (if root_consistentSnapshot (trustedSet w)
             then Some (mf_version snapshotMeta) else None) "snapshot") in
     run loadSnapshot w =
       (emit (EvFetch url) w, Err (RuntimeError "Unable to load snapshot metadata")) \/
     exists bytesData st,
       updateSnapshot (trustedSet w) bytesData false = Ok st /\
       (0 <= maxLength -> Z.of_nat (length bytesData) <= maxLength) /\
       run loadSnapshot w =
         (mkWorld st (<["snapshot" := utf8 bytesData]> (dir w))
            (EvPersist "snapshot" :: EvCommit "snapshot" :: EvFetch url :: log w),
          Ok tt)).
Proof.
  unfold loadSnapshot. rewrite run_try_catch.
  assert (Hlocal :
    (exists data st,
       dir w !! "snapshot" = Some data /\
       updateSnapshot (trustedSet w) data true = Ok st /\
       run (let! data := loadLocalMetadata "snapshot" in
            trustedSet_update "snapshot" (fun st => updateSnapshot st data true)) w =
         (mkWorld st (dir w) (EvCommit "snapshot" :: log w), Ok tt)) \/
    (exists e,
       run (let! data := loadLocalMetadata "snapshot" in
            trustedSet_update "snapshot" (fun st => updateSnapshot st data true)) w =
         (w, Err e))).
  { unfold loadLocalMetadata, trustedSet_update. rewrite run_bind, !run_sync.
    destruct (dir w !! "snapshot") as [data|] eqn:Hd; [|right; eauto].
    rewrite run_sync.
    destruct (updateSnapshot (trustedSet w) data true) as [st|e] eqn:Hup.
    - left. by exists data, st.
    - right. eauto. }
  destruct Hlocal as [(data & st & Hd & Hup & ->)|(e & ->)].
  { left. by exists data, st. }
  right. rewrite run_bind. unfold get_trustedSet. rewrite run_sync.
  destruct (timestamp_snapshotMeta (trustedSet w)) as [snapshotMeta|] eqn:Hmeta.
  2:{ left. by rewrite run_throw. }
  right. exists snapshotMeta. split; [done|]. cbv zeta.
  rewrite !run_try_catch.
  match goal with |- context [downloadBytes fetch ?url ?maxLength] =>
    destruct (fetchCommitPersist_run "snapshot" url maxLength
                (fun st bytes => updateSnapshot st bytes false) w)
      as [(e' & Hrun)|(bytesData & st & Hup & Hlen & Hrun)];
      unfold fetchCommitPersist in Hrun; rewrite Hrun
  end.
  - left. by rewrite run_throw.
  - right. by exists bytesData, st.
Qed.

(** How the [catch] block of [loadTargets] can go. *)
Lemma loadTargets_remote_run role parentRole w :
  (exists msg,
     (msg = ReferenceError "No snapshot metadata" \/
      msg = TypeError "metaInfo is undefined") /\
     run (loadTargets_remote role parentRole) w = (w, Err msg)) \/
  (exists url,
     run (loadTargets_remote role parentRole) w =
       (emit (EvFetch url) w, Err (RuntimeError "Unable to load targets"))) \/
  (exists url bytesData st,
     updateDelegatedTargets (trustedSet w) bytesData role parentRole = Ok st /\
     run (loadTargets_remote role parentRole) w =
       (mkWorld st (<[role := utf8 bytesData]> (dir w))
          (EvPersist role :: EvCommit role :: EvFetch url :: log w), Ok tt)).
Proof.
  unfold loadTargets_remote. rewrite run_bind. unfold get_trustedSet. rewrite run_sync.
  destruct (snapshot_meta (trustedSet w)) as [meta|].
  2:{ left. eexists. split; [left; reflexivity | by rewrite run_throw]. }
  destruct (meta !! (role +:+ ".json")) as [metaInfo|].
  2:{ left. eexists. split; [right; reflexivity | by rewrite run_throw]. }
  right. rewrite run_try_catch.
  match goal with |- context [downloadBytes fetch ?url ?maxLength] =>
    destruct (fetchCommitPersist_run role url maxLength
                (fun st bytes => updateDelegatedTargets st bytes role parentRole) w)
      as [(e' & Hrun)|(bytesData & st & Hup & Hlen & Hrun)];
    unfold fetchCommitPersist in Hrun; rewrite Hrun;
    [left; exists url | right; exists url, bytesData, st]
  end.
  - by rewrite run_throw.
  - done.
Qed.

(** How the body of [loadTargets] can go. *)
Lemma loadTargets_body_run role parentRole w :
  (exists md, getRole (trustedSet w) role = Some md /\
     run (loadTargets_body role parentRole) w = (w, Ok (Some md))) \/
  getRole (trustedSet w) role = None /\
  ((exists data st,
      dir w !! role = Some data /\
      updateDelegatedTargets (trustedSet w) data role parentRole = Ok st /\
      run (loadTargets_body role parentRole) w =
        (mkWorld st (dir w) (EvCommit role :: log w), Ok (getRole st role))) \/
   (exists msg,
      (msg = ReferenceError "No snapshot metadata" \/
       msg = TypeError "metaInfo is undefined") /\
      run (loadTargets_body role parentRole) w = (w, Err msg)) \/
   (exists url,
      run (loadTargets_body role parentRole) w =
        (emit (EvFetch url) w, Err (RuntimeError "Unable to load targets"))) \/
   (exists url bytesData st,
      updateDelegatedTargets (trustedSet w) bytesData role parentRole = Ok st /\
      run (loadTargets_body role parentRole) w =
        (mkWorld st (<[role := utf8 bytesData]> (dir w))
           (EvPersist role :: EvCommit role :: EvFetch url :: log w),
         Ok (getRole st role)))).
Proof.
  assert (Hrun : run (loadTargets_body role parentRole) w =
            match getRole (trustedSet w) role with
            | Some md => (w, Ok (Some md))
            | None =>
                match run (try_catch
                             (let! buffer := loadLocalMetadata role in
                              trustedSet_update role
                                (fun st => updateDelegatedTargets st buffer role parentRole))
                             (fun error => loadTargets_remote role parentRole)) w with
                | (w1, Ok _) => (w1, Ok (getRole (trustedSet w1) role))
                | (w1, Err e) => (w1, Err e)
                end
            end).
  { unfold loadTargets_body, get_trustedSet. rewrite run_bind, run_sync.
    destruct (getRole (trustedSet w) role) as [md|]; [by rewrite run_ret|].
    rewrite run_bind. destruct (run (try_catch _ _) w) as [w1 [[]|e]]; [|done].
    by rewrite run_bind, run_sync, run_ret. }
  rewrite Hrun. clear Hrun.
  destruct (getRole (trustedSet w) role) as [md|] eqn:Hrole.
  { left. by exists md. }
  right. split; [done|]. rewrite run_try_catch.
  assert (Hlocal :
    (exists data st,
       dir w !! role = Some data /\
       updateDelegatedTargets (trustedSet w) data role parentRole = Ok st /\
       run (let! buffer := loadLocalMetadata role in
            trustedSet_update role
              (fun st => updateDelegatedTargets st buffer role parentRole)) w =
         (mkWorld st (dir w) (EvCommit role :: log w), Ok tt)) \/
    (exists e,
       run (let! buffer := loadLocalMetadata role in
            trustedSet_update role
              (fun st => updateDelegatedTargets st buffer role parentRole)) w =
         (w, Err e))).
  { unfold loadLocalMetadata, trustedSet_update. rewrite run_bind, !run_sync.
    destruct (dir w !! role) as [data|] eqn:Hd; [|right; eauto].
    rewrite run_sync.
    destruct (updateDelegatedTargets (trustedSet w) data role parentRole)
      as [st|e] eqn:Hup.
    - left. by exists data, st.
    - right. eauto. }
  destruct Hlocal as [(data & st & Hd & Hup & ->)|(e & ->)].
  { left. by exists data, st. }
  right.
  destruct (loadTargets_remote_run role parentRole w)
    as [(msg & Hmsg & ->)|[(url & ->)|(url & bytesData & st & Hup & ->)]].
  - left. by exists msg.
  - right; left. by exists url.
  - right; right. by exists url, bytesData, st.
Qed.


Lemma run_loadTargets role parentRole w :
  run (loadTargets role parentRole) w =
  run (loadTargets_body role parentRole)
    (emit (EvLoadTargets (mkDelegation role parentRole)) w).
Proof. unfold loadTargets. by rewrite run_bind, run_sync. Qed.

(** What the body of [loadTargets] requests, commits and writes, and
    what it answers. *)
Lemma loadTargets_body_summary role parentRole w :
  exists ev (g : nat),
    Writes w (run (loadTargets_body role parentRole) w).1 ev /\
    Forall is_io ev /\
    committed ev = replicate g role /\ (g <= 1)%nat /\
    (forall k, k ∈ persisted ev -> k = role) /\
    (length (fetched ev) <= 1)%nat /\
    (forall md0, getRole (trustedSet w) role = Some md0 ->
       (run (loadTargets_body role parentRole) w).2 = Ok (Some md0) /\ ev = []) /\
    match (run (loadTargets_body role parentRole) w).2 with
    | Ok md =>
        md = getRole (trustedSet (run (loadTargets_body role parentRole) w).1) role
    | Err e =>
        g = O /\ persisted ev = [] /\
        exists msg, e = ReferenceError msg \/ e = TypeError msg \/ e = RuntimeError msg
    end.
Proof.
  destruct (loadTargets_body_run role parentRole w)
    as [(md & Hrole & ->)
       |(Hrole & [(data & st & Hd & Hup & ->)
                 |[(msg & Hmsg & ->)
                  |[(url & ->)|(url & bytesData & st & Hup & ->)]]])];
    cbn [fst snd];
    [ exists [], O | exists [EvCommit role], 1%nat | exists [], O
    | exists [EvFetch url], O
    | exists [EvPersist role; EvCommit role; EvFetch url], 1%nat ];
    split_and!;
    try solve
      [ done | apply Writes_refl | apply Writes_fetch | apply Writes_commit
      | apply Writes_fetch_commit_persist | by repeat constructor
      | lia | simpl; lia
      | intros md0; rewrite Hrole; by intros [= ->]
      | destruct Hmsg as [->| ->]; eauto
      | eauto
      | intros k Hk; unfold persisted in Hk; csimpl in Hk;
        first [ by apply elem_of_nil in Hk
              | by apply list_elem_of_singleton in Hk ] ].
Qed.

Lemma loadTimestamp_summary w :
  exists ev (t : nat),
    Writes w (run loadTimestamp w).1 ev /\
    committed ev = replicate t "timestamp" /\ (t <= 2)%nat /\
    (forall k, k ∈ persisted ev -> k = "timestamp") /\
    length (fetched ev) = 1%nat.
Proof.
  assert (Hlocal : exists ev1 (t1 : nat),
            Writes w (run loadTimestamp_local w).1 ev1 /\
            committed ev1 = replicate t1 "timestamp" /\ (t1 <= 1)%nat /\
            persisted ev1 = [] /\ fetched ev1 = []).
  { destruct (loadTimestamp_local_run w) as [->|(data & st & _ & _ & ->)];
      cbn [fst]; [exists [], O | exists [EvCommit "timestamp"], 1%nat];
      split_and!; try solve [done | apply Writes_refl | apply Writes_commit | lia]. }
  destruct Hlocal as (ev1 & t1 & HW1 & Hc1 & Ht1 & Hp1 & Hf1).
  pose proof (loadTimestamp_run w) as Hrun. cbv zeta in Hrun.
  set (w1 := (run loadTimestamp_local w).1) in *.
  set (url := path_join metadataBaseUrl "timestamp.json") in *.
  assert (Hremote : exists ev2 (t2 : nat),
            Writes w1 (run loadTimestamp w).1 ev2 /\
            committed ev2 = replicate t2 "timestamp" /\ (t2 <= 1)%nat /\
            (forall k, k ∈ persisted ev2 -> k = "timestamp") /\
            length (fetched ev2) = 1%nat).
  { destruct Hrun as [(e & ->)|[(bytesData & _ & ->)|(bytesData & st & _ & _ & ->)]];
      cbn [fst];
      [ exists [EvFetch url], O | exists [EvFetch url], O
      | exists [EvPersist "timestamp"; EvCommit "timestamp"; EvFetch url], 1%nat ];
      split_and!;
      try solve
        [ done | apply Writes_fetch | apply Writes_fetch_commit_persist | lia
        | intros k Hk; unfold persisted in Hk; csimpl in Hk;
          first [ by apply elem_of_nil in Hk
                | by apply list_elem_of_singleton in Hk ] ]. }
  destruct Hremote as (ev2 & t2 & HW2 & Hc2 & Ht2 & Hp2 & Hf2).
  exists (ev2 ++ ev1), (t2 + t1)%nat. split_and!.
  - eapply Writes_trans; eassumption.
  - by rewrite committed_app, Hc1, Hc2, replicate_add.
  - lia.
  - intros k. rewrite persisted_app, Hp1, app_nil_r. apply Hp2.
  - by rewrite fetched_app, Hf1, app_nil_r.
Qed.

Lemma loadSnapshot_summary w :
  exists ev (s : nat),
    Writes w (run loadSnapshot w).1 ev /\
    committed ev = replicate s "snapshot" /\ (s <= 1)%nat /\
    (forall k, k ∈ persisted ev -> k = "snapshot") /\
    (length (fetched ev) <= 1)%nat /\
    ((run loadSnapshot w).2 = Ok tt -> s = 1%nat).
Proof.
  destruct (loadSnapshot_run w)
    as [(data & st & _ & _ & ->)
       |[(_ & ->)|(meta & _ & [->|(bytesData & st & _ & _ & ->)])]];
    cbn [fst snd];
    [ exists [EvCommit "snapshot"], 1%nat | exists [], O
    | eexists [EvFetch _], O
    | eexists [EvPersist "snapshot"; EvCommit "snapshot"; EvFetch _], 1%nat ];
    split_and!;
    try solve
      [ done | apply Writes_refl | apply Writes_fetch | apply Writes_commit
      | apply Writes_fetch_commit_persist | lia | simpl; lia
      | intros k Hk; unfold persisted in Hk; csimpl in Hk;
        first [ by apply elem_of_nil in Hk
              | by apply list_elem_of_singleton in Hk ] ].
Qed.

Lemma run_refresh_rest wt :
  run (let! _ := await loadSnapshot in
       let! _ := await (loadTargets "targets" "root") in
       ret tt) wt =
  match run loadSnapshot wt with
  | (ws, Ok _) =>
      match run (loadTargets "targets" "root") ws with
      | (wg, Ok _) => (wg, Ok tt)
      | (wg, Err e) => (wg, Err e)
      end
  | (ws, Err e) => (ws, Err e)
  end.
Proof.
  rewrite run_bind, run_await.
  destruct (run loadSnapshot wt) as [ws [[]|e]]; [|done].
  rewrite run_bind, run_await.
  destruct (run (loadTargets "targets" "root") ws) as [wg [md|e]]; [|done].
  by rewrite run_ret.
Qed.

Lemma loadRoot_summary w :
  exists (k c : nat) ev,
    Writes w (run loadRoot w).1 ev /\
    fetched ev = rev (rootUrl <$> seqZ (root_version (trustedSet w) + 1) (Z.of_nat k)) /\
    committed ev = replicate c "root" /\
    persisted ev = replicate c "root" /\
    (c = k \/ S c = k) /\
    Z.of_nat k <= Z.max 0 (maxRootRotations config + 1) /\
    (c = k -> Z.of_nat k = Z.max 0 (maxRootRotations config + 1)).
Proof.
  unfold loadRoot. rewrite run_bind. unfold get_trustedSet. rewrite run_sync.
  cbv beta iota zeta.
  match goal with |- context [run (loadRoot_for ?n ?ver ?ub) w] =>
    destruct (loadRoot_for_sequence n ver ub w)
      as (k & c & ev & HW & Hf & Hc & Hp & Hck & Hkn & Hku & Hend) end.
  exists k, c, ev. split_and!; try done; [lia|].
  intros Heq. destruct (Hend Heq); lia.
Qed.

(** X1. [loadRoot] never throws. It requests consecutive Root versions,
    starting right after the trusted one, [k] of them, at most
    [maxRootRotations + 1]; every version but possibly the last requested
    is committed as the Root and then written to [root.json], and nothing
    else is committed or written; the loop stops at the first version
    that cannot be downloaded or is refused, or else runs to its bound. *)
Theorem loadRoot_consecutive w :
  exists (k c : nat) ev,
    run loadRoot w = ((run loadRoot w).1, Ok tt) /\
    Writes w (run loadRoot w).1 ev /\
    fetched ev =
      rev (rootUrl <$> seqZ (root_version (trustedSet w) + 1) (Z.of_nat k)) /\
    committed ev = replicate c "root" /\
    persisted ev = replicate c "root" /\
    (c = k \/ S c = k) /\
    Z.of_nat k <= Z.max 0 (maxRootRotations config + 1) /\
    (c = k -> Z.of_nat k = Z.max 0 (maxRootRotations config + 1)).
Proof.
  destruct (loadRoot_summary w) as (k & c & ev & H).
  exists k, c, ev. split; [|exact H].
  pose proof (loadRoot_ok w) as Hok.
  destruct (run loadRoot w) as [w' r]. simpl in *. by subst r.
Qed.

(** [loadTimestamp] in closed form, from the world [w1] the local
    attempt left and what the download returns there. *)
Lemma loadTimestamp_closed w :
  let url := path_join metadataBaseUrl "timestamp.json" in
  let w1 := (run loadTimestamp_local w).1 in
  run loadTimestamp w =
  match (run (downloadBytes fetch url (timestampMaxLength config)) w1).2 with
  | Ok bytesData =>
      match updateTimestamp (trustedSet w1) bytesData with
      | Ok st =>
          (mkWorld st (<["timestamp" := utf8 bytesData]> (dir w1))
             (EvPersist "timestamp" :: EvCommit "timestamp" :: EvFetch url :: log w1),
           Ok tt)
      | Err e =>
          (emit (EvFetch url) w1,
           if bool_decide (e = EqualVersionError) then Ok tt else Err e)
      end
  | Err e => (emit (EvFetch url) w1, Err e)
  end.
Proof.
  intros url w1. unfold loadTimestamp. rewrite run_bind.
  pose proof (loadTimestamp_local_ok w) as Hok.
  destruct (run loadTimestamp_local w) as [w1' r] eqn:Hl.
  simpl in Hok. subst r. subst w1. cbn [fst].
  rewrite run_bind, run_await.
  destruct (downloadBytes_run url (timestampMaxLength config) w1') as (r & Hdl & _).
  fold url. rewrite Hdl. cbn [snd].
  destruct r as [bytesData|e]; [|done].
  rewrite run_bind, run_try_catch, run_bind.
  unfold trustedSet_update, persistMetadata. rewrite !run_sync.
  cbn [emit trustedSet dir log].
  destruct (updateTimestamp (trustedSet w1') bytesData) as [st|e] eqn:Hup.
  - by rewrite run_ret, run_sync.
  - destruct e; by rewrite ?run_throw, ?run_ret.
Qed.

(** X2. [loadTimestamp] makes exactly one request, for [timestamp.json],
    from the world the local attempt left, whatever that attempt did and
    however the call ends. A download that fails is the outcome of the
    call. When the download returns bytes, the outcome is decided by
    [updateTimestamp] on the trusted set of that world and those bytes:
    if it accepts them, the call returns, the trusted set is the one the
    update gave, [persistMetadata] was called once, for the timestamp,
    and if [timestamp.json] differs from what it was it holds those
    bytes, which fit [timestampMaxLength]; if it refuses them, nothing
    is written and the trusted set stays, and the call returns for
    [EqualVersionError] and throws the error otherwise. Every write
    follows a commit, and the directory changes at written names
    only. *)
Theorem loadTimestamp_outcome w :
  let url := path_join metadataBaseUrl "timestamp.json" in
  let w1 := (run loadTimestamp_local w).1 in
  let download :=
    (run (downloadBytes fetch url (timestampMaxLength config)) w1).2 in
  let w' := (run loadTimestamp w).1 in
  let r := (run loadTimestamp w).2 in
  exists ev,
    Writes w w' ev /\ fetched ev = [url] /\
    match download with
    | Ok bytesData =>
        match updateTimestamp (trustedSet w1) bytesData with
        | Ok st =>
            r = Ok tt /\ trustedSet w' = st /\
            persisted ev = ["timestamp"] /\
            (dir w' !! "timestamp" <> dir w !! "timestamp" ->
             dir w' !! "timestamp" = Some (utf8 bytesData)) /\
            (0 <= timestampMaxLength config ->
             Z.of_nat (length bytesData) <= timestampMaxLength config)
        | Err e =>
            r = (if bool_decide (e = EqualVersionError) then Ok tt else Err e) /\
            trustedSet w' = trustedSet w1 /\
            persisted ev = [] /\ dir w' = dir w
        end
    | Err e =>
        r = Err e /\ trustedSet w' = trustedSet w1 /\
        persisted ev = [] /\ dir w' = dir w
    end.
Proof.
  intros url w1 download w' r.
  assert (Hlocal : exists ev1,
            Writes w w1 ev1 /\ persisted ev1 = [] /\ fetched ev1 = [] /\
            dir w1 = dir w).
  { subst w1.
    destruct (loadTimestamp_local_run w) as [->|(data & st & _ & _ & ->)];
      cbn [fst]; [exists [] | exists [EvCommit "timestamp"]];
      split_and!; try solve [done | apply Writes_refl | apply Writes_commit]. }
  destruct Hlocal as (ev1 & HW1 & Hp1 & Hf1 & Hd1).
  pose proof (loadTimestamp_closed w) as Hrun. cbv zeta in Hrun.
  fold url w1 download in Hrun. subst w' r. rewrite Hrun. clear Hrun.
  destruct (downloadBytes_run url (timestampMaxLength config) w1) as (r & Hdl & Hlen).
  assert (Hdr : download = r) by (subst download; by rewrite Hdl).
  rewrite Hdr. clear Hdr Hdl.
  assert (Hfail : exists ev,
            Writes w (emit (EvFetch url) w1) ev /\ fetched ev = [url] /\
            persisted ev = [] /\ dir (emit (EvFetch url) w1) = dir w).
  { exists ([EvFetch url] ++ ev1). split_and!.
    - eapply Writes_trans; [exact HW1 | apply Writes_fetch].
    - by rewrite fetched_app, Hf1.
    - by rewrite persisted_app, Hp1.
    - exact Hd1. }
  destruct Hfail as (evf & HWf & Hff & Hpf & Hdf).
  destruct r as [bytesData|e].
  2:{ exists evf. by split_and!. }
  destruct (updateTimestamp (trustedSet w1) bytesData) as [st|e].
  2:{ exists evf. by split_and!. }
  exists ([EvPersist "timestamp"; EvCommit "timestamp"; EvFetch url] ++ ev1).
  cbn [fst snd trustedSet dir]. split_and!.
  - eapply Writes_trans; [exact HW1 | apply Writes_fetch_commit_persist].
  - by rewrite fetched_app, Hf1.
  - done.
  - done.
  - by rewrite persisted_app, Hp1.
  - intros _. apply lookup_insert_eq.
  - auto.
Qed.

(** The state of the trusted set when the file of the directory is
    accepted for the role, if it is. *)
Definition localSnapshot (w : World) : option Store :=
  data ← dir w !! "snapshot";
  match updateSnapshot (trustedSet w) data true with
  | Ok st => Some st
  | Err _ => None
  end.

Lemma loadSnapshot_closed w :
  run loadSnapshot w =
  match localSnapshot w with
  | Some st => (mkWorld st (dir w) (EvCommit "snapshot" :: log w), Ok tt)
  | None =>
      match timestamp_snapshotMeta (trustedSet w) with
      | None => (w, Err (ReferenceError "No timestamp metadata"))
      | Some snapshotMeta =>
          let maxLength :=
            orNumber (mf_length snapshotMeta) (snapshotMaxLength config) in
          let url :=
            path_join metadataBaseUrl
              (versionedName
                 (if root_consistentSnapshot (trustedSet w)
                  then Some (mf_version snapshotMeta) else None) "snapshot") in
          match (run (downloadBytes fetch url maxLength) w).2 with
          | Ok bytesData =>
              match updateSnapshot (trustedSet w) bytesData false with
              | Ok st =>
                  (mkWorld st (<["snapshot" := utf8 bytesData]> (dir w))
                     (EvPersist "snapshot" :: EvCommit "snapshot"
                        :: EvFetch url :: log w), Ok tt)
              | Err _ =>
                  (emit (EvFetch url) w,
                   Err (RuntimeError "Unable to load snapshot metadata"))
              end
          | Err _ =>
              (emit (EvFetch url) w,
               Err (RuntimeError "Unable to load snapshot metadata"))
          end
      end
  end.
Proof.
  unfold loadSnapshot, localSnapshot, loadLocalMetadata, trustedSet_update,
    persistMetadata, get_trustedSet.
  rewrite run_try_catch, run_bind, !run_sync.
  assert (Hcatch :
    run (let! st := sync (fun w0 : World => (w0, Ok (trustedSet w0))) in
         match timestamp_snapshotMeta st with
         | None => throw (ReferenceError "No timestamp metadata")
         | Some snapshotMeta =>
             try_catch
               (let! bytesData :=
                  await (downloadBytes fetch
                           (path_join metadataBaseUrl
                              (versionedName
                                 (if root_consistentSnapshot st
                                  then Some (mf_version snapshotMeta) else None)
                                 "snapshot"))
                           (orNumber (mf_length snapshotMeta)
                              (snapshotMaxLength config))) in
                let! _ := sync (fun w0 : World =>
                            match updateSnapshot (trustedSet w0) bytesData false with
                            | Ok st0 =>
                                (mkWorld st0 (dir w0) (EvCommit "snapshot" :: log w0),
                                 Ok tt)
                            | Err e => (w0, Err e)
                            end) in
                sync (fun w0 : World =>
                  (mkWorld (trustedSet w0)
                     (<["snapshot" := utf8 bytesData]> (dir w0))
                     (EvPersist "snapshot" :: log w0), Ok tt)))
               (fun _ => throw (RuntimeError "Unable to load snapshot metadata"))
         end) w =
    match timestamp_snapshotMeta (trustedSet w) with
    | None => (w, Err (ReferenceError "No timestamp metadata"))
    | Some snapshotMeta =>
        let maxLength :=
          orNumber (mf_length snapshotMeta) (snapshotMaxLength config) in
        let url :=
          path_join metadataBaseUrl
            (versionedName
               (if root_consistentSnapshot (trustedSet w)
                then Some (mf_version snapshotMeta) else None) "snapshot") in
        match (run (downloadBytes fetch url maxLength) w).2 with
        | Ok bytesData =>
            match updateSnapshot (trustedSet w) bytesData false with
            | Ok st =>
                (mkWorld st (<["snapshot" := utf8 bytesData]> (dir w))
                   (EvPersist "snapshot" :: EvCommit "snapshot"
                      :: EvFetch url :: log w), Ok tt)
            | Err _ =>
                (emit (EvFetch url) w,
                 Err (RuntimeError "Unable to load snapshot metadata"))
            end
        | Err _ =>
            (emit (EvFetch url) w,
             Err (RuntimeError "Unable to load snapshot metadata"))
        end
    end).
  { rewrite run_bind, run_sync. cbv beta iota.
    destruct (timestamp_snapshotMeta (trustedSet w)) as [snapshotMeta|];
      [|by rewrite run_throw].
    cbv zeta. rewrite run_try_catch, run_bind, run_await.
    match goal with |- context [downloadBytes fetch ?url ?maxLength] =>
      destruct (downloadBytes_run url maxLength w) as (r & -> & _)
    end.
    cbn [snd]. destruct r as [bytesData|e]; [|by rewrite run_throw].
    rewrite run_bind, !run_sync. cbn [emit trustedSet dir log].
    destruct (updateSnapshot (trustedSet w) bytesData false) as [st|e];
      [by rewrite run_sync | by rewrite run_throw]. }
  destruct (dir w !! "snapshot") as [data|]; csimpl.
  - rewrite run_sync.
    destruct (updateSnapshot (trustedSet w) data true) as [st|e]; [done|].
    exact Hcatch.
  - exact Hcatch.
Qed.

(** X3. [loadSnapshot] in full. When the file of the directory is
    accepted as trusted input, the call returns with that commit alone:
    nothing is requested and nothing written. Otherwise, without a
    trusted timestamp it throws the [ReferenceError] and the world is as
    it was. Otherwise it makes one request, for the snapshot file named
    by the trusted timestamp (versioned under consistent snapshots),
    capped by the length the timestamp gives or else
    [snapshotMaxLength]: if the download fails, or [updateSnapshot]
    refuses the downloaded bytes as untrusted input, it throws a
    [RuntimeError] and leaves the trusted set and the directory as they
    were; if the bytes are accepted, it returns, the trusted set is the
    one the update gave, [persistMetadata] was called for the snapshot
    right after the commit, and if [snapshot.json] differs from what it
    was it holds those bytes, which fit the cap. *)
Theorem loadSnapshot_outcome w :
  let w' := (run loadSnapshot w).1 in
  let r := (run loadSnapshot w).2 in
  exists ev,
    Writes w w' ev /\
    match localSnapshot w with
    | Some st =>
        r = Ok tt /\ trustedSet w' = st /\ ev = [EvCommit "snapshot"] /\
        dir w' = dir w
    | None =>
        match timestamp_snapshotMeta (trustedSet w) with
        | None =>
            r = Err (ReferenceError "No timestamp metadata") /\ w' = w /\ ev = []
        | Some snapshotMeta =>
            let maxLength :=
              orNumber (mf_length snapshotMeta) (snapshotMaxLength config) in
            let url :=
              path_join metadataBaseUrl
                (versionedName
                   (if root_consistentSnapshot (trustedSet w)
                    then Some (mf_version snapshotMeta) else None) "snapshot") in
            let refused :=
              (exists msg, r = Err (RuntimeError msg)) /\ ev = [EvFetch url] /\
              trustedSet w' = trustedSet w /\ dir w' = dir w in
            match (run (downloadBytes fetch url maxLength) w).2 with
            | Ok bytesData =>
                match updateSnapshot (trustedSet w) bytesData false with
                | Ok st =>
                    r = Ok tt /\ trustedSet w' = st /\
                    ev = [EvPersist "snapshot"; EvCommit "snapshot"; EvFetch url] /\
                    (dir w' !! "snapshot" <> dir w !! "snapshot" ->
                     dir w' !! "snapshot" = Some (utf8 bytesData)) /\
                    (0 <= maxLength -> Z.of_nat (length bytesData) <= maxLength)
                | Err _ => refused
                end
            | Err _ => refused
            end
        end
    end.
Proof.
  intros w' r. subst w' r. rewrite loadSnapshot_closed.
  destruct (localSnapshot w) as [st|].
  { exists [EvCommit "snapshot"]. split; [apply Writes_commit | by split_and!]. }
  destruct (timestamp_snapshotMeta (trustedSet w)) as [snapshotMeta|].
  2:{ exists []. split; [apply Writes_refl | by split_and!]. }
  cbv zeta.
  match goal with |- context [downloadBytes fetch ?url ?maxLength] =>
    destruct (downloadBytes_run url maxLength w) as (r & Hdl & Hlen);
    rewrite Hdl; cbn [snd]
  end.
  destruct r as [bytesData|e].
  2:{ eexists [EvFetch _]. split; [apply Writes_fetch|]. split_and!; eauto. }
  destruct (updateSnapshot (trustedSet w) bytesData false) as [st|e].
  2:{ eexists [EvFetch _]. split; [apply Writes_fetch|]. split_and!; eauto. }
  eexists [EvPersist "snapshot"; EvCommit "snapshot"; EvFetch _].
  split; [apply Writes_fetch_commit_persist|]. cbn [fst snd trustedSet dir].
  split_and!; [done | done | done | | auto].
  intros _. apply lookup_insert_eq.
Qed.


(** X5. The commits of a [refresh] come in the order Root, Timestamp,
    Snapshot, Targets: at most [maxRootRotations + 1] Roots, at most two
    Timestamps (the file of the directory and the remote one), at most
    one Snapshot and at most one Targets; a refresh that returns
    normally committed exactly one Snapshot. It makes at most
    [maxRootRotations + 4] requests, every write follows a commit of the
    same role, and only the four top-level files are written. *)
Theorem refresh_commit_order w :
  let w' := (run refresh w).1 in
  exists ev (r t s g : nat),
    Writes w w' ev /\
    committed ev =
      replicate g "targets" ++ replicate s "snapshot" ++
      replicate t "timestamp" ++ replicate r "root" /\
    Z.of_nat r <= Z.max 0 (maxRootRotations config + 1) /\
    (t <= 2)%nat /\ (s <= 1)%nat /\ (g <= 1)%nat /\
    Z.of_nat (length (fetched ev)) <= Z.max 0 (maxRootRotations config + 1) + 3 /\
    (forall k, k ∈ persisted ev ->
       k ∈ ["root"; "timestamp"; "snapshot"; "targets"]) /\
    ((run refresh w).2 = Ok tt -> s = 1%nat).
Proof.
  intros w'. subst w'. rewrite run_refresh.
  destruct (loadRoot_summary w)
    as (k & c & ev1 & HW1 & Hf1 & Hc1 & Hp1 & Hck & Hk & _).
  set (wr := (run loadRoot w).1) in *.
  destruct (loadTimestamp_summary wr) as (ev2 & t & HW2 & Hc2 & Ht & Hp2 & Hf2).
  assert (Hlen1 : length (fetched ev1) = k).
  { by rewrite Hf1, length_rev, length_fmap, length_seqZ, Nat2Z.id. }
  assert (Hper1 : forall x, x ∈ persisted ev1 -> x = "root").
  { intros x. rewrite Hp1. by intros [-> _]%elem_of_replicate. }
  destruct (run loadTimestamp wr) as [wt [[]|e]]; cbn [fst snd] in *.
  2:{ exists (ev2 ++ ev1), c, t, O, O. split_and!.
      - eapply Writes_trans; eassumption.
      - by rewrite committed_app, Hc1, Hc2.
      - lia.
      - lia.
      - lia.
      - lia.
      - rewrite fetched_app, length_app. lia.
      - intros x. rewrite persisted_app.
        intros [->%Hp2| ->%Hper1]%elem_of_app; set_solver.
      - discriminate. }
  rewrite run_refresh_rest.
  destruct (loadSnapshot_summary wt) as (ev3 & s & HW3 & Hc3 & Hs & Hp3 & Hf3 & Hok3).
  destruct (run loadSnapshot wt) as [ws [[]|e]]; cbn [fst snd] in *.
  2:{ exists (ev3 ++ ev2 ++ ev1), c, t, s, O. split_and!.
      - eapply Writes_trans; [eapply Writes_trans|]; eassumption.
      - by rewrite !committed_app, Hc1, Hc2, Hc3.
      - lia.
      - lia.
      - lia.
      - lia.
      - rewrite !fetched_app, !length_app. lia.
      - intros x. rewrite !persisted_app.
        intros [->%Hp3|[->%Hp2| ->%Hper1]%elem_of_app]%elem_of_app; set_solver.
      - discriminate. }
  rewrite run_loadTargets.
  set (w0 := emit (EvLoadTargets (mkDelegation "targets" "root")) ws).
  destruct (loadTargets_body_summary "targets" "root" w0)
    as (ev4 & g & HW4 & Hio & Hc4 & Hg & Hp4 & Hf4 & _ & _).
  assert (HW0 : Writes ws w0 [EvLoadTargets (mkDelegation "targets" "root")])
    by (by apply Writes_emit).
  exists (ev4 ++ [EvLoadTargets (mkDelegation "targets" "root")] ++ ev3 ++ ev2 ++ ev1),
    c, t, s, g.
  assert (Hfst : (let (wg, o) := run (loadTargets_body "targets" "root") w0 in
                  match o with
                  | Ok _ => (wg, Ok tt)
                  | Err e => (wg, Err e)
                  end).1 = (run (loadTargets_body "targets" "root") w0).1)
    by (by destruct (run (loadTargets_body "targets" "root") w0) as [? []]).
  rewrite Hfst. split_and!.
  - repeat (eapply Writes_trans; [|eassumption]). eassumption.
  - rewrite !committed_app, Hc1, Hc2, Hc3, Hc4. reflexivity.
  - lia.
  - lia.
  - lia.
  - lia.
  - rewrite !fetched_app, !length_app. simpl. lia.
  - intros x. rewrite !persisted_app.
    intros [->%Hp4|[Hx|[->%Hp3|[->%Hp2| ->%Hper1]%elem_of_app]%elem_of_app]%elem_of_app]%elem_of_app;
      [set_solver | by apply elem_of_nil in Hx | set_solver..].
  - intros _. by apply Hok3.
Qed.

(** X6. With a store that can read back a Targets role it committed, a
    [refresh] that returns normally leaves the top-level Targets in the
    trusted set, so that [getTargetInfo] called afterwards starts no
    second refresh and is the walk on that trusted set. *)
Theorem refresh_trusts_targets fuel targetPath w w' :
  commits_role ->
  run refresh w = (w', Ok tt) ->
  is_Some (getRole (trustedSet w') "targets") /\
  getTargetInfo fuel targetPath w' =
    (None, preorderDepthFirstWalk fuel targetPath w').
Proof.
  intros Hcommits Hrun.
  assert (Hsome : is_Some (getRole (trustedSet w') "targets")).
  { rewrite run_refresh in Hrun.
    destruct (run loadTimestamp (run loadRoot w).1) as [wt [[]|e]]; [|discriminate].
    rewrite run_refresh_rest in Hrun.
    destruct (run loadSnapshot wt) as [ws [[]|e]]; [|discriminate].
    destruct (run (loadTargets "targets" "root") ws) as [wg [md|e]] eqn:Hload;
      [|discriminate].
    injection Hrun as ->.
    pose proof (loadTargets_defined "targets" "root" ws w' Hcommits) as Hdef.
    rewrite run_loadTargets in Hload.
    destruct (loadTargets_body_summary "targets" "root"
                (emit (EvLoadTargets (mkDelegation "targets" "root")) ws))
      as (ev & g & _ & _ & _ & _ & _ & _ & _ & Hres).
    rewrite Hload in Hres. cbn [fst snd] in Hres. rewrite <- Hres.
    destruct md as [md|]; [by eexists|].
    exfalso. apply Hdef. by rewrite run_loadTargets. }
  split; [exact Hsome|].
  unfold getTargetInfo. by destruct Hsome as [md ->].
Qed.

(** *** What a walk answers and what it writes *)

Lemma loadTargets_answer role parentRole w w' md :
  run (loadTargets role parentRole) w = (w', Ok md) ->
  md = getRole (trustedSet w') role.
Proof.
  rewrite run_loadTargets. intros Hrun.
  destruct (loadTargets_body_summary role parentRole
              (emit (EvLoadTargets (mkDelegation role parentRole)) w))
    as (ev & g & _ & _ & _ & _ & _ & _ & _ & Hres).
  by rewrite Hrun in Hres.
Qed.

(** X7. A target that the walk returns is listed, under the path asked
    for, by a role that the trusted set holds when the walk ends; that
    role is the last one inspected and was not marked visited before. *)
Theorem walk_found fuel targetPath : forall v s w w' target,
  run (walk fuel targetPath v s) w = (w', Ok (Some (Some target))) ->
  exists role tg ev,
    log w' = EvInspect role :: ev ++ log w /\
    (role ∉ v) /\
    getRole (trustedSet w') role = Some tg /\
    targets tg ≫= (fun m => m !! targetPath) = Some target.
Proof.
  induction fuel as [|fuel IH]; intros v s w w' target Hrun; [discriminate|].
  rewrite run_walk_S in Hrun.
  pose proof (walk_body_cases targetPath v s w) as Hc.
  destruct (run (walk_body targetPath v s) w) as [w1 r1]. simpl in Hc.
  inversion Hc as [Hex|rest d Hle Hs Hin|rest d w2 e Hle Hs Hnin Hload
                  |rest d w2 Hle Hs Hnin Hload
                  |rest d w2 tg t Hle Hs Hnin Hload Hlook
                  |rest d w2 tg Hle Hs Hnin Hload Hlook]; subst.
  - discriminate.
  - by apply IH in Hrun.
  - discriminate.
  - apply IH in Hrun as (role & tg & ev & Hlog & Hv & Hget & Hlook).
    apply loadTargets_events in Hload as (ev0 & Hlog0 & _).
    exists role, tg, (ev ++ ev0). rewrite Hlog, Hlog0, <- app_assoc. by split_and!.
  - injection Hrun as <- <-.
    pose proof (loadTargets_answer _ _ _ _ _ Hload) as Hget.
    apply loadTargets_events in Hload as (ev0 & Hlog0 & _).
    exists (roleName d), tg, ev0. simpl. rewrite Hlog0. by split_and!.
  - apply IH in Hrun as (role & tg' & ev & Hlog & Hv & Hget & Hlook').
    apply loadTargets_events in Hload as (ev0 & Hlog0 & _).
    exists role, tg', (ev ++ EvInspect (roleName d) :: ev0).
    rewrite Hlog. simpl. rewrite Hlog0, <- app_assoc.
    split_and!; [done | set_solver | done | done].
Qed.








(** X9. When the cap on delegations is not negative, a path that the
    trusted top-level Targets lists is answered from it in the first
    iteration: no request, no commit, no write. *)
Theorem walk_top_level_hit fuel targetPath w tg target :
  0 <= maxDelegations config ->
  getRole (trustedSet w) "targets" = Some tg ->
  targets tg ≫= (fun m => m !! targetPath) = Some target ->
  run (preorderDepthFirstWalk (S fuel) targetPath) w =
    (mkWorld (trustedSet w) (dir w)
       (EvInspect "targets" :: EvLoadTargets (mkDelegation "targets" "root") :: log w),
     Ok (Some (Some target))).
Proof.
  intros Hmax Hget Hlook. unfold preorderDepthFirstWalk. rewrite run_walk_S.
  assert (Hload : run (loadTargets "targets" "root") w =
            (emit (EvLoadTargets (mkDelegation "targets" "root")) w, Ok (Some tg))).
  { rewrite run_loadTargets.
    destruct (loadTargets_body_run "targets" "root"
                (emit (EvLoadTargets (mkDelegation "targets" "root")) w))
      as [(md & Hmd & ->)|[Hnone _]]; simpl in *; congruence. }
  pose proof (walk_body_cases targetPath ∅ [mkDelegation "targets" "root"] w) as Hc.
  destruct (run (walk_body targetPath ∅ [mkDelegation "targets" "root"]) w)
    as [w1 r1]. simpl in Hc.
  inversion Hc as [Hex|rest d Hle Hs Hin|rest d w2 e Hle Hs Hnin Hload'
                  |rest d w2 Hle Hs Hnin Hload'
                  |rest d w2 tg' t Hle Hs Hnin Hload' Hlook'
                  |rest d w2 tg' Hle Hs Hnin Hload' Hlook'];
    try (destruct rest as [|? [|? ?]]; try discriminate;
         simpl in Hs; injection Hs as <-; simpl in * );
    subst.
  all: try (rewrite Hload in Hload'; injection Hload' as <- <-).
  all: try congruence.
  all: try (rewrite Hlook in Hlook'; by injection Hlook' as <-).
  all: try set_solver.
Qed.

(** X10. The children of an inspected role are interrogated in declared
    order: the first declared matching child is on top of the stack; and
    without a terminating role the others follow it, in declared order,
    above everything that was pending. *)
Theorem pushChildren_declared_order rest role c t more :
  exists below,
    pushChildren rest role ((c, t) :: more) = below ++ [mkDelegation c role] /\
    array_pop (pushChildren rest role ((c, t) :: more)) =
      Some (below, mkDelegation c role) /\
    (Forall (fun r => r.2 = false) ((c, t) :: more) ->
     below = rest ++ rev (map (fun r => mkDelegation r.1 role) more)).
Proof.
  unfold pushChildren. simpl. destruct t.
  - exists []. split_and!; [done | done |]. by inversion 1.
  - destruct (childRoles role more) as [children emptied] eqn:Hch. simpl.
    exists ((if emptied then [] else rest) ++ rev children).
    rewrite app_assoc. split_and!; [done | apply array_pop_app |].
    inversion 1 as [|? ? _ Hmore]; subst.
    rewrite childRoles_no_terminating in Hch by done.
    by injection Hch as <- <-.
Qed.
End Updater.

(** ** Target files ([findCachedTarget], [generateTargetPath],
    [downloadTarget]) *)
Section TargetFiles.
Context {Store Delegations : Type} `{!TrustedMetadataStore Store Delegations}.

(** The updater together with the files it reads and writes by path.
    Target paths are taken to lie outside the metadata directory. *)
Record Disk : Type := mkDisk {
  updater : World (Store := Store);
  files : gmap string Buffer;
}.

Variable config : Config.
Variable remote : string -> Outcome Stream.
(** [this.targetDir] and [this.targetBaseUrl], both optional. *)
Variable targetDir : option string.
Variable targetBaseUrl : option string.
(** [targetInfo.verify(data)]: it returns, or throws. *)
Variable verify : TargetFile -> Buffer -> Outcome unit.
(** [path.basename] *)
Variable basename : string -> string.

(** An optional string that is not falsy: [undefined] and [''] are. *)
Definition truthy (s : option string) : option string :=
  match s with
  | Some "" | None => None
  | Some p => Some p
  end.

Definition generateTargetPath (targetInfo : TargetFile) : Outcome string :=
  match truthy targetDir with
  | None => Err (ValueError "Target directory not set")
  | Some targetDir => Ok (path_join targetDir (tf_path targetInfo))
  end.

(** [if (!filePath) { filePath = this.generateTargetPath(targetInfo) }] *)
Definition filePathOr (targetInfo : TargetFile) (filePath : option string)
    : Outcome string :=
  match truthy filePath with
  | None => generateTargetPath targetInfo
  | Some filePath => Ok filePath
  end.

Definition of_outcome {A} (r : Outcome A) : Async Disk A :=
  sync (fun d => (d, r)).

(** [fs.readFileSync(filePath)] *)
Definition readFileSync (filePath : string) : Async Disk Buffer :=
  sync (fun d =>
    match files d !! filePath with
    | Some data => (d, Ok data)
    | None => (d, Err (JsError "ENOENT"))
    end).

(** [fs.writeFileSync(filePath, data)], with a buffer for [data]: the
    bytes are stored as they are. The write is taken to succeed. *)
Definition writeFileSync (filePath : string) (data : Buffer) : Async Disk unit :=
  sync (fun d => (mkDisk (updater d) (<[filePath := data]> (files d)), Ok tt)).

(** [this.fetcher.fetch(url)] *)
Definition fetchTarget (url : string) : Async Disk Stream :=
  sync (fun d => (mkDisk (emit (EvFetch url) (updater d)) (files d), remote url)).

Definition findCachedTarget (targetInfo : TargetFile) (filePath : option string)
    : Async Disk (option string) :=
  let! filePath := of_outcome (filePathOr targetInfo filePath) in
  try_catch
    (let! targetFile := readFileSync filePath in
     let! _ := of_outcome (verify targetInfo targetFile) in
     ret (Some filePath))
    (fun error => ret None).

(** [`${hashes[0]}`], with [hashes] the values of [targetInfo.hashes]. *)
Definition firstHash (targetInfo : TargetFile) : string :=
  match tf_hashes targetInfo with
  | (_, h) :: _ => h
  | [] => "undefined"
  end.

(** The URL that [downloadTarget] requests. *)
Definition targetUrl (consistentSnapshot : bool) (targetBaseUrl : string)
    (targetInfo : TargetFile) : string :=
  let targetFilePath :=
    if consistentSnapshot && prefixTargetsWithHash config
    then firstHash targetInfo +:+ "." +:+ basename (tf_path targetInfo)
    else tf_path targetInfo in
  path_join targetBaseUrl targetFilePath.

Definition downloadTarget (targetInfo : TargetFile)
    (filePath targetBaseUrl' : option string) : Async Disk string :=
  let! filePath := of_outcome (filePathOr targetInfo filePath) in
  let! targetBaseUrl :=
    match truthy targetBaseUrl' with
    | Some b => ret b
    | None =>
        match truthy targetBaseUrl with
        | None => throw (ValueError "Target base URL not set")
        | Some b => ret b
        end
    end in
  let! consistentSnapshot :=
    sync (fun d => (d, Ok (root_consistentSnapshot (trustedSet (updater d))))) in
  let url := targetUrl consistentSnapshot targetBaseUrl targetInfo in
  let! targetFile :=
    await (downloadBytes fetchTarget url (tf_length targetInfo)) in
  let! _ := of_outcome (verify targetInfo targetFile) in
  let! _ := writeFileSync filePath targetFile in
  ret filePath.

(** The requests a call added to the log. *)
Definition requested (d d' : Disk) (urls : list string) : Prop :=
  exists ev, log (updater d') = ev ++ log (updater d) /\ fetched ev = urls /\
    trustedSet (updater d') = trustedSet (updater d) /\
    Forall (fun e => exists url, e = EvFetch url) ev.

Lemma requested_none d : requested d d [].
Proof. exists []. by split_and!. Qed.

Lemma truthy_Some s p : truthy s = Some p -> s = Some p /\ p <> "".
Proof. destruct s as [[|]|]; simpl; intros [= <-]; by split. Qed.

Lemma path_join_nonempty a b : path_join a b <> "".
Proof. unfold path_join. by destruct a. Qed.

Lemma filePathOr_nonempty targetInfo filePath p :
  filePathOr targetInfo filePath = Ok p -> p <> "".
Proof.
  unfold filePathOr, generateTargetPath.
  destruct (truthy filePath) as [q|] eqn:Hq.
  - intros [= <-]. by apply truthy_Some in Hq as [_ ?].
  - destruct (truthy targetDir); [|discriminate].
    intros [= <-]. apply path_join_nonempty.
Qed.

Lemma truthy_nonempty p : p <> "" -> truthy (Some p) = Some p.
Proof. by destruct p. Qed.

Lemma run_downloadTarget_bytes url maxLength d :
  exists r,
    run (downloadBytes fetchTarget url maxLength) d =
      (mkDisk (emit (EvFetch url) (updater d)) (files d), r) /\
    (forall bytes, r = Ok bytes -> 0 <= maxLength ->
       Z.of_nat (length bytes) <= maxLength).
Proof.
  rewrite run_downloadBytes. unfold fetchTarget at 1. rewrite run_sync.
  destruct (remote url) as [reader|e]; [|by eexists].
  pose proof (readChunks_world (chunks reader) (failure reader)
                maxLength 0 [] (mkDisk (emit (EvFetch url) (updater d)) (files d)))
    as Hw.
  destruct (run (readChunks (chunks reader) (failure reader)
                   maxLength 0 [])
              (mkDisk (emit (EvFetch url) (updater d)) (files d)))
    as [d1 r] eqn:Hrun.
  simpl in Hw. subst d1. exists r. split; [done|].
  intros bytes -> Hmax.
  apply readChunks_ok in Hrun; [|reflexivity | exact Hmax].
  by destruct Hrun as (_ & _ & -> & Hle).
Qed.

(** How [downloadTarget] can go. *)
Lemma downloadTarget_run targetInfo filePath targetBaseUrl' d :
  (exists msg, run (downloadTarget targetInfo filePath targetBaseUrl') d =
                 (d, Err (ValueError msg))) \/
  (exists p b,
     filePathOr targetInfo filePath = Ok p /\
     (truthy targetBaseUrl' = Some b \/
      truthy targetBaseUrl' = None /\ truthy targetBaseUrl = Some b) /\
     let url :=
       targetUrl (root_consistentSnapshot (trustedSet (updater d))) b targetInfo in
     let d1 := mkDisk (emit (EvFetch url) (updater d)) (files d) in
     (exists e, run (downloadTarget targetInfo filePath targetBaseUrl') d =
                  (d1, Err e)) \/
     (exists targetFile,
        verify targetInfo targetFile = Ok tt /\
        (0 <= tf_length targetInfo ->
         Z.of_nat (length targetFile) <= tf_length targetInfo) /\
        run (downloadTarget targetInfo filePath targetBaseUrl') d =
          (mkDisk (emit (EvFetch url) (updater d))
             (<[p := targetFile]> (files d)), Ok p))).
Proof.
  unfold downloadTarget, of_outcome. rewrite run_bind, run_sync.
  destruct (filePathOr targetInfo filePath) as [p|e] eqn:Hp.
  2:{ left. unfold filePathOr, generateTargetPath in Hp.
      destruct (truthy filePath); [discriminate|].
      destruct (truthy targetDir); [discriminate|]. injection Hp as <-. eauto. }
  rewrite run_bind.
  assert (Hbase :
    (exists b, (truthy targetBaseUrl' = Some b \/
                truthy targetBaseUrl' = None /\ truthy targetBaseUrl = Some b) /\
       run match truthy targetBaseUrl' with
           | Some b => ret b
           | None =>
               match truthy targetBaseUrl with
               | None => throw (ValueError "Target base URL not set")
               | Some b => ret b
               end
           end d = (d, Ok b)) \/
    run match truthy targetBaseUrl' with
        | Some b => ret b
        | None =>
            match truthy targetBaseUrl with
            | None => throw (ValueError "Target base URL not set")
            | Some b => ret b
            end
        end d = (d, Err (ValueError "Target base URL not set"))).
  { destruct (truthy targetBaseUrl') as [b|].
    - left. exists b. split; [by left | by rewrite run_ret].
    - destruct (truthy targetBaseUrl) as [b|].
      + left. exists b. split; [by right | by rewrite run_ret].
      + right. by rewrite run_throw. }
  destruct Hbase as [(b & Hb & ->)| ->]; [|left; eauto].
  right. exists p, b. split_and!; [done | done |]. cbv zeta.
  rewrite run_bind, run_sync. cbv beta iota.
  rewrite run_bind, run_await.
  match goal with |- context [downloadBytes fetchTarget ?url ?maxLength] =>
    destruct (run_downloadTarget_bytes url maxLength d) as (r & -> & Hlen)
  end.
  destruct r as [targetFile|e]; [|left; eauto].
  rewrite run_bind, run_sync.
  destruct (verify targetInfo targetFile) as [[]|e] eqn:Hv; [|left; eauto].
  right. exists targetFile. split_and!; [done | auto |].
  unfold writeFileSync. by rewrite run_bind, run_sync, run_ret.
Qed.

Lemma filePathOr_Err targetInfo filePath e :
  filePathOr targetInfo filePath = Err e <->
  truthy filePath = None /\ truthy targetDir = None /\
  e = ValueError "Target directory not set".
Proof.
  unfold filePathOr, generateTargetPath.
  destruct (truthy filePath) as [q|].
  - split; [discriminate | by intros [? _]].
  - destruct (truthy targetDir) as [t|].
    + split; [discriminate | by intros (_ & ? & _)].
    + split; [by intros [= <-] | by intros (_ & _ & ->)].
Qed.

(** How [findCachedTarget] can go. *)
Lemma findCachedTarget_run targetInfo filePath d :
  run (findCachedTarget targetInfo filePath) d =
  (d, match filePathOr targetInfo filePath with
      | Err e => Err e
      | Ok p =>
          match files d !! p with
          | Some data =>
              match verify targetInfo data with
              | Ok _ => Ok (Some p)
              | Err _ => Ok None
              end
          | None => Ok None
          end
      end).
Proof.
  unfold findCachedTarget, of_outcome, readFileSync.
  rewrite run_bind, run_sync.
  destruct (filePathOr targetInfo filePath) as [p|e]; [|done].
  rewrite run_try_catch, run_bind, run_sync.
  destruct (files d !! p) as [data|]; [|by rewrite run_ret].
  rewrite run_bind, run_sync.
  destruct (verify targetInfo data) as [[]|e]; by rewrite run_ret.
Qed.

(** X11. [downloadTarget] checks its arguments before it requests
    anything: without a file path and without a target directory it
    throws the [ValueError] for the directory, whatever the base URLs
    are; with a path but no base URL, of the call or of the updater, it
    throws the [ValueError] for the base URL. An empty string counts as
    missing. In both cases nothing was requested or written. *)
Theorem downloadTarget_arguments targetInfo filePath targetBaseUrl' d :
  (truthy filePath = None -> truthy targetDir = None ->
   run (downloadTarget targetInfo filePath targetBaseUrl') d =
     (d, Err (ValueError "Target directory not set"))) /\
  (is_Ok (filePathOr targetInfo filePath) = true ->
   truthy targetBaseUrl' = None -> truthy targetBaseUrl = None ->
   run (downloadTarget targetInfo filePath targetBaseUrl') d =
     (d, Err (ValueError "Target base URL not set"))).
Proof.
  split.
  - intros Hf Hd. unfold downloadTarget, of_outcome, filePathOr, generateTargetPath.
    by rewrite run_bind, run_sync, Hf, Hd.
  - intros Hp Hb' Hb. unfold downloadTarget, of_outcome.
    rewrite run_bind, run_sync.
    destruct (filePathOr targetInfo filePath) as [p|e]; [|discriminate].
    by rewrite run_bind, Hb', Hb, run_throw.
Qed.





(** X13. [findCachedTarget] requests nothing and changes nothing. It
    answers a path exactly when the file at that path exists and
    [targetInfo.verify] accepts it, and [undefined] when the file is
    missing or is refused; but without a file path and without a target
    directory it throws the [ValueError] of [generateTargetPath], which
    is called outside the [try] block. *)
Theorem findCachedTarget_outcome targetInfo filePath d :
  (run (findCachedTarget targetInfo filePath) d).1 = d /\
  (forall p,
     (run (findCachedTarget targetInfo filePath) d).2 = Ok (Some p) <->
     filePathOr targetInfo filePath = Ok p /\
     exists data, files d !! p = Some data /\ verify targetInfo data = Ok tt) /\
  (forall e,
     (run (findCachedTarget targetInfo filePath) d).2 = Err e <->
     truthy filePath = None /\ truthy targetDir = None /\
     e = ValueError "Target directory not set").
Proof.
  rewrite findCachedTarget_run. cbn [fst snd]. split_and!; [done | |].
  - intros p. destruct (filePathOr targetInfo filePath) as [q|e].
    + destruct (files d !! q) as [data|] eqn:Hq.
      * destruct (verify targetInfo data) as [[]|e] eqn:Hv; split.
        -- intros [= <-]. split; [done|]. by exists data.
        -- by intros [[= <-] _].
        -- discriminate.
        -- intros [[= <-] (data' & Hd & Hv')]. congruence.
      * split; [discriminate|]. intros [[= <-] (data' & Hd & _)]. congruence.
    + split; [discriminate | by intros [? _]].
  - intros e. rewrite <- (filePathOr_Err targetInfo).
    destruct (filePathOr targetInfo filePath) as [q|e'];
      [|split; by intros [= <-]].
    split; [|discriminate].
    destruct (files d !! q) as [data|]; [|discriminate].
    by destruct (verify targetInfo data).
Qed.

(** X14. What [downloadTarget] wrote, [findCachedTarget] finds: after a
    download that returned the path [p], a lookup for the same target,
    by the same arguments or by [p] itself, answers [p] without a
    request. *)
Theorem downloadTarget_then_cached targetInfo filePath targetBaseUrl' d d' p :
  run (downloadTarget targetInfo filePath targetBaseUrl') d = (d', Ok p) ->
  run (findCachedTarget targetInfo filePath) d' = (d', Ok (Some p)) /\
  run (findCachedTarget targetInfo (Some p)) d' = (d', Ok (Some p)).
Proof.
  intros Hrun.
  destruct (downloadTarget_run targetInfo filePath targetBaseUrl' d)
    as [(msg & Hr)|(q & b & Hq & Hb & [(e & Hr)|(targetFile & Hv & Hlen & Hr)])];
    rewrite Hr in Hrun; try discriminate.
  injection Hrun as <- <-.
  assert (Hself : filePathOr targetInfo (Some q) = Ok q).
  { unfold filePathOr. by rewrite truthy_nonempty by by eapply filePathOr_nonempty. }
  rewrite !findCachedTarget_run, Hq, Hself. cbn [files].
  by rewrite lookup_insert_eq, Hv.
Qed.
End TargetFiles.
End Updater.

(** *** The trusted set of the specification

    store.ts and the models of Targets and Delegations are not among the
    sources; the following stands in for them wherever a concrete store
    is run. *)
Module SpecStore.
Import Updater.

(** Modelled from the spec: [DelegatedRole], missing from the sources;
    "[{name, keyids, threshold, terminating: bool, paths?: [glob], ...}]". *)
Record DelegatedRole : Type := mkDelegatedRole {
  dr_name : string;
  dr_keyids : list string;
  dr_threshold : Z;
  dr_terminating : bool;
  dr_paths : list string;
}.

(** Modelled from the spec: the [delegations] of a Targets document,
    missing from the sources; "[{keys: keyID→Key, roles: ordered list of
    DelegatedRole}]", with the keys reduced to their keyids. *)
Record Delegations : Type := mkDelegations {
  dg_keys : list string;
  dg_roles : list DelegatedRole;
}.

(** Modelled from the spec: the glob matching of [paths], missing from
    the sources; "shell-style matching with [*] not crossing [/]". *)
Fixpoint glob (pattern : list ascii) : list ascii -> bool :=
  match pattern with
  | [] => fun s => match s with [] => true | _ => false end
  | p :: pattern' =>
      if Ascii.eqb p "*" then
        fix star (s : list ascii) : bool :=
          glob pattern' s ||
          match s with
          | c :: s' => negb (Ascii.eqb c "/") && star s'
          | [] => false
          end
      else fun s =>
        match s with
        | c :: s' => Ascii.eqb p c && glob pattern' s'
        | [] => false
        end
  end.

(** Modelled from the spec: the match predicate of a delegated role,
    missing from the sources; "a role matches a target path iff any glob
    in [paths] matches" (the [path_hash_prefixes] alternative, which
    needs SHA-256, is left out). *)
Definition matches (role : DelegatedRole) (targetPath : string) : bool :=
  existsb
    (fun p => glob (list_ascii_of_string p) (list_ascii_of_string targetPath))
    (dr_paths role).

(** Modelled from the spec: [rolesForTarget], missing from the sources;
    "the ordered list of child roles whose match predicate matches
    [target_path], preserving the parent-declared order". *)
Definition rolesForTarget (dels : Delegations) (targetPath : string)
    : list (string * bool) :=
  map (fun r => (dr_name r, dr_terminating r))
    (List.filter (fun r => matches r targetPath) (dg_roles dels)).

(** Modelled from the spec: a parsed document of any of the four roles,
    missing from the sources; the header ([_type], [version], [expires]),
    the keyids whose signature over the signed part verifies, and the
    fields of section 3 (Root: [keys], [roles], [consistent_snapshot];
    Timestamp and Snapshot: [meta]; Targets: [targets], [delegations]). *)
Record Doc : Type := mkDoc {
  doc_type : string;
  doc_version : Z;
  doc_expires : Z;
  doc_signers : list string;
  doc_keys : list string;
  doc_roles : gmap string (list string * Z);
  doc_consistent : bool;
  doc_meta : gmap string MetaFile;
  doc_targets : option (gmap string TargetFile);
  doc_delegations : option Delegations;
}.

(** Modelled from the spec: the state of the trusted set, missing from
    the sources; "at most one accepted instance per role, plus a mapping
    for delegated Targets roles". *)
Record Store : Type := mkStore {
  s_root : Doc;
  s_timestamp : option Doc;
  s_snapshot : option Doc;
  s_targets : gmap string Doc;
}.

(** Modelled from the spec: the signature verification rule of the
    trusted set, missing from the sources; "for each keyid, look up the
    key in the applicable key map; if missing, signal RepositoryError ...
    Accept iff [contributing_count ≥ threshold]". *)
Definition verify (keys : list string) (role : list string * Z) (doc : Doc)
    : Outcome unit :=
  if existsb (fun k => negb (bool_decide (k ∈ keys))) role.1
  then Err RepositoryError
  else
    let contributing : gset string :=
      list_to_set (List.filter (fun k => bool_decide (k ∈ doc_signers doc)) role.1) in
    if Z.of_nat (size contributing) <? role.2
    then Err (UnsignedMetadataError "threshold not met")
    else Ok tt.

(** Modelled from the spec: verification against a role that the
    authority may not declare; a missing role is a missing entry. *)
Definition verifyRole (keys : list string) (role : option (list string * Z))
    (doc : Doc) : Outcome unit :=
  match role with
  | Some r => verify keys r doc
  | None => Err RepositoryError
  end.

Section Ops.
(** Parsing, and the reference time of the expiry checks. *)
Variable parse : Buffer -> option Doc.
Variable now : Z.

Definition parseAs (kind : string) (bytes : Buffer) : Outcome Doc :=
  match parse bytes with
  | Some d => if bool_decide (doc_type d = kind) then Ok d
              else Err MalformedMetadataError
  | None => Err MalformedMetadataError
  end.

(** Modelled from the spec: [is_expired], missing from the sources;
    "[is_expired(now)] returns [now ≥ expires]". *)
Definition is_expired (d : Doc) : bool := doc_expires d <=? now.

Definition check (b : bool) (e : Error) : Outcome unit :=
  if b then Ok tt else Err e.

Definition obind {A B} (r : Outcome A) (f : A -> Outcome B) : Outcome B :=
  match r with Ok a => f a | Err e => Err e end.

Notation "'do!' x := r 'in' k" := (obind r (fun x => k))
  (at level 10, x name, r at level 100, k at level 200, only parsing).

(** Modelled from the spec: [update_root], missing from the sources
    (section 4.2 (1)). *)
Definition update_root (st : Store) (bytes : Buffer) : Outcome Store :=
  do! _ := check (bool_decide (s_snapshot st = None))
             (RuntimeError "snapshot already loaded") in
  do! new := parseAs "root" bytes in
  let cur := s_root st in
  do! _ := verifyRole (doc_keys cur) (doc_roles cur !! "root") new in
  do! _ := verifyRole (doc_keys new) (doc_roles new !! "root") new in
  do! _ := check (doc_version new =? doc_version cur + 1) BadVersionError in
  Ok (mkStore new (s_timestamp st) (s_snapshot st) (s_targets st)).

Definition snapshotMetaOf (d : Doc) : option MetaFile :=
  doc_meta d !! "snapshot.json".

(** Modelled from the spec: [update_timestamp], missing from the
    sources (section 4.2 (2)). *)
Definition update_timestamp (st : Store) (bytes : Buffer) : Outcome Store :=
  let root := s_root st in
  do! _ := check (negb (is_expired root)) ExpiredMetadataError in
  do! new := parseAs "timestamp" bytes in
  do! _ := verifyRole (doc_keys root) (doc_roles root !! "timestamp") new in
  do! newMeta := match snapshotMetaOf new with
                 | Some m => Ok m
                 | None => Err MalformedMetadataError
                 end in
  do! _ := match s_timestamp st with
           | Some cur =>
               do! _ := check (negb (doc_version new =? doc_version cur))
                          EqualVersionError in
               do! _ := check (negb (doc_version new <? doc_version cur))
                          BadVersionError in
               check (negb (mf_version newMeta <?
                            default 0 (mf_version <$> snapshotMetaOf cur)))
                 BadVersionError
           | None => Ok tt
           end in
  do! _ := check (negb (is_expired new)) ExpiredMetadataError in
  Ok (mkStore root (Some new) (s_snapshot st) (s_targets st)).

(** Modelled from the spec: the comparison of two Snapshots, missing
    from the sources; "for every role already in [current.meta], it must
    still appear in [new.meta] with a version ≥ the current entry". *)
Definition metaMonotone (cur new : gmap string MetaFile) : bool :=
  forallb
    (fun e => match new !! e.1 with
              | Some m => mf_version e.2 <=? mf_version m
              | None => false
              end)
    (map_to_list cur).

(** Modelled from the spec: [update_snapshot], missing from the sources
    (section 4.2 (3)); the comparison of hashes is left out. *)
Definition update_snapshot (st : Store) (bytes : Buffer) (trusted : bool)
    : Outcome Store :=
  do! ts := match s_timestamp st with
            | Some ts => Ok ts
            | None => Err (RuntimeError "no timestamp")
            end in
  do! _ := check (negb (is_expired ts)) ExpiredMetadataError in
  let meta := default (mkMetaFile 0 None) (snapshotMetaOf ts) in
  do! _ := check (trusted ||
                  match mf_length meta with
                  | Some n => Z.of_nat (length bytes) =? n
                  | None => true
                  end) LengthOrHashMismatchError in
  let root := s_root st in
  do! new := parseAs "snapshot" bytes in
  do! _ := verifyRole (doc_keys root) (doc_roles root !! "snapshot") new in
  do! _ := check (doc_version new =? mf_version meta) BadVersionError in
  do! _ := match s_snapshot st with
           | Some cur => check (metaMonotone (doc_meta cur) (doc_meta new))
                           BadVersionError
           | None => Ok tt
           end in
  do! _ := check (negb (is_expired new)) ExpiredMetadataError in
  Ok (mkStore root (s_timestamp st) (Some new) ∅).

(** Modelled from the spec: [update_delegated_targets], missing from
    the sources (section 4.2 (5)); the comparison of hashes is left
    out. *)
Definition update_delegated_targets (st : Store) (bytes : Buffer)
    (role_name parent_name : string) : Outcome Store :=
  do! snap := match s_snapshot st with
              | Some s => Ok s
              | None => Err (RuntimeError "no snapshot")
              end in
  do! _ := check (negb (is_expired snap)) ExpiredMetadataError in
  do! authority :=
    if bool_decide (role_name = "targets")
    then Ok (doc_keys (s_root st), doc_roles (s_root st) !! "targets")
    else
      match s_targets st !! parent_name with
      | None => Err (RuntimeError "no parent")
      | Some parent =>
          match doc_delegations parent with
          | None => Err RepositoryError
          | Some dels =>
              Ok (dg_keys dels,
                  (fun r => (dr_keyids r, dr_threshold r)) <$>
                    List.find (fun r => bool_decide (dr_name r = role_name))
                      (dg_roles dels))
          end
      end in
  do! meta_info := match doc_meta snap !! (role_name +:+ ".json") with
                   | Some m => Ok m
                   | None => Err RepositoryError
                   end in
  do! _ := check (match mf_length meta_info with
                  | Some n => Z.of_nat (length bytes) <=? n
                  | None => true
                  end) LengthOrHashMismatchError in
  do! new := parseAs "targets" bytes in
  do! _ := verifyRole authority.1 authority.2 new in
  do! _ := check (doc_version new =? mf_version meta_info) BadVersionError in
  do! _ := check (negb (is_expired new)) ExpiredMetadataError in
  Ok (mkStore (s_root st) (s_timestamp st) (s_snapshot st)
        (<[role_name := new]> (s_targets st))).

(** Modelled from the spec: the accessors of the trusted set, missing
    from the sources, over the operations above. *)
#[export] Instance store : TrustedMetadataStore Store Delegations := {|
  root_version st := doc_version (s_root st);
  root_consistentSnapshot st := doc_consistent (s_root st);
  timestamp_snapshotMeta st := s_timestamp st ≫= snapshotMetaOf;
  snapshot_meta st := doc_meta <$> s_snapshot st;
  getRole st role :=
    (fun d => mkTargets (doc_targets d) (doc_delegations d))
      <$> s_targets st !! role;
  updateRoot := update_root;
  updateTimestamp := update_timestamp;
  updateSnapshot := update_snapshot;
  updateDelegatedTargets := update_delegated_targets;
  Updater.rolesForTarget := rolesForTarget;
|}.

(** A Targets role committed to this store can be read back. *)
Lemma store_commits_role : commits_role.
Proof.
  intros st bytes role parentRole st' H. simpl in *.
  unfold update_delegated_targets, obind, check in H.
  repeat (case_match; try discriminate);
    injection H as <-; simpl; rewrite lookup_insert_eq; eauto.
Qed.
End Ops.
End SpecStore.

(** ** Concrete runs on a small repository *)
Module Scenarios.
Import Fetcher Updater SpecStore.
Import Byte.

Definition buffer_eqb (a b : Buffer) : bool :=
  bool_decide (map Byte.to_N a = map Byte.to_N b).

(** Documents are told apart by a one-byte body. *)
Definition parse (table : list (Buffer * Doc)) (bytes : Buffer) : option Doc :=
  snd <$> List.find (fun e => buffer_eqb e.1 bytes) table.

(** A mirror that answers each listed URL with its file in one chunk. *)
Definition serve (files : list (string * Buffer)) (url : string)
    : Outcome Stream :=
  match List.find (fun e => bool_decide (e.1 = url)) files with
  | Some e => Ok {| chunks := [e.2]; failure := None |}
  | None => Err (JsError "404")
  end.

(** One key, ["K"], is trusted for all four roles. *)
Definition allRoles : gmap string (list string * Z) :=
  list_to_map [("root", (["K"], 1)); ("timestamp", (["K"], 1));
               ("snapshot", (["K"], 1)); ("targets", (["K"], 1))].

Definition rootDoc (v : Z) : Doc :=
  mkDoc "root" v 100 ["K"] ["K"] allRoles true ∅ None None.

Definition timestampDoc (v snapshotVersion : Z) : Doc :=
  mkDoc "timestamp" v 100 ["K"] [] ∅ false
    {[ "snapshot.json" := mkMetaFile snapshotVersion None ]} None None.

Definition snapshotDoc (v : Z) (roles : list string) : Doc :=
  mkDoc "snapshot" v 100 ["K"] [] ∅ false
    (list_to_map (map (fun r => (r +:+ ".json", mkMetaFile 1 None)) roles))
    None None.

Definition targetsDoc (files : list string) (children : list DelegatedRole) : Doc :=
  mkDoc "targets" 1 100 ["K"] [] ∅ false ∅
    (Some (list_to_map (map (fun f => (f, mkTargetFile f 31 [])) files)))
    (match children with
     | [] => None
     | _ => Some (mkDelegations ["K"] children)
     end).

Definition child (name : string) (terminating : bool) (paths : list string)
    : DelegatedRole :=
  mkDelegatedRole name ["K"] 1 terminating paths.

(** The repository: Root versions 1 to 4, and under [targets] the roles
    A (["*.txt"]), B (terminating, ["foo/*"]) and C (["foo/*"]), with D
    (["*.txt"]) under A. *)
Definition table : list (Buffer * Doc) :=
  [([x01], rootDoc 1); ([x02], rootDoc 2); ([x03], rootDoc 3);
   ([x04], rootDoc 4);
   ([x10], timestampDoc 1 1);
   ([x20], snapshotDoc 1 ["targets"; "A"; "B"; "C"; "D"]);
   ([x30], targetsDoc ["file1.txt"]
             [child "A" false ["*.txt"]; child "B" true ["foo/*"];
              child "C" false ["foo/*"]]);
   ([x31], targetsDoc [] [child "D" false ["*.txt"]]);
   ([x32], targetsDoc [] []);
   ([x33], targetsDoc ["foo/bar"] []);
   ([x34], targetsDoc ["x.txt"] [])].

Definition base : string := "https://repo".

Definition mirror : list (string * Buffer) :=
  [("https://repo/timestamp.json", [x10]);
   ("https://repo/1.snapshot.json", [x20]);
   ("https://repo/1.targets.json", [x30]);
   ("https://repo/1.A.json", [x31]);
   ("https://repo/1.B.json", [x32]);
   ("https://repo/1.C.json", [x33]);
   ("https://repo/1.D.json", [x34])].

(** The same mirror after three Root rotations were published. *)
Definition rotated : list (string * Buffer) :=
  [("https://repo/2.root.json", [x02]);
   ("https://repo/3.root.json", [x03]);
   ("https://repo/4.root.json", [x04])] ++ mirror.

#[local] Instance ops : TrustedMetadataStore Store Delegations :=
  SpecStore.store (parse table) 0.

Definition config (maxRootRotations maxDelegations : Z) : Config :=
  mkConfig maxRootRotations maxDelegations 512000 16384 2000000 5000000 true.

Definition defaultConfig : Config := config 32 32.

(** An updater that trusts Root version 1 and nothing else. *)
Definition fresh : World :=
  mkWorld (mkStore (rootDoc 1) None None ∅) {[ "root" := [x01] ]} [].

(** The same, with the current Timestamp in its directory. *)
Definition cached : World :=
  mkWorld (mkStore (rootDoc 1) None None ∅)
    {[ "root" := [x01]; "timestamp" := [x10] ]} [].

(** The updater after a refresh that was awaited, with an empty log. *)
Definition refreshed : World :=
  mkWorld (trustedSet (run (refresh defaultConfig base (serve mirror) id) fresh).1)
    (dir (run (refresh defaultConfig base (serve mirror) id) fresh).1) [].

(** The happy refresh of the specification. *)
Example refresh_happy :
  (run (refresh defaultConfig base (serve mirror) id) fresh).2 = Ok tt /\
  (run (preorderDepthFirstWalk defaultConfig base (serve mirror) id 8 "file1.txt")
     refreshed).2 = Ok (Some (Some (mkTargetFile "file1.txt" 31 []))).
Proof. split; vm_compute; reflexivity. Qed.

(** C2. With [maxRootRotations = 1] and Root versions 2, 3 and 4 on the
    mirror, [loadRoot] requests and commits versions 2 and 3: two new
    Root versions in one refresh, and the trusted Root goes from version
    1 to version 3. *)
Definition rotatedOnce : World :=
  (run (loadRoot (config 1 32) base (serve rotated) id) fresh).1.

Theorem loadRoot_rotates_once_too_often :
  root_version (trustedSet fresh) = 1 /\
  root_version (trustedSet rotatedOnce) = 3 /\
  fetched (log rotatedOnce) =
    ["https://repo/3.root.json"; "https://repo/2.root.json"] /\
  committed (log rotatedOnce) = ["root"; "root"].
Proof. vm_compute. auto. Qed.

(** The claim of C3 as stated fails: with [maxDelegations = 1] the walk
    for ["x.txt"] inspects two roles, [targets] and [A], before it gives
    up. *)
Definition shortWalk : World * Outcome (option (option TargetFile)) :=
  run (preorderDepthFirstWalk (config 32 1) base (serve mirror) id 8 "x.txt")
    refreshed.

Lemma walk_inspects_one_more_counterexample :
  shortWalk.2 = Ok (Some None) /\
  consulted (log shortWalk.1) =
    [mkDelegation "A" "targets"; mkDelegation "targets" "root"] /\
  inspected (log shortWalk.1) = ["A"; "targets"] /\
  ~ (Z.of_nat (length (inspected (log shortWalk.1)))
     <= maxDelegations (config 32 1)).
Proof. vm_compute. split_and!; [done | done | done | intros H; by apply H]. Qed.

(** With one more visit allowed, the target is found under D. *)
Example walk_finds_in_D :
  (run (preorderDepthFirstWalk (config 32 2) base (serve mirror) id 8 "x.txt")
     refreshed).2 = Ok (Some (Some (mkTargetFile "x.txt" 31 []))).
Proof. vm_compute. reflexivity. Qed.

(** The terminating delegation of the specification: for ["foo/bar"]
    the walk loads [targets] and B and never C, which holds the file. *)
Definition fooBarWalk : World * Outcome (option (option TargetFile)) :=
  run (preorderDepthFirstWalk defaultConfig base (serve mirror) id 8 "foo/bar")
    refreshed.

Example walk_terminating :
  fooBarWalk.2 = Ok (Some None) /\
  consulted (log fooBarWalk.1) =
    [mkDelegation "B" "targets"; mkDelegation "targets" "root"].
Proof. vm_compute. auto. Qed.

(** C6. On an updater that trusts only its Root, [getTargetInfo] leaves
    the refresh pending after its first request, starts the walk on the
    trusted set of before, and the walk fails with a [ReferenceError]
    whatever the world is when it is resumed; had the refresh been
    awaited, the walk would have returned the descriptor. *)
Definition lookupFresh
    : option (Step World unit) * Step World (option (option TargetFile)) :=
  getTargetInfo defaultConfig base (serve mirror) id 8 "file1.txt" fresh.

Theorem getTargetInfo_walks_before_refresh :
  (pending <$> lookupFresh.1) = Some true /\
  log (first_segment lookupFresh.2) =
    [EvLoadTargets (mkDelegation "targets" "root");
     EvFetch "https://repo/2.root.json"] /\
  trustedSet (first_segment lookupFresh.2) = trustedSet fresh /\
  (forall w, match lookupFresh.2 with
             | Suspended _ resume =>
                 resume w = Done w (Err (ReferenceError "No snapshot metadata"))
             | Done _ _ => False
             end) /\
  (run (let! _ := await (refresh defaultConfig base (serve mirror) id) in
        preorderDepthFirstWalk defaultConfig base (serve mirror) id 8 "file1.txt")
     fresh).2 = Ok (Some (Some (mkTargetFile "file1.txt" 31 []))).
Proof.
  split_and!; vm_compute; reflexivity.
Qed.


Lemma downloadBytes_bounded_witness :
  run (downloadBytes (fetch (serve mirror)) "https://repo/timestamp.json" 1) fresh
  = (emit (EvFetch "https://repo/timestamp.json") fresh, Ok [x10]).
Proof.
  destruct (downloadBytes_bounded (fetch (serve mirror))
              "https://repo/timestamp.json" 1 fresh ltac:(lia)) as (_ & H & _).
  exact (H _ {| chunks := [[x10]]; failure := None |} eq_refl eq_refl eq_refl).
Defined.

Lemma loadTimestamp_EqualVersion_witness :
  (run (loadTimestamp defaultConfig base (serve mirror) id)
     (run (loadRoot defaultConfig base (serve mirror) id) cached).1).2 = Ok tt.
Proof.
  epose proof (loadTimestamp_EqualVersion defaultConfig base (serve mirror) id
                 cached _ _ _ _ eq_refl eq_refl) as H.
  destruct H as [H _]; [vm_compute; reflexivity|].
  destruct H as (Hrun & _); [vm_compute; reflexivity|].
  rewrite Hrun. reflexivity.
Defined.

(** *** Runs for the properties of the loaders, the walk and the target
    files *)

Lemma refresh_trusts_targets_witness :
  run (refresh defaultConfig base (serve mirror) id) fresh =
    ((run (refresh defaultConfig base (serve mirror) id) fresh).1, Ok tt) /\
  is_Some (getRole
             (trustedSet (run (refresh defaultConfig base (serve mirror) id) fresh).1)
             "targets").
Proof.
  assert (Hrun : run (refresh defaultConfig base (serve mirror) id) fresh =
            ((run (refresh defaultConfig base (serve mirror) id) fresh).1, Ok tt))
    by (vm_compute; reflexivity).
  split; [exact Hrun|].
  exact (proj1 (refresh_trusts_targets defaultConfig base (serve mirror) id
                  8 "file1.txt" fresh _ (store_commits_role (parse table) 0) Hrun)).
Defined.

Lemma walk_found_witness :
  exists role tg ev,
    log (run (walk (config 32 2) base (serve mirror) id 8 "x.txt" ∅
                [mkDelegation "targets" "root"]) refreshed).1 =
      EvInspect role :: ev ++ log refreshed /\
    (role ∉ (∅ : gset string)) /\
    getRole (trustedSet
               (run (walk (config 32 2) base (serve mirror) id 8 "x.txt" ∅
                       [mkDelegation "targets" "root"]) refreshed).1) role = Some tg /\
    targets tg ≫= (fun m => m !! "x.txt") = Some (mkTargetFile "x.txt" 31 []).
Proof.
  apply (walk_found (config 32 2) base (serve mirror) id 8 "x.txt" ∅
           [mkDelegation "targets" "root"] refreshed).
  vm_compute. reflexivity.
Defined.

(** The top-level Targets that the refresh left in the trusted set. *)
Definition topLevelTargets : option (Targets Delegations) :=
  Eval vm_compute in getRole (trustedSet refreshed) "targets".

Lemma walk_top_level_hit_witness :
  (run (preorderDepthFirstWalk defaultConfig base (serve mirror) id 1 "file1.txt")
     refreshed).2 = Ok (Some (Some (mkTargetFile "file1.txt" 31 []))).
Proof.
  destruct topLevelTargets as [tg|] eqn:Htg; [|discriminate].
  rewrite (walk_top_level_hit defaultConfig base (serve mirror) id 0 "file1.txt"
             refreshed tg (mkTargetFile "file1.txt" 31 [])).
  - reflexivity.
  - vm_compute. discriminate.
  - rewrite <- Htg. vm_compute. reflexivity.
  - injection Htg as <-. vm_compute. reflexivity.
Defined.

(** A target file of three bytes, served under its hash-prefixed name,
    and a check of the length only. *)
Definition file1 : TargetFile :=
  mkTargetFile "docs/file1.txt" 3 [("sha256", "abc")].

Definition targetMirror : list (string * Buffer) :=
  [("https://targets/abc.file1.txt", [x01; x02; x03])].

Definition verifyLength (targetInfo : TargetFile) (data : Buffer) : Outcome unit :=
  if bool_decide (Z.of_nat (length data) = tf_length targetInfo)
  then Ok tt else Err LengthOrHashMismatchError.

Definition downloaded : Disk * Outcome string :=
  run (downloadTarget defaultConfig (serve targetMirror) (Some "/var/targets")
         (Some "https://targets") verifyLength (fun _ => "file1.txt")
         file1 None None)
    (mkDisk refreshed ∅).

Lemma downloadTarget_then_cached_witness :
  downloaded.2 = Ok "/var/targets/docs/file1.txt" /\
  run (findCachedTarget (Some "/var/targets") verifyLength file1 None) downloaded.1 =
    (downloaded.1, Ok (Some "/var/targets/docs/file1.txt")).
Proof.
  assert (Hrun : run (downloadTarget defaultConfig (serve targetMirror)
                        (Some "/var/targets") (Some "https://targets") verifyLength
                        (fun _ => "file1.txt") file1 None None)
                   (mkDisk refreshed ∅) =
                 (downloaded.1, Ok "/var/targets/docs/file1.txt"))
    by (vm_compute; reflexivity).
  split; [vm_compute; reflexivity|].
  exact (proj1 (downloadTarget_then_cached defaultConfig (serve targetMirror)
                  (Some "/var/targets") (Some "https://targets") verifyLength
                  (fun _ => "file1.txt") file1 None None
                  (mkDisk refreshed ∅) downloaded.1 _ Hrun)).
Defined.

(** The request goes to the hash-prefixed base name, without the
    directory part of the target path, which the local path keeps. *)
Example downloadTarget_prefixed_url :
  fetched (log (updater downloaded.1)) = ["https://targets/abc.file1.txt"] /\
  files downloaded.1 !! "/var/targets/docs/file1.txt" = Some [x01; x02; x03].
Proof. split; vm_compute; reflexivity. Qed.

(** Without a target directory and without a file path nothing is
    requested. *)
Example downloadTarget_no_directory :
  run (downloadTarget defaultConfig (serve targetMirror) None
         (Some "https://targets") verifyLength (fun _ => "file1.txt")
         file1 (Some "") None)
    (mkDisk refreshed ∅)
  = (mkDisk refreshed ∅, Err (ValueError "Target directory not set")).
Proof. vm_compute. reflexivity. Qed.

End Scenarios.


(** ** A role delegated by two parents, and a terminating role below a
    pending one *)
Module TwoParents.
Import Fetcher Updater SpecStore Scenarios.
Import Byte.

(** The repository: under [targets] the roles A (["foo/*"], ["bar/*"]),
    B (terminating, ["foo/*"]), C (["foo/*"]) and E (["bar/*"]); under A
    the roles C (["foo/*"]) again and T (terminating, ["bar/*"]). C
    lists ["foo/bar"] and E lists ["bar/x"]. *)
Definition sharedTable : list (Buffer * Doc) :=
  [([x01], rootDoc 1);
   ([x10], timestampDoc 1 1);
   ([x20], snapshotDoc 1 ["targets"; "A"; "B"; "C"; "E"; "T"]);
   ([x30], targetsDoc []
             [child "A" false ["foo/*"; "bar/*"]; child "B" true ["foo/*"];
              child "C" false ["foo/*"]; child "E" false ["bar/*"]]);
   ([x31], targetsDoc [] [child "C" false ["foo/*"]; child "T" true ["bar/*"]]);
   ([x32], targetsDoc [] []);
   ([x33], targetsDoc ["foo/bar"] []);
   ([x34], targetsDoc ["bar/x"] []);
   ([x35], targetsDoc [] [])].

Definition sharedMirror : list (string * Buffer) :=
  [("https://repo/timestamp.json", [x10]);
   ("https://repo/1.snapshot.json", [x20]);
   ("https://repo/1.targets.json", [x30]);
   ("https://repo/1.A.json", [x31]);
   ("https://repo/1.B.json", [x32]);
   ("https://repo/1.C.json", [x33]);
   ("https://repo/1.E.json", [x34]);
   ("https://repo/1.T.json", [x35])].

#[local] Instance sharedOps : TrustedMetadataStore Store Delegations :=
  SpecStore.store (parse sharedTable) 0.

(** The updater after a refresh that was awaited, with an empty log. *)
Definition trusted : World :=
  mkWorld
    (trustedSet (run (refresh defaultConfig base (serve sharedMirror) id) fresh).1)
    (dir (run (refresh defaultConfig base (serve sharedMirror) id) fresh).1) [].

(** What the top-level Targets delegates for a path. *)
Definition topLevelRolesFor (targetPath : string) : option (list (string * bool)) :=
  dels ← getRole (trustedSet trusted) "targets" ≫= delegations;
  Some (rolesForTarget dels targetPath).

Definition fooBarShared : World * Outcome (option (option TargetFile)) :=
  run (preorderDepthFirstWalk defaultConfig base (serve sharedMirror) id 8 "foo/bar")
    trusted.

(** The claim of C4 as stated fails: for ["foo/bar"] the role C is a
    matching sibling declared after the terminating role B, and yet the
    walk loads and inspects C, as the delegation of A, and answers with
    the entry of C. *)
Lemma terminating_later_sibling_counterexample :
  topLevelRolesFor "foo/bar" = Some [("A", false); ("B", true); ("C", false)] /\
  consulted (log fooBarShared.1) =
    [mkDelegation "C" "A"; mkDelegation "A" "targets";
     mkDelegation "targets" "root"] /\
  inspected (log fooBarShared.1) = ["C"; "A"; "targets"] /\
  fooBarShared.2 = Ok (Some (Some (mkTargetFile "foo/bar" 31 []))).
Proof. vm_compute. auto. Qed.

(** For ["bar/x"], after [targets] was inspected, the delegations to E
    and to A are pending, A on top. *)
Definition pendingEA : list Delegation :=
  [mkDelegation "E" "targets"; mkDelegation "A" "targets"].

(** The world after the iteration that inspects A. *)
Definition afterA : World :=
  emit (EvInspect "A")
    (run (loadTargets defaultConfig base (serve sharedMirror) id "A" "targets")
       trusted).1.

(** The rest of the walk from there, and what it added to the log. *)
Definition restOfWalk : World * Outcome (option (option TargetFile)) :=
  run (walk defaultConfig base (serve sharedMirror) id 8 "bar/x"
         ({["A"]} ∪ {["targets"]}) [mkDelegation "T" "A"]) afterA.

Definition restEvents : list Event :=
  Eval vm_compute in
    take (length (log restOfWalk.1) - length (log afterA)) (log restOfWalk.1).

Lemma terminating_role_short_circuit_witness :
  (run (walk_body defaultConfig base (serve sharedMirror) id "bar/x"
          {["targets"]} pendingEA) trusted).2
  = Ok (Continue ({["A"]} ∪ {["targets"]}) [mkDelegation "T" "A"]) /\
  consulted restEvents = [mkDelegation "T" "A"] /\
  restOfWalk.2 = Ok (Some None) /\
  (forall d', d' ∈ consulted restEvents -> d' ∉ [mkDelegation "E" "targets"]).
Proof.
  epose proof (terminating_role_short_circuit defaultConfig base
                 (serve sharedMirror) id
                 "bar/x" {["targets"]} pendingEA [mkDelegation "E" "targets"]
                 (mkDelegation "A" "targets") trusted _ _ _ [] "T" []
                 _ eq_refl) as H.
  destruct H as [Hbody Hrest].
  - vm_compute. discriminate.
  - set_solver.
  - vm_compute. reflexivity.
  - vm_compute. reflexivity.
  - vm_compute. reflexivity.
  - vm_compute. reflexivity.
  - constructor.
  - split_and!.
    + rewrite Hbody. reflexivity.
    + vm_compute. reflexivity.
    + vm_compute. reflexivity.
    + intros d' Hd'.
      refine (proj1 (Hrest 8%nat restOfWalk.1 restOfWalk.2 restEvents _ _ d' Hd')).
      * vm_compute. reflexivity.
      * vm_compute. reflexivity.
  Unshelve.
  right. unfold pendingEA. repeat constructor; simpl; set_solver.
Defined.
End TwoParents.
